(** * Spotify-Scrapper: pairing-plan engine and pair de-duplication

    A shallow embedding of [dedupe.js], [pairingPlan.js] and the pairing and
    merge blocks of the [POST /api/create-list] handler of [server.js],
    together with the properties of the pairing-plan engine
    (normalize, validate, build) and of the de-duplication engine
    (title normalisation, pair keys, canonical-store merge).

    JavaScript data is modelled as follows.
    - A string is the list of its UTF-16 code units ([jsstring]); regular
      expressions without the [u] flag work on exactly these units.
    - A number that holds a track position or a count is an integer of [Z].
    - [undefined] / [null] in a place where an object may be missing is
      [None].
    - A [Set] of numbers is a [gset Z]; a [Map] whose iteration order is
      observed is an insertion-ordered association list.
    - [throw] is an explicit outcome that also records the state reached. *)

From Stdlib Require Import ZArith NArith Lia List Bool String Ascii Sorting.Sorted Sorting.Permutation.
From stdpp Require Import base gmap sets list.

Import ListNotations.
Local Open Scope Z_scope.

(** ** Strings *)

(** A JavaScript string: its sequence of UTF-16 code units. *)
Definition jsstring : Type := list N.

(** A string literal of the source that has only Basic Latin characters. *)
Fixpoint js (s : string) : jsstring :=
  match s with
  | EmptyString => []
  | String a s' => N_of_ascii a :: js s'
  end.

(** ** Character classes and string primitives of the language *)

(** [\s], which is also what [trim] removes: WhiteSpace and LineTerminator. *)
Definition isWhiteSpace (c : N) : bool :=
  ((9 <=? c) && (c <=? 13) || (c =? 32) || (c =? 160) || (c =? 5760)
   || (8192 <=? c) && (c <=? 8202) || (c =? 8232) || (c =? 8233)
   || (c =? 8239) || (c =? 8287) || (c =? 12288) || (c =? 65279))%N.

(** [\d] *)
Definition isDigit (c : N) : bool := ((48 <=? c) && (c <=? 57))%N.

(** [[a-z]] and [[A-Z]] *)
Definition isLower (c : N) : bool := ((97 <=? c) && (c <=? 122))%N.
Definition isUpper (c : N) : bool := ((65 <=? c) && (c <=? 90))%N.

(** [\w], the characters between which [\b] finds no boundary. *)
Definition isWordChar (c : N) : bool :=
  (isLower c || isUpper c || isDigit c || (c =? 95))%N.

Fixpoint dropWhile {A : Type} (f : A -> bool) (l : list A) : list A :=
  match l with
  | [] => []
  | x :: l' => if f x then dropWhile f l' else l
  end.

(** [String.prototype.trim] *)
Definition trimStart (s : jsstring) : jsstring := dropWhile isWhiteSpace s.
Definition trimEnd (s : jsstring) : jsstring := rev (dropWhile isWhiteSpace (rev s)).
Definition trim (s : jsstring) : jsstring := trimEnd (trimStart s).

(** The value of a digit in the radix, [None] for any other code unit. *)
Definition digitValue (radix : Z) (c : N) : option Z :=
  let v := if isDigit c then Some (Z.of_N c - 48)
           else if ((97 <=? c) && (c <=? 102))%N then Some (Z.of_N c - 87)
           else if ((65 <=? c) && (c <=? 70))%N then Some (Z.of_N c - 55)
           else None in
  match v with
  | Some d => if d <? radix then Some d else None
  | None => None
  end.

(** The longest prefix of digits, read in the radix; [None] when the
    string starts with no digit. *)
Fixpoint parseDigits (radix : Z) (s : jsstring) (acc : option Z) : option Z :=
  match s with
  | [] => acc
  | c :: s' =>
      match digitValue radix c with
      | Some d => parseDigits radix s' (Some (radix * default 0 acc + d))
      | None => acc
      end
  end.

(** [parseInt(s)] with no radix: leading white space, a sign, [0x] or [0X]
    for radix 16, then the longest digit prefix; [None] is [NaN].  The
    result is the exact integer.  Its uses are the comparison of the two
    bounds of a range and [clamp] against a track count; two integers that
    round to one double both lie beyond every track count, so that both
    uses give what they give for the doubles. *)
Definition parseInt (s : jsstring) : option Z :=
  let s1 := trimStart s in
  let '(sign, s2) := match s1 with
                     | 45%N :: r => (-1, r)
                     | 43%N :: r => (1, r)
                     | _ => (1, s1)
                     end in
  let '(radix, s3) := match s2 with
                      | 48%N :: 120%N :: r => (16, r)
                      | 48%N :: 88%N :: r => (16, r)
                      | _ => (10, s2)
                      end in
  match parseDigits radix s3 None with
  | Some n => Some (sign * n)
  | None => None
  end.

(** ** Numerals *)

(** The decimal digits of a natural number before [acc], most significant
    first; [fuel] bounds their number. *)
Fixpoint digitsBefore (fuel : nat) (n : Z) (acc : jsstring) : jsstring :=
  match fuel with
  | O => acc
  | S fuel' =>
      let acc' := Z.to_N (48 + n mod 10) :: acc in
      if n / 10 =? 0 then acc' else digitsBefore fuel' (n / 10) acc'
  end.

(** [String(n)] for an integer [n] below [10^21] in size, which every index
    and position is: the decimal numeral, with [-] before a negative one.  A
    number has no more decimal than binary digits. *)
Definition numberToString (n : Z) : jsstring :=
  if n <? 0 then 45%N :: digitsBefore (S (Z.to_nat (Z.log2 (- n)))) (- n) []
  else digitsBefore (S (Z.to_nat (Z.log2 n))) n [].

(** The number that the digits [ds] write after the number [v]. *)
Definition digitsValue (v : Z) (ds : jsstring) : Z :=
  fold_left (fun a c => 10 * a + (Z.of_N c - 48)) ds v.

(** ** Tracks and pairs *)

(** [{ title, artist }]; a property that is missing is [None]. *)
Record Track : Type := mkTrack {
  title : option jsstring;
  artist : option jsstring
}.

(** A pair object.  [buildPairsFromPlan] and the default pairing write
    [originalTrack], [sampledTrack], [originalPos] and [sampledPos];
    records that come from [/api/create-json] carry [original] and
    [sampled] instead.  [getPairKey] reads both shapes. *)
Record Pair : Type := mkPair {
  original : option Track;
  sampled : option Track;
  originalTrack : option Track;
  sampledTrack : option Track;
  originalPos : Z;
  sampledPos : Z
}.

(** The object literal
    [{ originalTrack: tracks[o - 1], sampledTrack: tracks[s - 1],
       originalPos: o, sampledPos: s }].
    An index outside the array reads [undefined]. *)
Definition trackAt (tracks : list Track) (pos : Z) : option Track :=
  if pos <? 1 then None else tracks !! Z.to_nat (pos - 1).

Definition positionPair (tracks : list Track) (o s : Z) : Pair :=
  {| original := None; sampled := None;
     originalTrack := trackAt tracks o; sampledTrack := trackAt tracks s;
     originalPos := o; sampledPos := s |}.

(** ** [Array.prototype.sort] with a numeric key comparator

    [xs.sort((a, b) => key(a) - key(b))].  The sort of the language is
    stable; the model is the stable insertion sort. *)
Section SortBy.
Context {A : Type} (key : A -> Z).

Fixpoint insertBy (x : A) (l : list A) : list A :=
  match l with
  | [] => [x]
  | y :: l' => if key x <=? key y then x :: y :: l' else y :: insertBy x l'
  end.

Definition sortBy (l : list A) : list A := foldr insertBy [] l.

(** The order the comparator induces. *)
Definition keyLe (x y : A) : Prop := key x <= key y.
End SortBy.

(** ** dedupe.js *)
Module Dedupe.

(** The lower-case form of a Basic Latin code unit. *)
Definition lowerUnit (c : N) : N := if isUpper c then (c + 32)%N else c.

(** Basic Latin, the en dash and the em dash: the code units on which
    [String.prototype.toLowerCase] is known here. *)
Definition isBasicUnit (c : N) : bool := ((c <? 128) || (c =? 8211) || (c =? 8212))%N.

(** What is assumed of [String.prototype.toLowerCase]: on a string of
    Basic Latin characters and dashes it lowers A-Z and leaves the rest.
    Nothing is assumed for other strings. *)
Definition LowerCaseSpec (toLowerCase : jsstring -> jsstring) : Prop :=
  forall s, forallb isBasicUnit s = true -> toLowerCase s = map lowerUnit s.

(** The instance that is the unit-wise map everywhere. *)
Definition toLowerCaseBasic (s : jsstring) : jsstring := map lowerUnit s.

(** [/[–—-]/]: en dash, em dash, hyphen-minus. *)
Definition isDash (c : N) : bool := ((c =? 8211) || (c =? 8212) || (c =? 45))%N.

(** [s.replace(/[–—-]/g, ' ')] *)
Definition replaceDashes (s : jsstring) : jsstring :=
  map (fun c => if isDash c then 32%N else c) s.

(** [s.replace(/\([^)]*\)/g, '')] for [opening = '('], [closing = ')'], and
    [s.replace(/\[[^\]]*\]/g, '')] for the brackets.  A match starts at an
    opening character that has a closing one somewhere after it and runs to
    the first such closing character; the scan goes on after the match.
    [inside] says that the scan is within a match. *)
Fixpoint stripGroups (opening closing : N) (inside : bool) (s : jsstring) : jsstring :=
  match s with
  | [] => []
  | c :: s' =>
      if inside
      then if (c =? closing)%N then stripGroups opening closing false s'
           else stripGroups opening closing true s'
      else if (c =? opening)%N && existsb (N.eqb closing) s'
           then stripGroups opening closing true s'
           else c :: stripGroups opening closing false s'
  end.

Definition stripParens (s : jsstring) : jsstring := stripGroups 40 41 false s.
Definition stripBrackets (s : jsstring) : jsstring := stripGroups 91 93 false s.

Definition suffixes : list jsstring :=
  map js ["remastered"; "remaster"; "remix"; "radio edit"; "radio version";
          "edit"; "mono"; "stereo"; "version"; "single version"; "album version";
          "extended"; "extended version"; "deluxe"; "deluxe edition";
          "explicit"; "clean"; "instrumental"; "acapella"; "live"]%string.

(** [suffixes.sort((a, b) => b.length - a.length)] *)
Definition sortedSuffixes : list jsstring :=
  sortBy (fun suffix => - Z.of_nat (length suffix)) suffixes.

(** A pattern character against a code unit under the [i] flag: the
    pattern characters are lower-case letters and the space, and only a
    Basic Latin letter is the other case of one. *)
Definition matchUnit (p c : N) : bool := (lowerUnit c =? p)%N.

(** The literal text of the pattern at the head of [s]; the rest of [s]. *)
Fixpoint matchLiteral (pattern s : jsstring) : option jsstring :=
  match pattern, s with
  | [], _ => Some s
  | p :: pattern', c :: s' => if matchUnit p c then matchLiteral pattern' s' else None
  | _ :: _, [] => None
  end.

(** [(?:\s+\d+)?\b\s*$] after a word character: white space to the end, or
    white space, digits and white space to the end. *)
Definition matchTail (r : jsstring) : bool :=
  let r1 := dropWhile isWhiteSpace r in
  match r1 with
  | [] => true
  | _ :: _ =>
      let r2 := dropWhile isDigit r1 in
      (length r1 <? length r)%nat && (length r2 <? length r1)%nat
      && match dropWhile isWhiteSpace r2 with [] => true | _ :: _ => false end
  end.

(** The pattern [\b${suffix}(?:\s+\d+)?\b\s*$] at the head of [s]. *)
Definition matchHere (suffix s : jsstring) : bool :=
  match matchLiteral suffix s with
  | Some r => matchTail r
  | None => false
  end.

(** [s.replace(new RegExp(`\\b${suffix}(?:\\s+\\d+)?\\b\\s*$`, 'i'), '')]:
    the first position, from the left, that is at a word boundary and where
    the pattern matches; the match runs to the end of the string and is
    removed.  [prevIsWord] says that the unit before the position is a word
    character. *)
Fixpoint stripSuffixFrom (suffix : jsstring) (prevIsWord : bool) (s : jsstring) : jsstring :=
  match s with
  | [] => []
  | c :: s' =>
      if negb prevIsWord && matchHere suffix s then []
      else c :: stripSuffixFrom suffix (isWordChar c) s'
  end.

Definition stripSuffix (suffix : jsstring) (s : jsstring) : jsstring :=
  stripSuffixFrom suffix false s.

(** [for (const suffix of sortedSuffixes) normalized = normalized.replace(...)] *)
Definition stripSuffixes (s : jsstring) : jsstring :=
  fold_left (fun normalized suffix => stripSuffix suffix normalized) sortedSuffixes s.

(** [s.replace(/[^a-z0-9\s]/g, '')] *)
Definition keepAlnumSpace (s : jsstring) : jsstring :=
  List.filter (fun c => isLower c || isDigit c || isWhiteSpace c) s.

(** [s.replace(/\s+/g, ' ')]; [inRun] says that the unit before was white
    space. *)
Fixpoint collapseFrom (inRun : bool) (s : jsstring) : jsstring :=
  match s with
  | [] => []
  | c :: s' =>
      if isWhiteSpace c
      then if inRun then collapseFrom true s' else 32%N :: collapseFrom true s'
      else c :: collapseFrom false s'
  end.

Definition collapseSpaces (s : jsstring) : jsstring := collapseFrom false s.

(** Steps 2 and 3 of [normalizeTitle]. *)
Definition prepare (lowered : jsstring) : jsstring :=
  stripBrackets (stripParens (replaceDashes lowered)).

(** Steps 2 to 7 of [normalizeTitle]. *)
Definition normalizeLowered (lowered : jsstring) : jsstring :=
  trim (collapseSpaces (keepAlnumSpace (stripSuffixes (prepare lowered)))).

Section Normalize.
(** [String.prototype.toLowerCase] *)
Variable toLowerCase : jsstring -> jsstring.

Definition normalizeTitle (title : jsstring) : jsstring :=
  match title with
  | [] => []                                   (* if (!title) return '' *)
  | _ :: _ => normalizeLowered (toLowerCase title)
  end.

Definition normalizeArtist (artist : jsstring) : jsstring :=
  match artist with
  | [] => []                                   (* if (!artist) return '' *)
  | _ :: _ => trim (collapseSpaces (toLowerCase artist))
  end.

(** [`${title}|${artist}`], with [song.title || ''] and [song.artist || '']. *)
Definition keyForSong (song : option Track) : jsstring :=
  match song with
  | None => []                                 (* if (!song) return '' *)
  | Some song =>
      normalizeTitle (default [] (title song)) ++ js "|"
      ++ normalizeArtist (default [] (artist song))
  end.

(** [a || b] on two objects that may be missing. *)
Definition orElse {A : Type} (a b : option A) : option A :=
  match a with Some _ => a | None => b end.

(** [`O:${originalKey}||S:${sampledKey}`] *)
Definition getPairKey (pair : option Pair) : jsstring :=
  match pair with
  | None => []                                 (* if (!pair) return '' *)
  | Some p =>
      let original := orElse (original p) (originalTrack p) in
      let sampled := orElse (sampled p) (sampledTrack p) in
      js "O:" ++ keyForSong original ++ js "||S:" ++ keyForSong sampled
  end.
End Normalize.

(** *** The shape of a normalised title *)

(** A character that steps 5 and 6 can leave: a lower-case letter, a digit
    or the space. *)
Definition isClean (c : N) : bool := (isLower c || isDigit c || (c =? 32))%N.

(** No two spaces in a row. *)
Fixpoint singleSpaced (s : jsstring) : bool :=
  match s with
  | c1 :: ((c2 :: _) as s') => negb ((c1 =? 32) && (c2 =? 32))%N && singleSpaced s'
  | _ => true
  end.

(** The head of the string is not the space. *)
Definition headNotSpace (s : jsstring) : bool :=
  match s with
  | c :: _ => negb (c =? 32)%N
  | [] => true
  end.

(** Lower-case letters, digits and single spaces, with no space at either
    end. *)
Definition NormalForm (s : jsstring) : Prop :=
  forallb isClean s = true /\ singleSpaced s = true /\ trim s = s.

(** *** Titles and their trailing annotation *)

(** [[A-Za-z]] *)
Definition isLetter (c : N) : bool := isLower c || isUpper c.




Fixpoint takeWhile {A : Type} (f : A -> bool) (l : list A) : list A :=
  match l with
  | [] => []
  | x :: l' => if f x then x :: takeWhile f l' else []
  end.






(** *** The legacy normalisation and the parts of a key *)

Section Legacy.
(** [String.prototype.toLowerCase] *)
Variable toLowerCase : jsstring -> jsstring.

(** The legacy normalisation, kept for compatibility. *)
Definition normalizeText (s : jsstring) : jsstring :=
  match s with
  | [] => []                                   (* if (!s) return '' *)
  | _ :: _ => toLowerCase (collapseSpaces (trim s))
  end.

(** What a key holds of a song: nothing when the song is missing, its
    normalised title and artist otherwise. *)
Definition songParts (song : option Track) : option (jsstring * jsstring) :=
  match song with
  | None => None
  | Some song => Some (normalizeTitle toLowerCase (default [] (title song)),
                       normalizeArtist toLowerCase (default [] (artist song)))
  end.

(** What a key holds of a pair: the parts of its original and of its
    sample, each read as [getPairKey] reads it. *)
Definition pairParts (p : Pair)
  : option (jsstring * jsstring) * option (jsstring * jsstring) :=
  (songParts (orElse (original p) (originalTrack p)),
   songParts (orElse (sampled p) (sampledTrack p))).
End Legacy.

(** The artist of the song, when there is one, has Basic Latin characters
    and dashes only. *)
Definition basicArtist (song : option Track) : bool :=
  match song with
  | Some song => forallb isBasicUnit (default [] (artist song))
  | None => true
  end.

(** No white space but single spaces, and none at either end: the shape of
    a normalised artist. *)
Definition SpacedForm (s : jsstring) : Prop :=
  forallb (fun c => negb (isWhiteSpace c) || (c =? 32)%N) s = true
  /\ singleSpaced s = true /\ trim s = s.

End Dedupe.

(** ** pairingPlan.js *)
Module PairingPlan.

Inductive MappingType : Type := EVEN_ORIGINAL | ODD_ORIGINAL.

Record TrioOverride : Type := mkTrio {
  original : Z;
  sampleA : Z;
  sampleB : Z
}.

(** [{ start, end, mapping }]; [end] is written [end_]. *)
Record RangeRule : Type := mkRange {
  start : Z;
  end_ : Z;
  mapping : MappingType
}.

Record PairingPlan : Type := mkPlan {
  trios : list TrioOverride;
  ranges : list RangeRule
}.

(** *** normalizePlan *)

(** A raw plan as the request body delivers it.  [normalizePlan] reads a
    field [v] only through [String(v)], so a raw field is that string: a
    number is its decimal numeral, a string is itself, a missing field is
    ["undefined"]. *)
Module Raw.
Record Trio : Type := mkTrio {
  original : jsstring;
  sampleA : jsstring;
  sampleB : jsstring
}.

Record Range : Type := mkRange {
  start : jsstring;
  end_ : jsstring;
  mapping : jsstring
}.

(** [trios] and [ranges] are [None] when they are not arrays. *)
Record Plan : Type := mkPlan {
  trios : option (list Trio);
  ranges : option (list Range)
}.
End Raw.

(** [Math.max(1, Math.min(trackCount, x))] *)
Definition clamp (trackCount x : Z) : Z := Z.max 1 (Z.min trackCount x).

(** [parseInt(String(v).trim())] of the three fields; [null] when one of
    them is [NaN]. *)
Definition normalizeTrio (trackCount : Z) (trio : Raw.Trio) : option TrioOverride :=
  match parseInt (trim (Raw.original trio)),
        parseInt (trim (Raw.sampleA trio)),
        parseInt (trim (Raw.sampleB trio)) with
  | Some original, Some sampleA, Some sampleB =>
      Some {| original := clamp trackCount original;
              sampleA := clamp trackCount sampleA;
              sampleB := clamp trackCount sampleB |}
  | _, _, _ => None
  end.

(** [String(range.mapping).trim()] compared with the two literals. *)
Definition parseMapping (mapping : jsstring) : option MappingType :=
  if decide (trim mapping = js "EVEN_ORIGINAL") then Some EVEN_ORIGINAL
  else if decide (trim mapping = js "ODD_ORIGINAL") then Some ODD_ORIGINAL
  else None.

Definition normalizeRange (trackCount : Z) (range : Raw.Range) : option RangeRule :=
  match parseInt (trim (Raw.start range)), parseInt (trim (Raw.end_ range)) with
  | Some start0, Some end0 =>
      (* if (start > end) [start, end] = [end, start] *)
      let '(start1, end1) := if start0 >? end0 then (end0, start0) else (start0, end0) in
      let start2 := clamp trackCount start1 in
      let end2 := clamp trackCount end1 in
      match parseMapping (Raw.mapping range) with
      | Some mapping => Some {| start := start2; end_ := end2; mapping := mapping |}
      | None => None
      end
  | _, _ => None
  end.

(** [.filter(x => x !== null)] after [.map(...)]. *)
Fixpoint dropNull {A : Type} (l : list (option A)) : list A :=
  match l with
  | [] => []
  | Some x :: l' => x :: dropNull l'
  | None :: l' => dropNull l'
  end.

Definition normalizePlan (plan : Raw.Plan) (trackCount : Z) : PairingPlan :=
  {| trios := dropNull (map (normalizeTrio trackCount) (default [] (Raw.trios plan)));
     ranges := sortBy start
                 (dropNull (map (normalizeRange trackCount)
                                (default [] (Raw.ranges plan)))) |}.

(** *** validatePlan *)

(** The messages pushed on [errors], each with the values its template
    interpolates.  Trio and range numbers are [index + 1]. *)
Inductive ValidationError : Type :=
  | NoRangeRule
      (* 'Pairing plan must have at least one range rule' *)
  | TrioTrackOutOfRange (trio : Z) (track trackCount : Z)
      (* `Trio ${index + 1}: track ${track} is out of range [1..${trackCount}]` *)
  | TrioNotDistinct (trio : Z) (tracks : list Z)
      (* `Trio ${index + 1}: must contain 3 distinct track numbers (got: ...)` *)
  | TrackInMultipleTrios (track : Z)
      (* `Track ${track} appears in multiple trios` *)
  | RangeStartOutOfRange (range : Z) (start trackCount : Z)
      (* `Range ${index + 1}: start ${range.start} is out of range [1..${trackCount}]` *)
  | RangeEndOutOfRange (range : Z) (end_ trackCount : Z)
      (* `Range ${index + 1}: end ${range.end} is out of range [1..${trackCount}]` *)
  | RangeStartAfterEnd (range : Z) (start end_ : Z)
      (* `Range ${index + 1}: start (${range.start}) must be <= end (${range.end})` *)
  | RangesOverlap (i j : Z) (rangeA rangeB : RangeRule)
      (* `Ranges ${i + 1} [a.start..a.end] and ${j + 1} [b.start..b.end] overlap` *)
  | TrackNotCovered (trackNum : Z)
      (* `Track ${trackNum} is not covered by any range and is not in a trio` *)
  | TrackMultiplyCovered (trackNum : Z).
      (* `Track ${trackNum} is covered by multiple ranges (only one allowed)` *)

Record ValidationResult : Type := mkResult {
  ok : bool;
  errors : list ValidationError
}.

Definition trioPositions (trio : TrioOverride) : list Z :=
  [original trio; sampleA trio; sampleB trio].

Section Validate.
Variable trackCount : Z.

(** [if (track < 1 || track > trackCount) errors.push(...)] *)
Definition trioBoundErrors (index : nat) (tracks : list Z) : list ValidationError :=
  flat_map (fun track =>
    if (track <? 1) || (track >? trackCount)
    then [TrioTrackOutOfRange (Z.of_nat index + 1) track trackCount]
    else []) tracks.

(** [if (new Set(tracks).size !== 3) errors.push(...)] *)
Definition trioDistinctErrors (index : nat) (tracks : list Z) : list ValidationError :=
  if decide (size (list_to_set tracks : gset Z) = 3%nat) then []
  else [TrioNotDistinct (Z.of_nat index + 1) tracks].

(** [tracks.forEach(track => { if (trioTracks.has(track)) errors.push(...);
    trioTracks.add(track); })], as the messages pushed and the final set. *)
Fixpoint trioOverlapErrors (tracks : list Z) (trioTracks : gset Z)
  : list ValidationError * gset Z :=
  match tracks with
  | [] => ([], trioTracks)
  | track :: rest =>
      let here := if decide (track ∈ trioTracks)
                  then [TrackInMultipleTrios track] else [] in
      let '(later, seen) := trioOverlapErrors rest ({[track]} ∪ trioTracks) in
      (here ++ later, seen)
  end.

(** The body of [plan.trios.forEach((trio, index) => ...)]. *)
Definition checkTrio (index : nat) (trio : TrioOverride) (trioTracks : gset Z)
  : list ValidationError * gset Z :=
  let tracks := trioPositions trio in
  let '(overlap, seen) := trioOverlapErrors tracks trioTracks in
  (trioBoundErrors index tracks ++ trioDistinctErrors index tracks ++ overlap, seen).

Fixpoint checkTrios (index : nat) (ts : list TrioOverride) (trioTracks : gset Z)
  : list ValidationError * gset Z :=
  match ts with
  | [] => ([], trioTracks)
  | trio :: rest =>
      let '(here, seen) := checkTrio index trio trioTracks in
      let '(later, seen') := checkTrios (S index) rest seen in
      (here ++ later, seen')
  end.

(** The body of the first [plan.ranges.forEach((range, index) => ...)]. *)
Definition checkRange (index : nat) (range : RangeRule) : list ValidationError :=
  (if (start range <? 1) || (start range >? trackCount)
   then [RangeStartOutOfRange (Z.of_nat index + 1) (start range) trackCount] else [])
  ++ (if (end_ range <? 1) || (end_ range >? trackCount)
      then [RangeEndOutOfRange (Z.of_nat index + 1) (end_ range) trackCount] else [])
  ++ (if start range >? end_ range
      then [RangeStartAfterEnd (Z.of_nat index + 1) (start range) (end_ range)] else []).

Fixpoint checkRanges (index : nat) (rs : list RangeRule) : list ValidationError :=
  match rs with
  | [] => []
  | range :: rest => checkRange index range ++ checkRanges (S index) rest
  end.

(** [overlap] and [touching] of the nested loop over [i < j]. *)
Definition overlap (rangeA rangeB : RangeRule) : bool :=
  (end_ rangeA >=? start rangeB) && (end_ rangeB >=? start rangeA).

Definition touching (rangeA rangeB : RangeRule) : bool :=
  (end_ rangeA + 1 =? start rangeB) || (end_ rangeB + 1 =? start rangeA).

(** The inner loop [for (j = i + 1; j < plan.ranges.length; j++)], over the
    ranges after position [i]. *)
Fixpoint overlapInner (i j : nat) (rangeA : RangeRule) (rs : list RangeRule)
  : list ValidationError :=
  match rs with
  | [] => []
  | rangeB :: rest =>
      (if overlap rangeA rangeB && negb (touching rangeA rangeB)
       then [RangesOverlap (Z.of_nat i + 1) (Z.of_nat j + 1) rangeA rangeB] else [])
      ++ overlapInner i (S j) rangeA rest
  end.

(** The outer loop [for (i = 0; i < plan.ranges.length; i++)]. *)
Fixpoint overlapOuter (i : nat) (rs : list RangeRule) : list ValidationError :=
  match rs with
  | [] => []
  | rangeA :: rest => overlapInner i (S i) rangeA rest ++ overlapOuter (S i) rest
  end.

(** [plan.ranges.filter(range => trackNum >= range.start && trackNum <= range.end)] *)
Definition covers (trackNum : Z) (range : RangeRule) : bool :=
  (trackNum >=? start range) && (trackNum <=? end_ range).

Definition coveringRanges (rs : list RangeRule) (trackNum : Z) : list RangeRule :=
  List.filter (covers trackNum) rs.

(** The body of [for (trackNum = 1; trackNum <= trackCount; trackNum++)]. *)
Definition checkCoverage (rs : list RangeRule) (trioTracks : gset Z) (trackNum : Z)
  : list ValidationError :=
  if decide (trackNum ∈ trioTracks) then []
  else match length (coveringRanges rs trackNum) with
       | O => [TrackNotCovered trackNum]
       | S O => []
       | _ => [TrackMultiplyCovered trackNum]
       end.

Definition validatePlan (plan : PairingPlan) : ValidationResult :=
  let noRange := match ranges plan with [] => [NoRangeRule] | _ => [] end in
  let '(trioErrors, trioTracks) := checkTrios 0 (trios plan) ∅ in
  let rangeErrors := checkRanges 0 (ranges plan) ++ overlapOuter 0 (ranges plan) in
  let coverage :=
    flat_map (checkCoverage (ranges plan) trioTracks) (seqZ 1 trackCount) in
  let errors := noRange ++ trioErrors ++ rangeErrors ++ coverage in
  {| ok := match errors with [] => true | _ => false end; errors := errors |}.
End Validate.

(** *** buildPairsFromPlan *)

(** The locals [pairs] and [usedPositions]. *)
Record BuildState : Type := mkState {
  pairs : list Pair;
  usedPositions : gset Z
}.

(** `Range ${rangeIndex + 1} [${range.start}..${range.end}]: unmatched tracks
    (${originals.length} originals, ${samples.length} samples)` *)
Inductive BuildError : Type :=
| UnmatchedTracks (range : Z) (start end_ : Z) (originals samples : nat).

(** What a call does: it returns the sorted pairs (and warns about the
    leftover positions on the console), or it throws, and then [pairs] and
    [usedPositions] stay as they were when the error was raised. *)
Inductive BuildOutcome : Type :=
| Returned (pairs : list Pair) (leftoverPositions : list Z)
| Threw (error : BuildError) (st : BuildState).

Section Build.
Variable tracks : list Track.

(** First [plan.trios.forEach]: two pairs per trio, the samples marked. *)
Definition addTrio (st : BuildState) (trio : TrioOverride) : BuildState :=
  {| pairs := pairs st ++ [positionPair tracks (original trio) (sampleA trio);
                           positionPair tracks (original trio) (sampleB trio)];
     usedPositions := {[sampleB trio]} ∪ ({[sampleA trio]} ∪ usedPositions st) |}.

(** Second [plan.trios.forEach]: the originals marked. *)
Definition markOriginal (st : BuildState) (trio : TrioOverride) : BuildState :=
  {| pairs := pairs st; usedPositions := {[original trio]} ∪ usedPositions st |}.

Definition processTrios (ts : list TrioOverride) (st : BuildState) : BuildState :=
  fold_left markOriginal ts (fold_left addTrio ts st).

(** [for (pos = range.start; pos <= range.end; pos++)
      if (!usedPositions.has(pos)) availablePositions.push(pos)] *)
Definition availablePositions (range : RangeRule) (used : gset Z) : list Z :=
  List.filter (fun pos => bool_decide (pos ∉ used))
              (seqZ (start range) (end_ range - start range + 1)).

(** [pos % 2 === 0]; [%] is the truncated remainder. *)
Definition isEven (pos : Z) : bool := Z.rem pos 2 =? 0.

(** The position goes to [originals] when its parity is the one the
    mapping names, to [samples] otherwise. *)
Definition isOriginal (m : MappingType) (pos : Z) : bool :=
  match m with
  | EVEN_ORIGINAL => isEven pos
  | ODD_ORIGINAL => negb (isEven pos)
  end.

Definition originalsOf (range : RangeRule) (available : list Z) : list Z :=
  List.filter (isOriginal (mapping range)) available.

Definition samplesOf (range : RangeRule) (available : list Z) : list Z :=
  List.filter (fun pos => negb (isOriginal (mapping range) pos)) available.

(** [for (i = 0; i < originals.length; i++)], run when both lists have the
    same length: one pair per index, both positions marked. *)
Fixpoint pairUp (originals samples : list Z) (st : BuildState) : BuildState :=
  match originals, samples with
  | originalPos :: os, sampledPos :: ss =>
      pairUp os ss
        {| pairs := pairs st ++ [positionPair tracks originalPos sampledPos];
           usedPositions := {[sampledPos]} ∪ ({[originalPos]} ∪ usedPositions st) |}
  | _, _ => st
  end.

(** The body of [plan.ranges.forEach((range, rangeIndex) => ...)]. *)
Definition processRange (rangeIndex : nat) (range : RangeRule) (st : BuildState)
  : BuildError + BuildState :=
  let available := availablePositions range (usedPositions st) in
  let originals := originalsOf range available in
  let samples := samplesOf range available in
  if decide (length originals = length samples)
  then inr (pairUp originals samples st)
  else inl (UnmatchedTracks (Z.of_nat rangeIndex + 1) (start range) (end_ range)
                            (length originals) (length samples)).

Fixpoint processRanges (rangeIndex : nat) (rs : list RangeRule) (st : BuildState)
  : BuildError * BuildState + BuildState :=
  match rs with
  | [] => inr st
  | range :: rest =>
      match processRange rangeIndex range st with
      | inl error => inl (error, st)
      | inr st' => processRanges (S rangeIndex) rest st'
      end
  end.

(** [for (pos = 1; pos <= tracks.length; pos++)
      if (!usedPositions.has(pos)) leftoverPositions.push(pos)] *)
Definition leftoverPositions (used : gset Z) : list Z :=
  List.filter (fun pos => bool_decide (pos ∉ used))
              (seqZ 1 (Z.of_nat (length tracks))).

(** [Math.min(pair.originalPos, pair.sampledPos)], the sort key. *)
Definition minPos (p : Pair) : Z := Z.min (originalPos p) (sampledPos p).

Definition buildPairsFromPlan (plan : PairingPlan) : BuildOutcome :=
  let afterTrios := processTrios (trios plan) {| pairs := []; usedPositions := ∅ |} in
  match processRanges 0 (ranges plan) afterTrios with
  | inl (error, st) => Threw error st
  | inr st => Returned (sortBy minPos (pairs st)) (leftoverPositions (usedPositions st))
  end.
End Build.

(** How often the pairs name a position, as [originalPos] or as
    [sampledPos]. *)
Definition occurrences (pos : Z) (ps : list Pair) : nat :=
  Nat.add (length (List.filter (fun p => originalPos p =? pos) ps))
          (length (List.filter (fun p => sampledPos p =? pos) ps)).

(** How often a position stands in a list of positions. *)
Definition countPos (pos : Z) (l : list Z) : nat :=
  length (List.filter (fun x => x =? pos) l).

(** The two pairs a trio yields. *)
Definition trioPairs (tracks : list Track) (trio : TrioOverride) : list Pair :=
  [positionPair tracks (original trio) (sampleA trio);
   positionPair tracks (original trio) (sampleB trio)].

(** A pair made by a range: both positions lie in the range, the original
    has the parity the mapping names and the sample has the other one. *)
Definition rangePair (range : RangeRule) (p : Pair) : Prop :=
  (start range <= originalPos p <= end_ range)
  /\ (start range <= sampledPos p <= end_ range)
  /\ isOriginal (mapping range) (originalPos p) = true
  /\ isOriginal (mapping range) (sampledPos p) = false.

(** A pair made by a trio. *)
Definition trioPair (trio : TrioOverride) (p : Pair) : Prop :=
  originalPos p = original trio
  /\ (sampledPos p = sampleA trio \/ sampledPos p = sampleB trio).

(** The positions of a pair list, as [(originalPos, sampledPos)]. *)
Definition positionsOf (ps : list Pair) : list (Z * Z) :=
  map (fun p => (originalPos p, sampledPos p)) ps.

(** The pairs a call pushed on [pairs]: the ones it returned, or the
    ones it had made when it threw. *)
Definition emitted (outcome : BuildOutcome) : list Pair :=
  match outcome with
  | Returned ps _ => ps
  | Threw _ st => pairs st
  end.

(** *** The examples at the end of the module *)

(** [{ title: `Track ${i}`, artist: `Artist ${i}` }] *)
Definition mockTrack (i : string) : Track :=
  mkTrack (Some (js ("Track " ++ i))) (Some (js ("Artist " ++ i))).

Definition mockTracks : list Track :=
  map mockTrack ["1"; "2"; "3"; "4"; "5"; "6"; "7"; "8"; "9"; "10"]%string.

(** Tests 1 and 8. *)
Definition plan8 : PairingPlan :=
  {| trios := [mkTrio 5 6 7];
     ranges := [mkRange 1 4 EVEN_ORIGINAL; mkRange 8 10 ODD_ORIGINAL] |}.

(** Test 3. *)
Definition plan3 : PairingPlan :=
  {| trios := [];
     ranges := [mkRange 1 5 EVEN_ORIGINAL; mkRange 5 10 ODD_ORIGINAL] |}.

(** Test 5. *)
Definition plan5 : PairingPlan :=
  {| trios := [];
     ranges := [mkRange 1 5 EVEN_ORIGINAL; mkRange 6 10 ODD_ORIGINAL] |}.

(** A raw plan as a client may post it: numerals as strings with blanks, a
    trio with a field that is no number, a range with its bounds reversed
    and a range with an unknown mapping. *)
Definition rawPlan8 : Raw.Plan :=
  {| Raw.trios := Some [Raw.mkTrio (js "5") (js " 6") (js "7");
                        Raw.mkTrio (js "x") (js "1") (js "2")];
     Raw.ranges := Some [Raw.mkRange (js "10") (js "8") (js "ODD_ORIGINAL");
                         Raw.mkRange (js "1") (js "4") (js " EVEN_ORIGINAL ");
                         Raw.mkRange (js "1") (js "4") (js "BOTH")] |}.

(** A plan over nine tracks that validates and builds: the trio of test 8
    with the second range ending at 9. *)
Definition plan9 : PairingPlan :=
  {| trios := [mkTrio 5 6 7];
     ranges := [mkRange 1 4 EVEN_ORIGINAL; mkRange 8 9 ODD_ORIGINAL] |}.

(** *** Plans written back as plan objects *)

(** The name of a mapping, the string the plan object holds. *)
Definition mappingName (mapping : MappingType) : jsstring :=
  match mapping with
  | EVEN_ORIGINAL => js "EVEN_ORIGINAL"
  | ODD_ORIGINAL => js "ODD_ORIGINAL"
  end.

(** A plan object whose fields are numbers and mapping names, as
    [normalizePlan] reads it: each field through [String]. *)
Definition rawTrio (trio : TrioOverride) : Raw.Trio :=
  Raw.mkTrio (numberToString (original trio)) (numberToString (sampleA trio))
             (numberToString (sampleB trio)).

Definition rawRange (range : RangeRule) : Raw.Range :=
  Raw.mkRange (numberToString (start range)) (numberToString (end_ range))
              (mappingName (mapping range)).

Definition rawPlan (plan : PairingPlan) : Raw.Plan :=
  {| Raw.trios := Some (map rawTrio (trios plan));
     Raw.ranges := Some (map rawRange (ranges plan)) |}.

(** The errors about a bound: a position outside [1..trackCount] or a range
    whose start lies after its end. *)
Definition isBoundError (error : ValidationError) : bool :=
  match error with
  | TrioTrackOutOfRange _ _ _ | RangeStartOutOfRange _ _ _
  | RangeEndOutOfRange _ _ _ | RangeStartAfterEnd _ _ _ => true
  | _ => false
  end.

(** The plan with no trio and one range over all the tracks, the odd
    positions being the originals. *)
Definition sequentialPlan (trackCount : Z) : PairingPlan :=
  {| trios := []; ranges := [mkRange 1 trackCount ODD_ORIGINAL] |}.

End PairingPlan.

(** ** server.js: the pairing and merge blocks of [POST /api/create-list] *)
Module Server.

(** [res.status(400).json({ error: 'odd', totalTracks })] *)
Inductive Response : Type :=
| OddTrackCount (totalTracks : Z).

(** [{ originalTrack: tracks[i], sampledTrack: tracks[i + 1],
       originalPos: i + 1, sampledPos: i + 2 }] *)
Definition defaultPair (tracks : list Track) (i : nat) : Pair :=
  {| original := None; sampled := None;
     originalTrack := tracks !! i;
     sampledTrack := tracks !! (i + 1)%nat;
     originalPos := Z.of_nat i + 1;
     sampledPos := Z.of_nat i + 2 |}.

(** [for (let i = 0; i < tracks.length; i += 2) scrapedPairs.push({...})];
    [fuel] bounds the number of rounds, and [length tracks] rounds are
    enough since [i] grows in each. *)
Fixpoint defaultLoop (fuel : nat) (tracks : list Track) (i : nat)
         (scrapedPairs : list Pair) : list Pair :=
  match fuel with
  | O => scrapedPairs
  | S fuel' =>
      if (i <? length tracks)%nat
      then defaultLoop fuel' tracks (i + 2) (scrapedPairs ++ [defaultPair tracks i])
      else scrapedPairs
  end.

(** The block [if (!useAdvancedPairing) { ... }], which runs when the
    request carries no [advancedPairingPlan]. *)
Definition defaultPairing (tracks : list Track) (totalTracks : Z)
  : Response + list Pair :=
  if negb (Z.rem (Z.of_nat (length tracks)) 2 =? 0)
  then inl (OddTrackCount totalTracks)
  else inr (defaultLoop (length tracks) tracks 0 []).

(** A [Map] from keys to pairs, in insertion order. *)
Definition PairMap : Type := list (jsstring * option Pair).

Definition mapHas (m : PairMap) (key : jsstring) : bool :=
  existsb (fun entry => bool_decide (entry.1 = key)) m.

(** [Map.prototype.set]: the value of a key that is present is replaced
    where it stands, a new key goes to the end. *)
Fixpoint mapSet (m : PairMap) (key : jsstring) (value : option Pair) : PairMap :=
  match m with
  | [] => [(key, value)]
  | entry :: m' =>
      if bool_decide (entry.1 = key) then (key, value) :: m'
      else entry :: mapSet m' key value
  end.

(** [Array.from(m.values())] *)
Definition mapValues (m : PairMap) : list (option Pair) := map snd m.

Section Merge.
Variable toLowerCase : jsstring -> jsstring.

(** The body of [allPairs.forEach(pair => ...)]; a key is truthy when it is
    not the empty string. *)
Definition dedupeStep (dedupedMap : PairMap) (pair : option Pair) : PairMap :=
  let key := Dedupe.getPairKey toLowerCase pair in
  if negb (bool_decide (key = [])) && negb (mapHas dedupedMap key)
  then mapSet dedupedMap key pair
  else dedupedMap.

(** [dedupedPairs] from [storedPairs] and [scrapedPairs]; an entry of a
    list is [None] when the array holds [null] there. *)
Definition merge (storedPairs scrapedPairs : list (option Pair)) : list (option Pair) :=
  let allPairs := storedPairs ++ scrapedPairs in
  mapValues (fold_left dedupeStep allPairs []).

(** The merge in the words of the specification: over the concatenation,
    keep the first pair of each key and drop the pairs whose key is
    empty.  [seen] holds the keys met so far. *)
Fixpoint keepFirst (seen : list jsstring) (allPairs : list (option Pair))
  : list (option Pair) :=
  match allPairs with
  | [] => []
  | p :: rest =>
      let key := Dedupe.getPairKey toLowerCase p in
      if bool_decide (key = []) || bool_decide (key ∈ seen)
      then keepFirst seen rest
      else p :: keepFirst (key :: seen) rest
  end.

(** The first pair of a list that has the key. *)
Definition firstWithKey (key : jsstring) (l : list (option Pair)) : option (option Pair) :=
  List.find (fun pair => bool_decide (Dedupe.getPairKey toLowerCase pair = key)) l.
End Merge.

(** A pair object with no track at all, [{ originalPos: 1, sampledPos: 2 }]. *)
Definition tracklessPair : Pair :=
  {| original := None; sampled := None; originalTrack := None;
     sampledTrack := None; originalPos := 1; sampledPos := 2 |}.

(** The first pair of the default pairing of the mock tracks. *)
Definition mockPair : Pair := positionPair PairingPlan.mockTracks 1 2.

End Server.

(** ** server.js: duplicate detection *)
Module Duplicates.
Import Server.

(** [`${v}`] for a property that holds a string or is missing. *)
Definition templateOf (v : option jsstring) : jsstring := default (js "undefined") v.

(** [`${track.title}|${track.artist}`], the key of [detectDuplicates]. *)
Definition trackKey (track : Track) : jsstring :=
  templateOf (title track) ++ js "|" ++ templateOf (artist track).

(** [{ track, positions: [seen.get(key), index + 1] }] *)
Record Duplicate : Type := mkDuplicate {
  track : Track;
  positions : list Z
}.

(** The body of [tracks.forEach((track, index) => ...)] of
    [detectDuplicates], over the tracks from [index] on; [seen] is the
    [Map] from keys to first positions. *)
Fixpoint detectFrom (index : nat) (tracks : list Track) (seen : gmap jsstring Z)
  : list Duplicate :=
  match tracks with
  | [] => []
  | track :: rest =>
      let key := trackKey track in
      match seen !! key with
      | Some first =>
          mkDuplicate track [first; Z.of_nat index + 1] :: detectFrom (S index) rest seen
      | None => detectFrom (S index) rest (<[key := Z.of_nat index + 1]> seen)
      end
  end.

Definition detectDuplicates (tracks : list Track) : list Duplicate :=
  detectFrom 0 tracks ∅.

(** The [reason] of an entry of [duplicatesFound]. *)
Inductive DuplicateReason : Type := duplicate_in_scrape | already_stored.

(** An entry of [duplicatesFound]. *)
Record DuplicateFound : Type := mkFound {
  originalTitle : jsstring;
  originalArtist : jsstring;
  sampledTitle : jsstring;
  sampledArtist : jsstring;
  reason : DuplicateReason
}.

(** [track?.title || ''] and [track?.artist || ''] *)
Definition titleOr (track : option Track) : jsstring :=
  match track with Some track => default [] (title track) | None => [] end.
Definition artistOr (track : option Track) : jsstring :=
  match track with Some track => default [] (artist track) | None => [] end.

Definition foundEntry (pair : Pair) (reason : DuplicateReason) : DuplicateFound :=
  {| originalTitle := titleOr (originalTrack pair);
     originalArtist := artistOr (originalTrack pair);
     sampledTitle := titleOr (sampledTrack pair);
     sampledArtist := artistOr (sampledTrack pair);
     reason := reason |}.

Section Detect.
Variable toLowerCase : jsstring -> jsstring.

(** [existingKeys]: the truthy keys of the stored pairs. *)
Definition existingKeysOf (storedPairs : list (option Pair)) : gset jsstring :=
  fold_left (fun existingKeys pair =>
               let key := Dedupe.getPairKey toLowerCase pair in
               if bool_decide (key = []) then existingKeys else {[key]} ∪ existingKeys)
            storedPairs ∅.

(** The body of [scrapedPairs.forEach((pair, index) => ...)] on
    [duplicatesFound] and [seenInScrape]. *)
Definition detectStep (existingKeys : gset jsstring)
           (st : list DuplicateFound * gset jsstring) (pair : option Pair)
  : list DuplicateFound * gset jsstring :=
  let '(duplicatesFound, seenInScrape) := st in
  let pairKey := Dedupe.getPairKey toLowerCase pair in
  match pair with
  | None => st                                 (* the key of no pair is '' *)
  | Some p =>
      if bool_decide (pairKey = []) then st    (* if (!pairKey) return *)
      else
        let duplicatesFound' :=
          if decide (pairKey ∈ seenInScrape)
          then duplicatesFound ++ [foundEntry p duplicate_in_scrape]
          else if decide (pairKey ∈ existingKeys)
               then duplicatesFound ++ [foundEntry p already_stored]
               else duplicatesFound in
        (duplicatesFound', {[pairKey]} ∪ seenInScrape)
  end.

(** [duplicatesFound] after the loop. *)
Definition duplicatesFound (storedPairs scrapedPairs : list (option Pair))
  : list DuplicateFound :=
  (fold_left (detectStep (existingKeysOf storedPairs)) scrapedPairs ([], ∅)).1.
End Detect.

(** [duplicatesFound.filter(d => d.reason === r).length] *)
Definition countReason (r : DuplicateReason) (found : list DuplicateFound) : nat :=
  length (List.filter (fun d => match reason d, r with
                                | already_stored, already_stored
                                | duplicate_in_scrape, duplicate_in_scrape => true
                                | _, _ => false
                                end) found).
(** The first mock pair as a stored record has it: the tracks under
    [original] and [sampled], the title with an annotation and the artist in
    capitals with a double space. *)
Definition storedMockPair : Pair :=
  {| original := Some (mkTrack (Some (js "Track 1 - Remastered")) (Some (js "ARTIST  1")));
     sampled := Some (PairingPlan.mockTrack "2");
     originalTrack := None; sampledTrack := None;
     originalPos := 1; sampledPos := 2 |}.
End Duplicates.

(** ** server.js: the text of the pairs, written and read back *)
Module PairsText.
Import Server Duplicates.

(** The separator between a title and an artist: the literal of the
    templates and of the patterns, three code units as the file has it
    (U+201A, U+00C4, U+00EE). *)
Definition separator : jsstring := [8218; 196; 238]%N.

(** [`${label}${track.title} ‚Äî ${track.artist}`]; reading a property of a
    track that is missing throws, which is [None]. *)
Definition trackLine (label : jsstring) (track : option Track) : option jsstring :=
  match track with
  | None => None
  | Some track =>
      Some (label ++ templateOf (title track) ++ [32%N] ++ separator ++ [32%N]
            ++ templateOf (artist track))
  end.

(** The three lines and the blank line that one pair adds to the text. *)
Definition pairBlock (pairNumber : Z) (original sampled : option Track) : option jsstring :=
  match trackLine (js "Original: ") original, trackLine (js "Sampled: ") sampled with
  | Some originalLine, Some sampledLine =>
      Some (js "Pair " ++ numberToString pairNumber ++ [10%N]
            ++ originalLine ++ [10%N] ++ sampledLine ++ [10%N; 10%N])
  | _, _ => None
  end.

(** [pairs.forEach((pair, index) => { text += ... })] from [index] on. *)
Fixpoint generateFrom (index : nat) (pairs : list Pair) (text : jsstring)
  : option jsstring :=
  match pairs with
  | [] => Some text
  | p :: rest =>
      match pairBlock (Z.of_nat index) (originalTrack p) (sampledTrack p) with
      | Some block => generateFrom (S index) rest (text ++ block)
      | None => None
      end
  end.

Definition generatePlaylistPairsTextFromPairs (pairs : list Pair) : option jsstring :=
  generateFrom 0 pairs [].

(** [for (let i = 0; i < tracks.length; i += 2) { ... }] of
    [generatePlaylistPairsText]; [fuel] bounds the number of rounds, and
    [length tracks] rounds are enough.  [i / 2] is an integer since [i] is
    even. *)
Fixpoint textLoop (fuel : nat) (tracks : list Track) (i : nat) (text : jsstring)
  : option jsstring :=
  match fuel with
  | O => Some text
  | S fuel' =>
      if (i <? length tracks)%nat
      then match pairBlock (Z.of_nat i / 2) (tracks !! i) (tracks !! (i + 1)%nat) with
           | Some block => textLoop fuel' tracks (i + 2) (text ++ block)
           | None => None
           end
      else Some text
  end.

Definition generatePlaylistPairsText (tracks : list Track) : option jsstring :=
  textLoop (length tracks) tracks 0 [].

(** *** Regular expressions *)

(** A line terminator, which [.] does not match. *)
Definition isLineTerminator (c : N) : bool :=
  ((c =? 10) || (c =? 13) || (c =? 8232) || (c =? 8233))%N.

Definition notLineTerminator (c : N) : bool := negb (isLineTerminator c).

(** The canonical form of a unit under the [i] flag (without [u]): its
    upper case when that is one unit, and not a Basic Latin unit for a unit
    beyond Basic Latin.  Written out for Basic Latin and for the Latin-1
    letters whose upper case is in Latin-1; the other units ([µ] and [ÿ],
    whose upper case lies beyond Latin-1, and the units beyond Latin-1) are
    left as they are.  The units of the patterns below are Basic Latin,
    U+201A, U+00C4 and U+00EE: a unit left as it is has the canonical form
    of none of them, so that the comparison with a unit of a pattern is
    exact. *)
Definition canonicalize (c : N) : N :=
  if isLower c then (c - 32)%N
  else if ((224 <=? c) && (c <=? 254) && negb (c =? 247))%N then (c - 32)%N
  else c.

(** The literal text of a pattern at the head of [s] under the [i] flag;
    the rest of [s]. *)
Fixpoint matchIgnoreCase (pattern s : jsstring) : option jsstring :=
  match pattern, s with
  | [], _ => Some s
  | p :: pattern', c :: s' =>
      if (canonicalize c =? canonicalize p)%N then matchIgnoreCase pattern' s' else None
  | _ :: _, [] => None
  end.

(** The first result in a list of tries. *)
Fixpoint firstSome {A B : Type} (try : A -> option B) (l : list A) : option B :=
  match l with
  | [] => None
  | x :: l' => match try x with Some y => Some y | None => firstSome try l' end
  end.

(** The numbers of units that a greedy [class*] tries at the head of [s],
    the longest first, and that a lazy [class+?] tries, the shortest
    first. *)
Definition greedyCounts (class : N -> bool) (s : jsstring) : list nat :=
  rev (seq 0 (S (length (Dedupe.takeWhile class s)))).

Definition lazyCounts (class : N -> bool) (s : jsstring) : list nat :=
  seq 1 (length (Dedupe.takeWhile class s)).

(** [(.+)$] *)
Definition matchRest (r : jsstring) : option jsstring :=
  match r with
  | [] => None
  | _ :: _ => if forallb notLineTerminator r then Some r else None
  end.

(** [\s*(.+)$] *)
Definition matchArtist (r : jsstring) : option jsstring :=
  firstSome (fun k => matchRest (drop k r)) (greedyCounts isWhiteSpace r).

(** [\s*‚Äî\s*(.+)$] *)
Definition matchSeparator (r : jsstring) : option jsstring :=
  firstSome (fun k => match matchIgnoreCase separator (drop k r) with
                      | Some r' => matchArtist r'
                      | None => None
                      end)
            (greedyCounts isWhiteSpace r).

(** [(.+?)\s*‚Äî\s*(.+)$]: the two groups. *)
Definition matchTitle (r : jsstring) : option (jsstring * jsstring) :=
  firstSome (fun n => match matchSeparator (drop n r) with
                      | Some artist => Some (take n r, artist)
                      | None => None
                      end)
            (lazyCounts notLineTerminator r).

(** [line.match(/^Original:\s*(.+?)\s*‚Äî\s*(.+)$/i)] for the label
    [Original:], and the same for [Sampled:]. *)
Definition matchTrackLine (label line : jsstring) : option (jsstring * jsstring) :=
  match matchIgnoreCase label line with
  | Some r => firstSome (fun k => matchTitle (drop k r)) (greedyCounts isWhiteSpace r)
  | None => None
  end.

(** [line.match(/^Pair\s+(\d+)/i)]: the digits. *)
Definition matchPairLine (line : jsstring) : option jsstring :=
  match matchIgnoreCase (js "Pair") line with
  | Some r =>
      let digits := Dedupe.takeWhile isDigit (dropWhile isWhiteSpace r) in
      match Dedupe.takeWhile isWhiteSpace r, digits with
      | _ :: _, _ :: _ => Some digits
      | _, _ => None
      end
  | None => None
  end.

(** [s.split('\n')] *)
Fixpoint split (s : jsstring) : list jsstring :=
  match s with
  | [] => [[]]
  | c :: s' =>
      if (c =? 10)%N then [] :: split s'
      else match split s' with
           | line :: lines => (c :: line) :: lines
           | [] => [[c]]
           end
  end.

(** *** parsePairsFromText *)

(** [{ pairNumber, original, sampled }]; [pairNumber] is [None] for
    [null]. *)
Record ParsedPair : Type := mkParsed {
  pairNumber : option Z;
  original : option Track;
  sampled : option Track
}.

(** The locals [pairs], [currentPair] and [pairNumber]. *)
Record ParseState : Type := mkParse {
  pairs : list ParsedPair;
  currentPair : option (option Track * option Track);
  currentNumber : option Z
}.

(** [if (currentPair !== null) pairs.push({ pairNumber, ...currentPair })] *)
Definition pushCurrent (st : ParseState) : list ParsedPair :=
  match currentPair st with
  | Some (original, sampled) => pairs st ++ [mkParsed (currentNumber st) original sampled]
  | None => pairs st
  end.

(** [{ title: match[1].trim(), artist: match[2].trim() }] *)
Definition parsedTrack (groups : jsstring * jsstring) : Track :=
  mkTrack (Some (trim groups.1)) (Some (trim groups.2)).

(** The body of the loop over the lines.  [parseInt(pairMatch[1])] is the
    integer that the digits write; the language has the double nearest to
    it, the same number below [2^53]. *)
Definition parseLine (st : ParseState) (line : jsstring) : ParseState :=
  match line with
  | [] => st                                   (* if (!line) continue *)
  | _ :: _ =>
      match matchPairLine line with
      | Some digits =>
          {| pairs := pushCurrent st;
             currentPair := Some (None, None);
             currentNumber := parseInt digits |}
      | None =>
          match matchTrackLine (js "Original:") line, currentPair st with
          | Some groups, Some (_, sampled) =>
              {| pairs := pairs st;
                 currentPair := Some (Some (parsedTrack groups), sampled);
                 currentNumber := currentNumber st |}
          | _, _ =>
              match matchTrackLine (js "Sampled:") line, currentPair st with
              | Some groups, Some (original, _) =>
                  {| pairs := pairs st;
                     currentPair := Some (original, Some (parsedTrack groups));
                     currentNumber := currentNumber st |}
              | _, _ => st
              end
          end
      end
  end.

Definition parsePairsFromText (confirmedText : jsstring) : list ParsedPair :=
  pushCurrent (fold_left parseLine (map trim (split confirmedText))
                         {| pairs := []; currentPair := None; currentNumber := None |}).

(** *** validatePairs *)

(** [`Pair ${pair.pairNumber} is missing the Original track`] and the same
    for the sampled track. *)
Inductive PairsError : Type :=
| MissingOriginal (pairNumber : option Z)
| MissingSampled (pairNumber : option Z).

(** [{ valid: true }] is [None], [{ valid: false, error }] is the error. *)
Fixpoint validatePairs (pairs : list ParsedPair) : option PairsError :=
  match pairs with
  | [] => None
  | p :: rest =>
      match original p, sampled p with
      | None, _ => Some (MissingOriginal (pairNumber p))
      | Some _, None => Some (MissingSampled (pairNumber p))
      | Some _, Some _ => validatePairs rest
      end
  end.

(** A title or an artist that the text can carry: not empty, no white
    space at either end, no line terminator. *)
Definition plainText (s : jsstring) : bool :=
  match s with [] => false | _ :: _ => true end
  && bool_decide (trim s = s) && forallb notLineTerminator s.

(** The separator stands somewhere in the string, in either letter case. *)
Definition containsSeparator (s : jsstring) : bool :=
  existsb (fun k => match matchIgnoreCase separator (drop k s) with
                    | Some _ => true
                    | None => false
                    end)
          (seq 0 (length s)).

(** A track that the text can carry: a plain title without the separator
    and a plain artist. *)
Definition plainTrack (track : option Track) : bool :=
  match track with
  | Some {| title := Some title; artist := Some artist |} =>
      plainText title && negb (containsSeparator title) && plainText artist
  | _ => false
  end.

(** What [parsePairsFromText] makes of the pair number [index]. *)
Definition parsedOf (index : nat) (pair : Pair) : ParsedPair :=
  mkParsed (Some (Z.of_nat index)) (originalTrack pair) (sampledTrack pair).
End PairsText.

(** ** server.js: the playlist identifier *)
Module Playlist.
(** [[a-zA-Z0-9]] *)
Definition isAlnum (c : N) : bool := isLower c || isUpper c || isDigit c.

(** The literal text of a pattern at the head of [s]; the rest of [s]. *)
Fixpoint matchExact (pattern s : jsstring) : option jsstring :=
  match pattern, s with
  | [], _ => Some s
  | p :: pattern', c :: s' => if (c =? p)%N then matchExact pattern' s' else None
  | _ :: _, [] => None
  end.

(** The pattern [playlist[\/:]([a-zA-Z0-9]+)] at the head of [s]: the group. *)
Definition matchPlaylist (s : jsstring) : option jsstring :=
  match matchExact (js "playlist") s with
  | Some (c :: r) =>
      if ((c =? 47) || (c =? 58))%N
      then match Dedupe.takeWhile isAlnum r with
           | [] => None
           | id => Some id
           end
      else None
  | _ => None
  end.

(** [input.match(/playlist[\/:]([a-zA-Z0-9]+)/)], then
    [urlMatch ? urlMatch[1] : null]: the group of the leftmost match. *)
Fixpoint parsePlaylistId (input : jsstring) : option jsstring :=
  match matchPlaylist input with
  | Some id => Some id
  | None =>
      match input with
      | [] => None
      | _ :: rest => parsePlaylistId rest
      end
  end.
End Playlist.

(** * Properties *)

(** ** The stable sort *)
Section SortByFacts.
Context {A : Type} (key : A -> Z).

Lemma insertBy_Permutation (x : A) (l : list A) :
  Permutation (insertBy key x l) (x :: l).
Proof.
  induction l as [|y l IH]; simpl; [reflexivity|].
  destruct (key x <=? key y); [reflexivity|].
  rewrite IH. apply perm_swap.
Qed.

Lemma sortBy_Permutation (l : list A) : Permutation (sortBy key l) l.
Proof.
  induction l as [|x l IH]; simpl; [reflexivity|].
  rewrite insertBy_Permutation. by constructor.
Qed.

Lemma insertBy_Sorted (x : A) (l : list A) :
  Sorted (keyLe key) l -> Sorted (keyLe key) (insertBy key x l).
Proof.
  induction 1 as [|y l Hs IH Hhd]; simpl; [repeat constructor|].
  destruct (Z.leb_spec (key x) (key y)) as [Hle|Hgt].
  - repeat constructor; assumption.
  - constructor; [assumption|].
    destruct l as [|z l]; simpl in *.
    + constructor. unfold keyLe. lia.
    + inversion Hhd; subst.
      destruct (key x <=? key z); constructor; unfold keyLe in *; lia.
Qed.

Lemma sortBy_Sorted (l : list A) : Sorted (keyLe key) (sortBy key l).
Proof.
  induction l as [|x l IH]; simpl; [constructor|].
  by apply insertBy_Sorted.
Qed.

(** Stability: the elements that share a key keep their order. *)
Lemma insertBy_filter (k : Z) (x : A) (l : list A) :
  Sorted (keyLe key) l ->
  List.filter (fun y => key y =? k) (insertBy key x l)
  = List.filter (fun y => key y =? k) (x :: l).
Proof.
  induction 1 as [|y l Hs IH Hhd]; [reflexivity|].
  cbn [insertBy].
  destruct (Z.leb_spec (key x) (key y)) as [Hle|Hgt]; [reflexivity|].
  cbn [List.filter] in *. rewrite IH.
  destruct (Z.eqb_spec (key x) k), (Z.eqb_spec (key y) k); try reflexivity.
  (* key x = k = key y contradicts key y < key x *)
  lia.
Qed.

Lemma sortBy_stable (k : Z) (l : list A) :
  List.filter (fun y => key y =? k) (sortBy key l)
  = List.filter (fun y => key y =? k) l.
Proof.
  induction l as [|x l IH]; [reflexivity|].
  cbn [sortBy foldr]. rewrite insertBy_filter by apply sortBy_Sorted.
  cbn [List.filter]. fold (sortBy key l). by rewrite IH.
Qed.
End SortByFacts.

(** ** What a plan without validation errors satisfies *)
Section ValidateFacts.
Import PairingPlan.
Variable trackCount : Z.

Lemma trioOverlapErrors_nil (tracks : list Z) (seen0 : gset Z) :
  (trioOverlapErrors tracks seen0).1 = [] ->
  NoDup tracks /\ (forall x, x ∈ tracks -> x ∉ seen0)
  /\ (trioOverlapErrors tracks seen0).2 = list_to_set tracks ∪ seen0.
Proof.
  revert seen0. induction tracks as [|t rest IH]; intros seen0; simpl.
  - intros _. split; [constructor|]. split; [set_solver|set_solver].
  - destruct (trioOverlapErrors rest ({[t]} ∪ seen0)) as [later seen] eqn:E.
    simpl. intros H. apply app_eq_nil in H as [Hh Hl].
    destruct (decide (t ∈ seen0)) as [|Hnot]; [discriminate|].
    specialize (IH ({[t]} ∪ seen0)). rewrite E in IH. simpl in IH.
    destruct (IH Hl) as (Hnd & Hfresh & Hset).
    split; [|split].
    + constructor; [|assumption]. intros Hin. apply (Hfresh _ Hin). set_solver.
    + intros x Hx. apply elem_of_cons in Hx as [->|Hx]; [assumption|].
      specialize (Hfresh _ Hx). set_solver.
    + rewrite Hset. set_solver.
Qed.

Lemma trioBoundErrors_nil (index : nat) (tracks : list Z) :
  trioBoundErrors trackCount index tracks = [] ->
  forall x, x ∈ tracks -> 1 <= x <= trackCount.
Proof.
  induction tracks as [|t rest IH]; simpl; intros H x Hx.
  - by apply elem_of_nil in Hx.
  - apply app_eq_nil in H as [Hh Hl].
    apply elem_of_cons in Hx as [->|Hx]; [|by apply IH].
    destruct (Z.ltb_spec t 1), (Z.gtb_spec t trackCount); simpl in Hh;
      try discriminate; lia.
Qed.

Lemma checkTrios_nil (index : nat) (ts : list TrioOverride) (seen0 : gset Z) :
  (checkTrios trackCount index ts seen0).1 = [] ->
  NoDup (concat (map trioPositions ts))
  /\ (forall x, x ∈ concat (map trioPositions ts) ->
        x ∉ seen0 /\ 1 <= x <= trackCount)
  /\ (checkTrios trackCount index ts seen0).2
     = list_to_set (concat (map trioPositions ts)) ∪ seen0.
Proof.
  revert index seen0. induction ts as [|trio rest IH]; intros index seen0.
  - simpl. intros _. split; [constructor|]. split; [|set_solver].
    intros x Hx. by apply elem_of_nil in Hx.
  - cbn [checkTrios]. unfold checkTrio.
    destruct (trioOverlapErrors (trioPositions trio) seen0) as [ov seen] eqn:Eov.
    destruct (checkTrios trackCount (S index) rest seen) as [later seen'] eqn:Erest.
    cbn [fst snd]. intros H.
    apply app_eq_nil in H as [Hhere Hlater].
    apply app_eq_nil in Hhere as [Hb Hhere].
    apply app_eq_nil in Hhere as [_ Hov].
    pose proof (trioOverlapErrors_nil (trioPositions trio) seen0) as Ht.
    rewrite Eov in Ht. cbn [fst snd] in Ht. destruct (Ht Hov) as (Hnd & Hfresh & Hseen).
    specialize (IH (S index) seen). rewrite Erest in IH. cbn [fst snd] in IH.
    destruct (IH Hlater) as (Hnd' & Hfresh' & Hseen').
    pose proof (trioBoundErrors_nil _ _ Hb) as Hbound.
    cbn [map concat]. split; [|split].
    + apply NoDup_app. split; [assumption|]. split; [|assumption].
      intros x Hx Hx'. apply Hfresh' in Hx' as [Hx' _]. subst seen. set_solver.
    + intros x Hx. apply elem_of_app in Hx as [Hx|Hx].
      * split; [by apply Hfresh|by apply Hbound].
      * apply Hfresh' in Hx as [Hx ?]. split; [|assumption]. subst seen. set_solver.
    + rewrite Hseen'. subst seen. rewrite list_to_set_app_L. set_solver.
Qed.

Lemma checkRanges_nil (index : nat) (rs : list RangeRule) :
  checkRanges trackCount index rs = [] ->
  forall r, r ∈ rs -> 1 <= start r <= end_ r /\ end_ r <= trackCount.
Proof.
  revert index. induction rs as [|range rest IH]; intros index H r Hr.
  - by apply elem_of_nil in Hr.
  - cbn [checkRanges] in H. apply app_eq_nil in H as [Hh Hl].
    apply elem_of_cons in Hr as [->|Hr]; [|by eapply IH].
    unfold checkRange in Hh.
    apply app_eq_nil in Hh as [H1 Hh]. apply app_eq_nil in Hh as [H2 H3].
    destruct (Z.ltb_spec (start range) 1), (Z.gtb_spec (start range) trackCount);
      simpl in H1; try discriminate.
    destruct (Z.ltb_spec (end_ range) 1), (Z.gtb_spec (end_ range) trackCount);
      simpl in H2; try discriminate.
    destruct (Z.gtb_spec (start range) (end_ range)); try discriminate. lia.
Qed.

Lemma flat_map_nil {A B : Type} (f : A -> list B) (l : list A) :
  flat_map f l = [] -> forall x, x ∈ l -> f x = [].
Proof.
  induction l as [|a l IH]; simpl; intros H x Hx.
  - by apply elem_of_nil in Hx.
  - apply app_eq_nil in H as [Ha Hl].
    apply elem_of_cons in Hx as [->|Hx]; [assumption|by apply IH].
Qed.

Lemma checkCoverage_nil (rs : list RangeRule) (trioTracks : gset Z) (trackNum : Z) :
  checkCoverage rs trioTracks trackNum = [] ->
  trackNum ∈ trioTracks \/ length (coveringRanges rs trackNum) = 1%nat.
Proof.
  unfold checkCoverage. destruct (decide (trackNum ∈ trioTracks)); [by left|].
  destruct (length (coveringRanges rs trackNum)) as [|[|more]]; try discriminate.
  by right.
Qed.

(** A plan that [validatePlan] accepts: it has a range, the trio positions
    are in bounds and all different, the range bounds are in bounds and
    ordered, no overlap is reported, and every position outside the trios
    lies in exactly one range. *)
Lemma validatePlan_ok (plan : PairingPlan) :
  ok (validatePlan trackCount plan) = true ->
  ranges plan <> []
  /\ NoDup (concat (map trioPositions (trios plan)))
  /\ (forall x, x ∈ concat (map trioPositions (trios plan)) -> 1 <= x <= trackCount)
  /\ (forall r, r ∈ ranges plan -> 1 <= start r <= end_ r /\ end_ r <= trackCount)
  /\ overlapOuter 0 (ranges plan) = []
  /\ (forall pos, 1 <= pos <= trackCount ->
        pos ∈ concat (map trioPositions (trios plan))
        \/ length (coveringRanges (ranges plan) pos) = 1%nat).
Proof.
  unfold validatePlan.
  destruct (checkTrios trackCount 0 (trios plan) ∅) as [trioErrors trioTracks] eqn:E.
  cbn [ok].
  destruct (_ ++ _) eqn:Herr; [|discriminate]. intros _.
  apply app_eq_nil in Herr as [Hno Herr].
  apply app_eq_nil in Herr as [Htrio Herr].
  apply app_eq_nil in Herr as [Hrange Hcov].
  apply app_eq_nil in Hrange as [Hbounds Hoverlap].
  pose proof (checkTrios_nil 0 (trios plan) ∅) as Ht. rewrite E in Ht.
  cbn [fst snd] in Ht. destruct (Ht Htrio) as (Hnd & Hfresh & Hset).
  split; [by destruct (ranges plan)|].
  split; [assumption|].
  split; [intros x Hx; by apply Hfresh|].
  split; [by eapply checkRanges_nil|].
  split; [assumption|].
  intros pos Hpos.
  assert (Hin : pos ∈ seqZ 1 trackCount) by (apply elem_of_seqZ; lia).
  pose proof (flat_map_nil _ _ Hcov _ Hin) as Hc.
  apply checkCoverage_nil in Hc as [Hc|Hc]; [left|by right].
  subst trioTracks. set_solver.
Qed.
End ValidateFacts.

(** ** Counting positions *)
Section Counting.

Lemma occurrences_app (pos : Z) (ps qs : list Pair) :
  PairingPlan.occurrences pos (ps ++ qs)
  = (PairingPlan.occurrences pos ps + PairingPlan.occurrences pos qs)%nat.
Proof.
  unfold PairingPlan.occurrences. rewrite !List.filter_app, !length_app. lia.
Qed.

Lemma filter_length_Permutation {A : Type} (f : A -> bool) (l l' : list A) :
  Permutation l l' -> length (List.filter f l) = length (List.filter f l').
Proof.
  induction 1; simpl; try congruence.
  - destruct (f x); simpl; congruence.
  - destruct (f x), (f y); reflexivity.
Qed.

Lemma occurrences_Permutation (pos : Z) (ps qs : list Pair) :
  Permutation ps qs ->
  PairingPlan.occurrences pos ps = PairingPlan.occurrences pos qs.
Proof.
  intros H. unfold PairingPlan.occurrences.
  by rewrite !(filter_length_Permutation _ _ _ H).
Qed.

Lemma countPos_not_in (pos : Z) (l : list Z) :
  pos ∉ l -> PairingPlan.countPos pos l = 0%nat.
Proof.
  unfold PairingPlan.countPos. induction l as [|x l IH]; [reflexivity|].
  intros H. apply not_elem_of_cons in H as [Hne Hl]. simpl.
  destruct (Z.eqb_spec x pos); [congruence|]. by apply IH.
Qed.

Lemma countPos_NoDup (pos : Z) (l : list Z) :
  NoDup l -> pos ∈ l -> PairingPlan.countPos pos l = 1%nat.
Proof.
  unfold PairingPlan.countPos. induction 1 as [|x l Hx Hnd IH]; intros Hin.
  - by apply elem_of_nil in Hin.
  - simpl. destruct (Z.eqb_spec x pos) as [->|Hne].
    + simpl. f_equal. by apply countPos_not_in.
    + apply elem_of_cons in Hin as [->|Hin]; [congruence|]. by apply IH.
Qed.

Lemma countPos_split (f : Z -> bool) (pos : Z) (l : list Z) :
  (PairingPlan.countPos pos (List.filter f l)
   + PairingPlan.countPos pos (List.filter (fun x => negb (f x)) l))%nat
  = PairingPlan.countPos pos l.
Proof.
  unfold PairingPlan.countPos. induction l as [|x l IH]; [reflexivity|].
  simpl. destruct (f x); simpl; destruct (x =? pos); simpl; lia.
Qed.
End Counting.

(** ** The passes of [buildPairsFromPlan] *)
Section BuildFacts.
Import PairingPlan.
Variable tracks : list Track.

Lemma elem_of_List_filter {A : Type} (f : A -> bool) (l : list A) (x : A) :
  x ∈ List.filter f l <-> x ∈ l /\ f x = true.
Proof. rewrite !list_elem_of_In. apply filter_In. Qed.

Lemma NoDup_List_filter {A : Type} (f : A -> bool) (l : list A) :
  NoDup l -> NoDup (List.filter f l).
Proof.
  induction 1 as [|x l Hx Hnd IH]; simpl; [constructor|].
  destruct (f x); [|assumption].
  constructor; [|assumption]. rewrite elem_of_List_filter. tauto.
Qed.

Lemma fold_addTrio (ts : list TrioOverride) (st : BuildState) :
  pairs (fold_left (addTrio tracks) ts st)
  = pairs st ++ flat_map (trioPairs tracks) ts
  /\ usedPositions (fold_left (addTrio tracks) ts st)
     = list_to_set (flat_map (fun t => [sampleA t; sampleB t]) ts) ∪ usedPositions st.
Proof.
  revert st. induction ts as [|t ts IH]; intros st; simpl.
  - split; [by rewrite app_nil_r|set_solver].
  - destruct (IH (addTrio tracks st t)) as [-> ->]. simpl.
    split; [by rewrite <- app_assoc|set_solver].
Qed.

Lemma fold_markOriginal (ts : list TrioOverride) (st : BuildState) :
  pairs (fold_left markOriginal ts st) = pairs st
  /\ usedPositions (fold_left markOriginal ts st)
     = list_to_set (map original ts) ∪ usedPositions st.
Proof.
  revert st. induction ts as [|t ts IH]; intros st; simpl.
  - split; [reflexivity|set_solver].
  - destruct (IH (markOriginal st t)) as [-> ->]. simpl.
    split; [reflexivity|set_solver].
Qed.

Lemma trio_sets (ts : list TrioOverride) :
  (list_to_set (map original ts)
   ∪ list_to_set (flat_map (fun t => [sampleA t; sampleB t]) ts) : gset Z)
  = list_to_set (concat (map trioPositions ts)).
Proof.
  induction ts as [|t ts IH]; simpl; [set_solver|].
  rewrite <- IH. set_solver.
Qed.

Lemma processTrios_spec (ts : list TrioOverride) (st : BuildState) :
  pairs (processTrios tracks ts st) = pairs st ++ flat_map (trioPairs tracks) ts
  /\ usedPositions (processTrios tracks ts st)
     = list_to_set (concat (map trioPositions ts)) ∪ usedPositions st.
Proof.
  unfold processTrios.
  destruct (fold_markOriginal ts (fold_left (addTrio tracks) ts st)) as [-> ->].
  destruct (fold_addTrio ts st) as [-> ->].
  split; [reflexivity|]. rewrite <- trio_sets. set_solver.
Qed.

(** A trio original is named twice, a trio sample once, by the trio pairs. *)
Lemma trioPairs_occurrences (ts : list TrioOverride) (pos : Z) :
  NoDup (concat (map trioPositions ts)) ->
  occurrences pos (flat_map (trioPairs tracks) ts)
  = if decide (pos ∈ map original ts) then 2%nat
    else if decide (pos ∈ concat (map trioPositions ts)) then 1%nat else 0%nat.
Proof.
  induction ts as [|t ts IH]; intros Hnd.
  - cbn [map concat flat_map]. repeat case_decide; try reflexivity; set_solver.
  - cbn [map concat flat_map] in *. apply NoDup_app in Hnd as (Ht & Hdisj & Hrest).
    rewrite occurrences_app, (IH Hrest). clear IH.
    assert (Hsub : forall x, x ∈ map original ts -> x ∈ concat (map trioPositions ts)).
    { clear. induction ts as [|t' ts IH]; cbn [map concat]; [set_solver|].
      intros x Hx. apply elem_of_cons in Hx as [->|Hx]; [set_solver|].
      apply elem_of_app. right. by apply IH. }
    unfold trioPositions in Ht, Hdisj.
    apply NoDup_cons in Ht as [Hoa Ht]. apply NoDup_cons in Ht as [Hab _].
    assert (Ho : original t <> sampleA t /\ original t <> sampleB t) by set_solver.
    assert (Ha : sampleA t <> sampleB t) by set_solver.
    assert (Hfresh : forall x, x ∈ [original t; sampleA t; sampleB t] ->
                               x ∉ concat (map trioPositions ts))
      by (intros x Hx Hx'; by apply (Hdisj x)).
    pose proof (Hfresh (original t)) as Hfo.
    pose proof (Hfresh (sampleA t)) as Hfa.
    pose proof (Hfresh (sampleB t)) as Hfb.
    unfold occurrences, trioPairs, positionPair, trioPositions.
    cbn [List.filter originalPos sampledPos app].
    destruct (Z.eqb_spec (original t) pos) as [Eo|No];
      destruct (Z.eqb_spec (sampleA t) pos) as [Ea|Na];
      destruct (Z.eqb_spec (sampleB t) pos) as [Eb|Nb];
      try (exfalso; lia); cbn [length Nat.add];
      repeat case_decide; try reflexivity; exfalso; set_solver.
Qed.

Lemma pairUp_spec (os ss : list Z) (st : BuildState) :
  length os = length ss ->
  pairs (pairUp tracks os ss st)
  = pairs st ++ map (fun os => positionPair tracks os.1 os.2) (zip os ss)
  /\ usedPositions (pairUp tracks os ss st)
     = list_to_set os ∪ list_to_set ss ∪ usedPositions st.
Proof.
  revert ss st. induction os as [|o os IH]; intros [|s ss] st Hlen;
    try discriminate; cbn [pairUp zip zip_with map].
  - split; [by rewrite app_nil_r|set_solver].
  - injection Hlen as Hlen.
    match goal with |- context [pairUp tracks os ss ?s0] =>
      destruct (IH ss s0 Hlen) as [-> ->] end.
    cbn [pairs usedPositions].
    split; [by rewrite <- app_assoc|set_solver].
Qed.

Lemma zip_occurrences (os ss : list Z) (pos : Z) :
  length os = length ss ->
  occurrences pos (map (fun os => positionPair tracks os.1 os.2) (zip os ss))
  = (countPos pos os + countPos pos ss)%nat.
Proof.
  unfold occurrences, countPos.
  revert ss. induction os as [|o os IH]; intros [|s ss] Hlen; try discriminate;
    [reflexivity|].
  injection Hlen as Hlen. specialize (IH ss Hlen).
  cbn [zip zip_with map List.filter originalPos sampledPos positionPair fst snd].
  destruct (o =? pos), (s =? pos); cbn [length]; lia.
Qed.

Lemma elem_of_availablePositions (range : RangeRule) (used : gset Z) (pos : Z) :
  pos ∈ availablePositions range used
  <-> start range <= pos <= end_ range /\ pos ∉ used.
Proof.
  unfold availablePositions. rewrite elem_of_List_filter, elem_of_seqZ.
  rewrite bool_decide_eq_true. intuition lia.
Qed.

Lemma NoDup_availablePositions (range : RangeRule) (used : gset Z) :
  NoDup (availablePositions range used).
Proof. apply NoDup_List_filter, NoDup_seqZ. Qed.

Lemma covers_spec (pos : Z) (range : RangeRule) :
  covers pos range = true <-> start range <= pos <= end_ range.
Proof. unfold covers. rewrite andb_true_iff, Z.geb_le, Z.leb_le. tauto. Qed.

Lemma processRange_spec (rangeIndex : nat) (range : RangeRule) (st st' : BuildState) :
  processRange tracks rangeIndex range st = inr st' ->
  exists new,
    pairs st' = pairs st ++ new
    /\ (forall pos, pos ∈ usedPositions st'
          <-> pos ∈ usedPositions st \/ start range <= pos <= end_ range)
    /\ (forall pos, occurrences pos new
          = if decide (pos ∈ usedPositions st) then 0%nat
            else if covers pos range then 1%nat else 0%nat)
    /\ Forall (rangePair range) new.
Proof.
  unfold processRange.
  set (available := availablePositions range (usedPositions st)).
  destruct (decide _) as [Hlen|]; [|discriminate]. intros [= <-].
  destruct (pairUp_spec _ _ st Hlen) as [Hp Hu].
  eexists. split; [exact Hp|]. split; [|split].
  - intros pos. rewrite Hu. unfold originalsOf, samplesOf.
    rewrite !elem_of_union, !elem_of_list_to_set, !elem_of_List_filter.
    fold available. unfold available. rewrite elem_of_availablePositions.
    destruct (isOriginal (mapping range) pos); simpl;
      destruct (decide (pos ∈ usedPositions st)); intuition congruence.
  - intros pos. rewrite (zip_occurrences _ _ _ Hlen).
    unfold originalsOf, samplesOf. rewrite countPos_split.
    unfold covers.
    destruct (decide (pos ∈ usedPositions st)) as [Hused|Hfree].
    + apply countPos_not_in. unfold available.
      rewrite elem_of_availablePositions. tauto.
    + destruct (Z.geb_spec pos (start range)), (Z.leb_spec pos (end_ range)); simpl.
      * apply countPos_NoDup; [apply NoDup_availablePositions|].
        apply elem_of_availablePositions. split; [lia|assumption].
      * apply countPos_not_in. unfold available.
        rewrite elem_of_availablePositions. lia.
      * apply countPos_not_in. unfold available.
        rewrite elem_of_availablePositions. lia.
      * apply countPos_not_in. unfold available.
        rewrite elem_of_availablePositions. lia.
  - apply Forall_forall. intros p Hp'.
    apply list_elem_of_fmap in Hp' as ([o s] & -> & Hos).
    pose proof (elem_of_zip_l _ _ _ _ Hos) as Ho.
    pose proof (elem_of_zip_r _ _ _ _ Hos) as Hs.
    unfold originalsOf in Ho. unfold samplesOf in Hs.
    apply elem_of_List_filter in Ho as [Ho Hio].
    apply elem_of_List_filter in Hs as [Hs His].
    apply elem_of_availablePositions in Ho as [Ho _].
    apply elem_of_availablePositions in Hs as [Hs _].
    unfold rangePair. cbn [positionPair originalPos sampledPos fst snd].
    apply negb_true_iff in His. tauto.
Qed.

Lemma processRanges_spec (rangeIndex : nat) (rs : list RangeRule) (st st' : BuildState) :
  processRanges tracks rangeIndex rs st = inr st' ->
  exists new,
    pairs st' = pairs st ++ new
    /\ (forall pos, pos ∈ usedPositions st'
          <-> pos ∈ usedPositions st \/ existsb (covers pos) rs = true)
    /\ (forall pos, occurrences pos new
          = if decide (pos ∈ usedPositions st) then 0%nat
            else if existsb (covers pos) rs then 1%nat else 0%nat)
    /\ Forall (fun p => exists range, range ∈ rs /\ rangePair range p) new.
Proof.
  revert rangeIndex st. induction rs as [|range rest IH]; intros rangeIndex st.
  - cbn [processRanges]. intros [= <-]. exists []. rewrite app_nil_r.
    split; [reflexivity|]. split; [|split].
    + intros pos. cbn [existsb]. intuition discriminate.
    + intros pos. cbn [existsb]. by destruct (decide _).
    + constructor.
  - cbn [processRanges].
    destruct (processRange tracks rangeIndex range st) as [e|st1] eqn:E1; [discriminate|].
    intros Hrest.
    apply processRange_spec in E1 as (new1 & Hp1 & Hu1 & Ho1 & Hr1).
    apply IH in Hrest as (new2 & Hp2 & Hu2 & Ho2 & Hr2).
    exists (new1 ++ new2). rewrite Hp2, Hp1, <- app_assoc.
    split; [reflexivity|]. split; [|split].
    + intros pos. rewrite Hu2, Hu1. cbn [existsb]. rewrite orb_true_iff.
      rewrite covers_spec. tauto.
    + intros pos. rewrite occurrences_app, Ho1, Ho2. cbn [existsb].
      destruct (decide (pos ∈ usedPositions st)) as [Hused|Hfree].
      * rewrite decide_True by (apply Hu1; by left). reflexivity.
      * destruct (covers pos range) eqn:Ec; cbn [orb].
        -- rewrite decide_True; [reflexivity|]. apply Hu1. right.
           by apply covers_spec.
        -- rewrite decide_False; [reflexivity|]. rewrite Hu1, <- covers_spec, Ec.
           intros [?|?]; [done|discriminate].
    + apply Forall_app. split.
      * eapply Forall_impl; [exact Hr1|]. intros p Hp. exists range. split; [set_solver|exact Hp].
      * eapply Forall_impl; [exact Hr2|]. intros p (r & Hr & Hp). exists r. split; [set_solver|exact Hp].
Qed.
End BuildFacts.

(** ** The range pass when it throws *)
Section BuildThrows.
Import PairingPlan.
Variable tracks : list Track.

(** A failing pass ran a prefix of the ranges and stopped at the next one. *)
Lemma processRanges_inl (rangeIndex : nat) (rs : list RangeRule)
      (st st' : BuildState) (error : BuildError) :
  processRanges tracks rangeIndex rs st = inl (error, st') ->
  exists done range rest,
    rs = done ++ range :: rest
    /\ processRanges tracks rangeIndex done st = inr st'
    /\ processRange tracks (rangeIndex + length done) range st' = inl error.
Proof.
  revert rangeIndex st. induction rs as [|range rest IH]; intros rangeIndex st;
    cbn [processRanges]; [discriminate|].
  destruct (processRange tracks rangeIndex range st) as [e|st1] eqn:E1.
  - intros [= <- <-]. exists [], range, rest. cbn [length app processRanges].
    rewrite Nat.add_0_r. auto.
  - intros H. apply IH in H as (done & r & rest' & -> & Hd & He).
    exists (range :: done), r, rest'. cbn [app length processRanges].
    rewrite E1. split; [reflexivity|]. split; [assumption|].
    by rewrite Nat.add_succ_r.
Qed.
End BuildThrows.

(** ** The pairing-plan claims *)
Section PlanClaims.
Import PairingPlan.

Lemma List_filter_nil {A : Type} (f : A -> bool) (l : list A) :
  (forall x, x ∈ l -> f x = false) -> List.filter f l = [].
Proof.
  induction l as [|x l IH]; intros H; [reflexivity|]. simpl.
  rewrite (H x) by set_solver. apply IH. intros y Hy. apply H. set_solver.
Qed.

Lemma covering_existsb (rs : list RangeRule) (pos : Z) :
  existsb (covers pos) rs = true <-> coveringRanges rs pos <> [].
Proof.
  unfold coveringRanges. induction rs as [|r rs IH]; simpl; [intuition congruence|].
  destruct (covers pos r); simpl; [intuition congruence|exact IH].
Qed.

(** C1, as the code has it: a plan that [validatePlan] accepts for the
    length of the track list and that [buildPairsFromPlan] builds leaves no
    position over, and the returned pairs name every position of
    [1..trackCount] exactly once, as [originalPos] or as [sampledPos], except
    the original of a trio, which they name exactly twice (it is the
    [originalPos] of both pairs of its trio); a position outside
    [1..trackCount] is named by no pair. *)
Theorem buildPairsFromPlan_covers_positions
        (tracks : list Track) (plan : PairingPlan)
        (ps : list Pair) (leftover : list Z) :
  ok (validatePlan (Z.of_nat (length tracks)) plan) = true ->
  buildPairsFromPlan tracks plan = Returned ps leftover ->
  leftover = []
  /\ forall pos,
       occurrences pos ps
       = if decide (1 <= pos <= Z.of_nat (length tracks))
         then if decide (pos ∈ map original (trios plan)) then 2%nat else 1%nat
         else 0%nat.
Proof.
  intros Hok Hbuild.
  apply validatePlan_ok in Hok as (_ & Hnd & Htb & Hrb & _ & Hcov).
  unfold buildPairsFromPlan in Hbuild.
  destruct (processRanges _ _ _ _) as [[e st]|st] eqn:Hr; [discriminate|].
  injection Hbuild as <- <-.
  destruct (processTrios_spec tracks (trios plan) {| pairs := []; usedPositions := ∅ |})
    as [Hp0 Hu0]. cbn [pairs usedPositions app] in Hp0, Hu0.
  apply processRanges_spec in Hr as (new & Hp & Hu & Hocc & _).
  rewrite Hp0 in Hp.
  assert (Hused0 : forall pos, pos ∈ usedPositions (processTrios tracks (trios plan)
                                 {| pairs := []; usedPositions := ∅ |})
                               <-> pos ∈ concat (map trioPositions (trios plan))).
  { intros pos. rewrite Hu0. set_solver. }
  split.
  - apply List_filter_nil. intros pos Hpos. apply elem_of_seqZ in Hpos.
    apply bool_decide_eq_false. intros Hfree. apply Hfree, Hu.
    destruct (Hcov pos) as [Ht|Hc]; [lia|left; by apply Hused0|right].
    apply covering_existsb. intros E. by rewrite E in Hc.
  - intros pos.
    rewrite (occurrences_Permutation _ _ _ (sortBy_Permutation minPos (pairs st))).
    rewrite Hp, occurrences_app, (trioPairs_occurrences _ _ _ Hnd), Hocc.
    destruct (decide (1 <= pos <= Z.of_nat (length tracks))) as [Hin|Hout].
    + destruct (decide (pos ∈ map original (trios plan))) as [Ho|Ho].
      * rewrite decide_True; [reflexivity|]. apply Hused0.
        clear -Ho. induction (trios plan) as [|t ts IH]; cbn [map concat] in *; [set_solver|].
        apply elem_of_cons in Ho as [->|Ho]; [set_solver|].
        apply elem_of_app. right. by apply IH.
      * destruct (decide (pos ∈ concat (map trioPositions (trios plan)))) as [Ht|Ht].
        -- rewrite decide_True by (by apply Hused0). reflexivity.
        -- rewrite decide_False by (by rewrite Hused0).
           destruct (Hcov pos Hin) as [?|Hc]; [done|].
           destruct (existsb (covers pos) (ranges plan)) eqn:E; [reflexivity|].
           assert (coveringRanges (ranges plan) pos = []) as E'.
           { destruct (coveringRanges (ranges plan) pos) eqn:E2; [reflexivity|].
             assert (existsb (covers pos) (ranges plan) = true)
               by (apply covering_existsb; by rewrite E2).
             congruence. }
           by rewrite E' in Hc.
    + assert (Hnt : pos ∉ concat (map trioPositions (trios plan)))
        by (intros Hx; apply Htb in Hx; lia).
      rewrite decide_False.
      2:{ intros Ho. apply Hnt. clear -Ho.
          induction (trios plan) as [|t ts IH]; cbn [map concat] in *; [set_solver|].
          apply elem_of_cons in Ho as [->|Ho]; [set_solver|].
          apply elem_of_app. right. by apply IH. }
      rewrite decide_False by assumption.
      rewrite decide_False by (by rewrite Hused0).
      destruct (existsb (covers pos) (ranges plan)) eqn:E; [|reflexivity].
      apply existsb_exists in E as (r & Hr & Hc).
      apply covers_spec in Hc. apply list_elem_of_In, Hrb in Hr. lia.
Qed.

Lemma buildPairsFromPlan_covers_positions_witness :
  exists ps,
    buildPairsFromPlan (take 9 mockTracks) plan9 = Returned ps []
    /\ ([] = ([] : list Z)
        /\ forall pos,
             occurrences pos ps
             = if decide (1 <= pos <= Z.of_nat (length (take 9 mockTracks)))
               then if decide (pos ∈ map original (trios plan9)) then 2%nat else 1%nat
               else 0%nat).
Proof.
  eexists. split; [vm_compute; reflexivity|].
  apply (buildPairsFromPlan_covers_positions (take 9 mockTracks) plan9);
    vm_compute; reflexivity.
Defined.

(** C1 as stated fails on a plan with a trio: over nine tracks, [plan9]
    validates and builds with nothing left over, and position 5, the trio's
    original, is named by two pairs, [(5,6)] and [(5,7)]. *)
Lemma trio_original_named_twice :
  ok (validatePlan 9 plan9) = true
  /\ exists ps,
       buildPairsFromPlan (take 9 mockTracks) plan9 = Returned ps []
       /\ positionsOf ps = [(2, 1); (4, 3); (5, 6); (5, 7); (9, 8)]
       /\ occurrences 5 ps = 2%nat.
Proof.
  split; [vm_compute; reflexivity|].
  eexists. split; [vm_compute; reflexivity|].
  split; vm_compute; reflexivity.
Qed.

(** C2: over the ten mock tracks the plan of tests 1 and 8 (trio 5,6,7,
    ranges [1,4] EVEN_ORIGINAL and [8,10] ODD_ORIGINAL) validates with no
    error; [buildPairsFromPlan] pushes the trio pairs (5,6) and (5,7) and the
    pairs (2,1) and (4,3) of range [1,4], and then throws at range 2, [8..10],
    whose free positions split into one original (9) and two samples (8, 10):
    the call returns no pair list. *)
Theorem plan8_validates_and_build_throws :
  validatePlan 10 plan8 = {| ok := true; errors := [] |}
  /\ (exists st,
        buildPairsFromPlan mockTracks plan8
        = Threw (UnmatchedTracks 2 8 10 1 2) st
        /\ pairs st = [positionPair mockTracks 5 6; positionPair mockTracks 5 7;
                       positionPair mockTracks 2 1; positionPair mockTracks 4 3]
        /\ originalsOf (mkRange 8 10 ODD_ORIGINAL)
             (availablePositions (mkRange 8 10 ODD_ORIGINAL) (usedPositions st)) = [9]
        /\ samplesOf (mkRange 8 10 ODD_ORIGINAL)
             (availablePositions (mkRange 8 10 ODD_ORIGINAL) (usedPositions st)) = [8; 10])
  /\ originalsOf (mkRange 1 4 EVEN_ORIGINAL)
       (availablePositions (mkRange 1 4 EVEN_ORIGINAL) {[5; 6; 7]}) = [2; 4]
  /\ samplesOf (mkRange 1 4 EVEN_ORIGINAL)
       (availablePositions (mkRange 1 4 EVEN_ORIGINAL) {[5; 6; 7]}) = [1; 3].
Proof.
  split; [vm_compute; reflexivity|].
  split; [|split; vm_compute; reflexivity].
  eexists. split; [vm_compute; reflexivity|].
  repeat split; vm_compute; reflexivity.
Qed.

(** An overlap is never a touch: the exemption of [validatePlan] cannot
    apply to two ranges that share a position. *)
Lemma overlap_not_touching (rangeA rangeB : RangeRule) :
  overlap rangeA rangeB = true -> touching rangeA rangeB = false.
Proof.
  unfold overlap, touching. rewrite andb_true_iff, orb_false_iff, !Z.geb_le, !Z.eqb_neq.
  lia.
Qed.

Lemma overlapInner_elem (i j k : nat) (rangeA rangeB : RangeRule) (rs : list RangeRule) :
  rs !! k = Some rangeB ->
  overlap rangeA rangeB = true ->
  RangesOverlap (Z.of_nat i + 1) (Z.of_nat (j + k) + 1) rangeA rangeB
    ∈ overlapInner i j rangeA rs.
Proof.
  revert j k. induction rs as [|r rs IH]; intros j k Hk Hov; [discriminate|].
  cbn [overlapInner]. destruct k as [|k]; cbn in Hk.
  - injection Hk as ->. rewrite Hov, (overlap_not_touching _ _ Hov), Nat.add_0_r.
    cbn. left.
  - apply elem_of_app. right. replace (j + S k)%nat with (S j + k)%nat by lia.
    by apply IH.
Qed.

Lemma overlapOuter_elem (base i j : nat) (rangeA rangeB : RangeRule) (rs : list RangeRule) :
  (i < j)%nat ->
  rs !! i = Some rangeA -> rs !! j = Some rangeB ->
  overlap rangeA rangeB = true ->
  RangesOverlap (Z.of_nat (base + i) + 1) (Z.of_nat (base + j) + 1) rangeA rangeB
    ∈ overlapOuter base rs.
Proof.
  revert base i j. induction rs as [|r rs IH]; intros base i j Hij Hi Hj Hov;
    [discriminate|].
  cbn [overlapOuter]. apply elem_of_app. destruct i as [|i]; cbn in Hi.
  - injection Hi as ->. left. destruct j as [|j]; [lia|]. cbn in Hj.
    rewrite Nat.add_0_r. replace (base + S j)%nat with (S base + j)%nat by lia.
    by apply overlapInner_elem.
  - right. destruct j as [|j]; [lia|]. cbn in Hj.
    replace (base + S i)%nat with (S base + i)%nat by lia.
    replace (base + S j)%nat with (S base + j)%nat by lia.
    apply IH; [lia|assumption..].
Qed.

(** C7: two ranges [a,b] (earlier in the plan) and [c,d] with [b >= c] and
    [d >= a] that do not touch make [validatePlan] report the overlap of
    the two and reject the plan; with ranges [1,5] and [5,10] the overlap of
    ranges 1 and 2 is reported whatever the trios, the mappings and the track
    count are; the plan of test 5, ranges [1,5] and [6,10] over ten tracks,
    validates without any error. *)
Theorem validatePlan_reports_overlap :
  (forall (trackCount : Z) (plan : PairingPlan) (i j : nat) (rangeA rangeB : RangeRule),
      (i < j)%nat ->
      ranges plan !! i = Some rangeA -> ranges plan !! j = Some rangeB ->
      end_ rangeA >= start rangeB -> end_ rangeB >= start rangeA ->
      ~ (end_ rangeA + 1 = start rangeB \/ end_ rangeB + 1 = start rangeA) ->
      RangesOverlap (Z.of_nat i + 1) (Z.of_nat j + 1) rangeA rangeB
        ∈ errors (validatePlan trackCount plan)
      /\ ok (validatePlan trackCount plan) = false)
  /\ (forall (trackCount : Z) (ts : list TrioOverride) (m1 m2 : MappingType),
        let plan := {| trios := ts; ranges := [mkRange 1 5 m1; mkRange 5 10 m2] |} in
        RangesOverlap 1 2 (mkRange 1 5 m1) (mkRange 5 10 m2)
          ∈ errors (validatePlan trackCount plan)
        /\ ok (validatePlan trackCount plan) = false)
  /\ (forall m1 m2 : MappingType,
        validatePlan 10 {| trios := []; ranges := [mkRange 1 5 m1; mkRange 6 10 m2] |}
        = {| ok := true; errors := [] |}).
Proof.
  assert (Hgen : forall (trackCount : Z) (plan : PairingPlan) (i j : nat)
                        (rangeA rangeB : RangeRule),
      (i < j)%nat ->
      ranges plan !! i = Some rangeA -> ranges plan !! j = Some rangeB ->
      overlap rangeA rangeB = true ->
      RangesOverlap (Z.of_nat i + 1) (Z.of_nat j + 1) rangeA rangeB
        ∈ errors (validatePlan trackCount plan)
      /\ ok (validatePlan trackCount plan) = false).
  { intros trackCount plan i j rangeA rangeB Hij Hi Hj Hov.
    pose proof (overlapOuter_elem 0 i j rangeA rangeB _ Hij Hi Hj Hov) as Hin.
    cbn [Nat.add] in Hin. unfold validatePlan.
    destruct (checkTrios trackCount 0 (trios plan) ∅) as [trioErrors trioTracks].
    cbn [errors ok].
    match goal with |- ?x ∈ ?l /\ _ => assert (Hl : x ∈ l) end.
    { apply elem_of_app. right. apply elem_of_app. right.
      apply elem_of_app. left. apply elem_of_app. by right. }
    split; [exact Hl|].
    destruct (_ ++ _); [by apply elem_of_nil in Hl|reflexivity]. }
  split; [|split].
  - intros trackCount plan i j rangeA rangeB Hij Hi Hj Hbc Hda _.
    apply Hgen; try assumption.
    unfold overlap. rewrite andb_true_iff, !Z.geb_le. lia.
  - intros trackCount ts m1 m2 plan.
    apply (Hgen trackCount plan 0%nat 1%nat); [lia|reflexivity..].
  - intros [] []; vm_compute; reflexivity.
Qed.

Lemma validatePlan_reports_overlap_witness :
  RangesOverlap 1 2 (mkRange 1 5 EVEN_ORIGINAL) (mkRange 5 10 ODD_ORIGINAL)
    ∈ errors (validatePlan 10 plan3)
  /\ ok (validatePlan 10 plan3) = false.
Proof.
  apply (proj1 validatePlan_reports_overlap 10 plan3 0%nat 1%nat
           (mkRange 1 5 EVEN_ORIGINAL) (mkRange 5 10 ODD_ORIGINAL));
    [lia|reflexivity|reflexivity|simpl; lia|simpl; lia|simpl; lia].
Defined.

Lemma isOriginal_parity (m : MappingType) (o s : Z) :
  isOriginal m o = true -> isOriginal m s = false ->
  isEven o = negb (isEven s).
Proof. destruct m; simpl; destruct (isEven o), (isEven s); simpl; congruence. Qed.

Lemma trioPairs_Forall (tracks : list Track) (ts : list TrioOverride) :
  Forall (fun p => exists trio, trio ∈ ts /\ trioPair trio p)
         (flat_map (trioPairs tracks) ts).
Proof.
  induction ts as [|t ts IH]; cbn [flat_map]; [constructor|].
  apply Forall_app. split.
  - unfold trioPairs. repeat constructor; exists t; (split; [set_solver|]);
      unfold trioPair; cbn; auto.
  - eapply Forall_impl; [exact IH|]. intros p (t' & Ht' & Hp). exists t'.
    split; [set_solver|exact Hp].
Qed.

Lemma trio_elem_positions (ts : list TrioOverride) (trio : TrioOverride) (x : Z) :
  trio ∈ ts -> x ∈ trioPositions trio -> x ∈ concat (map trioPositions ts).
Proof.
  induction ts as [|t ts IH]; intros Ht Hx; [by apply elem_of_nil in Ht|].
  cbn [map concat]. apply elem_of_app.
  apply elem_of_cons in Ht as [->|Ht]; [by left|right; by apply IH].
Qed.

Lemma trio_NoDup (ts : list TrioOverride) (trio : TrioOverride) :
  NoDup (concat (map trioPositions ts)) -> trio ∈ ts -> NoDup (trioPositions trio).
Proof.
  induction ts as [|t ts IH]; intros Hnd Ht; [by apply elem_of_nil in Ht|].
  cbn [map concat] in Hnd. apply NoDup_app in Hnd as (H1 & _ & H2).
  apply elem_of_cons in Ht as [->|Ht]; [assumption|by apply IH].
Qed.

(** C10: for a plan that [validatePlan] accepts for the length of the
    track list, every pair [buildPairsFromPlan] makes (returned, or pushed
    before a throw) has two different positions, both in [1..trackCount];
    it is a pair of a trio of the plan, or a pair of a range of the plan,
    and a range pair joins a position of the parity its mapping names with
    one of the other parity, so one is even and one is odd. *)
Theorem buildPairsFromPlan_no_self_pair
        (tracks : list Track) (plan : PairingPlan) :
  ok (validatePlan (Z.of_nat (length tracks)) plan) = true ->
  Forall (fun p =>
            originalPos p <> sampledPos p
            /\ 1 <= originalPos p <= Z.of_nat (length tracks)
            /\ 1 <= sampledPos p <= Z.of_nat (length tracks)
            /\ ((exists trio, trio ∈ trios plan /\ trioPair trio p)
                \/ (exists range, range ∈ ranges plan /\ rangePair range p
                                  /\ isEven (originalPos p) = negb (isEven (sampledPos p)))))
         (emitted (buildPairsFromPlan tracks plan)).
Proof.
  intros Hok.
  apply validatePlan_ok in Hok as (_ & Hnd & Htb & Hrb & _ & _).
  set (P := fun p : Pair => _).
  assert (Htrio : Forall P (flat_map (trioPairs tracks) (trios plan))).
  { eapply Forall_impl; [apply trioPairs_Forall|].
    intros p (trio & Ht & Hp). subst P. cbn beta.
    pose proof (trio_NoDup _ _ Hnd Ht) as Hd.
    pose proof (fun x Hx => Htb x (trio_elem_positions _ _ x Ht Hx)) as Hb.
    unfold trioPositions in Hd, Hb.
    apply NoDup_cons in Hd as [Hoa Hd]. apply NoDup_cons in Hd as [Hab _].
    pose proof (Hb (original trio)) as Hbo.
    pose proof (Hb (sampleA trio)) as Hba.
    pose proof (Hb (sampleB trio)) as Hbb.
    destruct Hp as [Ho Hs].
    assert (sampledPos p ∈ [sampleA trio; sampleB trio]) as Hsin
      by (destruct Hs as [-> | ->]; set_solver).
    rewrite Ho. split; [|split; [|split]].
    - intros E. apply Hoa. rewrite E. exact Hsin.
    - apply Hbo. set_solver.
    - destruct Hs as [-> | ->]; [apply Hba|apply Hbb]; set_solver.
    - left. exists trio. split; [assumption|]. split; assumption. }
  assert (Hrange : forall (rs : list RangeRule) (new : list Pair),
             (forall r, r ∈ rs -> r ∈ ranges plan) ->
             Forall (fun p => exists range, range ∈ rs /\ rangePair range p) new ->
             Forall P new).
  { intros rs new Hsub Hnew. eapply Forall_impl; [exact Hnew|].
    intros p (r & Hr & Hp). subst P. cbn beta.
    apply Hsub in Hr. pose proof (Hrb r Hr) as Hbr.
    destruct Hp as (Ho & Hs & Hio & His).
    pose proof (isOriginal_parity _ _ _ Hio His) as Hpar.
    split; [|split; [lia|split; [lia|]]].
    - intros E. rewrite E in Hpar. by destruct (isEven (sampledPos p)).
    - right. exists r. split; [assumption|]. split; [|assumption].
      repeat split; tauto. }
  destruct (processTrios_spec tracks (trios plan) {| pairs := []; usedPositions := ∅ |})
    as [Hp0 _]. cbn [pairs app] in Hp0.
  unfold buildPairsFromPlan.
  destruct (processRanges _ _ _ _) as [[e st]|st] eqn:Hr; cbn [emitted].
  - apply processRanges_inl in Hr as (done & r & rest & Hrs & Hd & _).
    apply processRanges_spec in Hd as (new & Hp & _ & _ & Hnew).
    rewrite Hp, Hp0. apply Forall_app. split; [exact Htrio|].
    apply (Hrange done); [|exact Hnew].
    intros r' Hr'. rewrite Hrs. set_solver.
  - apply processRanges_spec in Hr as (new & Hp & _ & _ & Hnew).
    rewrite (sortBy_Permutation minPos (pairs st)), Hp, Hp0.
    apply Forall_app. split; [exact Htrio|].
    apply (Hrange (ranges plan)); [auto|exact Hnew].
Qed.

Lemma buildPairsFromPlan_no_self_pair_witness :
  Forall (fun p =>
            originalPos p <> sampledPos p
            /\ 1 <= originalPos p <= Z.of_nat (length mockTracks)
            /\ 1 <= sampledPos p <= Z.of_nat (length mockTracks)
            /\ ((exists trio, trio ∈ trios plan8 /\ trioPair trio p)
                \/ (exists range, range ∈ ranges plan8 /\ rangePair range p
                                  /\ isEven (originalPos p) = negb (isEven (sampledPos p)))))
         (emitted (buildPairsFromPlan mockTracks plan8)).
Proof.
  apply (buildPairsFromPlan_no_self_pair mockTracks plan8).
  vm_compute. reflexivity.
Defined.
End PlanClaims.

(** ** The default pairing *)
Section DefaultPairing.
Import Server.

(** With fuel for every round left, the loop appends one pair for each of
    the indices [i], [i + 2], ... below the length. *)
Lemma defaultLoop_spec (tracks : list Track) (fuel i : nat) (acc : list Pair) :
  (length tracks - i <= 2 * fuel)%nat ->
  defaultLoop fuel tracks i acc
  = acc ++ map (fun k => defaultPair tracks (i + 2 * k))
               (seq 0 ((length tracks - i + 1) / 2)).
Proof.
  revert i acc. induction fuel as [|fuel IH]; intros i acc Hfuel.
  - cbn [defaultLoop]. replace (length tracks - i + 1)%nat with 1%nat by lia.
    cbn. by rewrite app_nil_r.
  - cbn [defaultLoop]. destruct (Nat.ltb_spec i (length tracks)) as [Hlt|Hge].
    + rewrite IH by lia. rewrite <- app_assoc. f_equal.
      replace ((length tracks - i + 1) / 2)%nat
        with (S ((length tracks - (i + 2) + 1) / 2)).
      2:{ destruct (decide (length tracks - i = 1)%nat) as [E|E].
          - replace (length tracks - (i + 2) + 1)%nat with 1%nat by lia.
            replace (length tracks - i + 1)%nat with 2%nat by lia. reflexivity.
          - replace (length tracks - i + 1)%nat
              with ((length tracks - (i + 2) + 1) + 1 * 2)%nat by lia.
            rewrite Nat.div_add by lia. lia. }
      cbn [seq map app]. rewrite Nat.mul_0_r, Nat.add_0_r. f_equal.
      rewrite <- seq_shift, map_map. apply map_ext. intros k. f_equal. lia.
    + replace (length tracks - i + 1)%nat with 1%nat by lia.
      cbn. by rewrite app_nil_r.
Qed.

(** C9: without a plan the request fails with the [odd] error when the
    number of tracks is odd; otherwise the pairs are, in order, one for each
    [k < N/2], made of the tracks at positions [2k+1] (original) and [2k+2]
    (sampled): [N/2] pairs, [(1,2)], [(3,4)], ..., [(N-1,N)]. *)
Theorem defaultPairing_sequential (tracks : list Track) (totalTracks : Z) :
  defaultPairing tracks totalTracks
  = (if Nat.odd (length tracks) then inl (OddTrackCount totalTracks)
     else inr (map (fun k => defaultPair tracks (2 * k))
                   (seq 0 (length tracks / 2))))
  /\ (Nat.odd (length tracks) = false ->
      forall ps, defaultPairing tracks totalTracks = inr ps ->
        length ps = (length tracks / 2)%nat
        /\ PairingPlan.positionsOf ps
           = map (fun k => (2 * Z.of_nat k + 1, 2 * Z.of_nat k + 2))
                 (seq 0 (length tracks / 2))
        /\ forall k, (k < length tracks / 2)%nat ->
             exists original sampled,
               tracks !! (2 * k)%nat = Some original
               /\ tracks !! (2 * k + 1)%nat = Some sampled
               /\ ps !! k = Some (positionPair tracks (2 * Z.of_nat k + 1)
                                                      (2 * Z.of_nat k + 2))
               /\ originalTrack (positionPair tracks (2 * Z.of_nat k + 1)
                                                     (2 * Z.of_nat k + 2)) = Some original
               /\ sampledTrack (positionPair tracks (2 * Z.of_nat k + 1)
                                                    (2 * Z.of_nat k + 2)) = Some sampled).
Proof.
  assert (Hmain : defaultPairing tracks totalTracks
     = (if Nat.odd (length tracks) then inl (OddTrackCount totalTracks)
        else inr (map (fun k => defaultPair tracks (2 * k))
                      (seq 0 (length tracks / 2))))).
  { unfold defaultPairing.
    destruct (Nat.odd (length tracks)) eqn:Hodd.
    - apply Nat.odd_spec in Hodd as [m Hm].
      replace (Z.rem (Z.of_nat (length tracks)) 2) with 1; [reflexivity|].
      rewrite Hm, Z.rem_mod_nonneg by lia.
      replace (Z.of_nat (2 * m + 1)) with (1 + Z.of_nat m * 2) by lia.
      by rewrite Z.mod_add.
    - assert (Heven : Nat.even (length tracks) = true).
      { rewrite <- Nat.negb_odd, Hodd. reflexivity. }
      apply Nat.even_spec in Heven as [m Hm].
      replace (Z.rem (Z.of_nat (length tracks)) 2) with 0.
      2:{ rewrite Hm, Z.rem_mod_nonneg by lia.
          replace (Z.of_nat (2 * m)) with (0 + Z.of_nat m * 2) by lia.
          by rewrite Z.mod_add. }
      cbn [Z.eqb negb]. f_equal. rewrite defaultLoop_spec by lia.
      cbn [app]. rewrite Nat.sub_0_r.
      replace ((length tracks + 1) / 2)%nat with (length tracks / 2)%nat; [reflexivity|].
      rewrite Hm. replace (2 * m + 1)%nat with (1 + m * 2)%nat by lia.
      replace (2 * m)%nat with (0 + m * 2)%nat by lia.
      rewrite !Nat.div_add by lia. reflexivity. }
  split; [exact Hmain|].
  intros Hodd ps Hps. rewrite Hmain, Hodd in Hps. injection Hps as <-.
  assert (Heven : Nat.even (length tracks) = true).
  { rewrite <- Nat.negb_odd, Hodd. reflexivity. }
  apply Nat.even_spec in Heven as [m Hm].
  assert (Hhalf : (length tracks / 2 = m)%nat).
  { rewrite Hm. replace (2 * m)%nat with (0 + m * 2)%nat by lia.
    by rewrite Nat.div_add by lia. }
  assert (Hpair : forall k, defaultPair tracks (2 * k)
                            = positionPair tracks (2 * Z.of_nat k + 1) (2 * Z.of_nat k + 2)).
  { intros k. unfold defaultPair, positionPair, trackAt.
    destruct (Z.ltb_spec (2 * Z.of_nat k + 1) 1); [lia|].
    destruct (Z.ltb_spec (2 * Z.of_nat k + 2) 1); [lia|].
    f_equal; try lia; f_equal; lia. }
  split; [by rewrite length_map, length_seq|]. split.
  - unfold PairingPlan.positionsOf. rewrite map_map. apply map_ext. intros k.
    cbn. f_equal; lia.
  - intros k Hk. pose proof Hk as Hk'. rewrite Hhalf in Hk'.
    destruct (lookup_lt_is_Some_2 tracks (2 * k)%nat) as [o Ho]; [lia|].
    destruct (lookup_lt_is_Some_2 tracks (2 * k + 1)%nat) as [s Hs]; [lia|].
    exists o, s. split; [exact Ho|]. split; [exact Hs|].
    rewrite <- Hpair. split; [|split].
    + rewrite list_lookup_fmap, lookup_seq_lt by exact Hk. reflexivity.
    + exact Ho.
    + exact Hs.
Qed.

Lemma defaultPairing_sequential_witness :
  exists ps,
    defaultPairing (take 4 PairingPlan.mockTracks) 4 = inr ps
    /\ length ps = (length (take 4 PairingPlan.mockTracks) / 2)%nat
    /\ PairingPlan.positionsOf ps = [(1, 2); (3, 4)].
Proof.
  eexists. split; [vm_compute; reflexivity|].
  split; [|vm_compute; reflexivity].
  apply (proj2 (defaultPairing_sequential (take 4 PairingPlan.mockTracks) 4)
               eq_refl _ eq_refl).
Defined.
End DefaultPairing.

(** ** normalizePlan *)
Section NormalizePlan.
Import PairingPlan.

Lemma clamp_bounds (trackCount x : Z) :
  1 <= trackCount -> 1 <= clamp trackCount x <= trackCount.
Proof. unfold clamp. lia. Qed.


Lemma clamp_mono (trackCount x y : Z) :
  x <= y -> clamp trackCount x <= clamp trackCount y.
Proof. unfold clamp. lia. Qed.

Lemma elem_of_dropNull {A B : Type} (f : A -> option B) (l : list A) (y : B) :
  y ∈ dropNull (map f l) <-> exists x, x ∈ l /\ f x = Some y.
Proof.
  induction l as [|a l IH]; cbn [map dropNull].
  - split; [intros H; by apply elem_of_nil in H|intros (x & H & _); by apply elem_of_nil in H].
  - destruct (f a) as [b|] eqn:E.
    + rewrite elem_of_cons, IH. split.
      * intros [->|(x & Hx & Hfx)]; [exists a; split; [left|exact E]|].
        exists x. split; [by right|exact Hfx].
      * intros (x & Hx & Hfx). apply elem_of_cons in Hx as [->|Hx].
        -- left. congruence.
        -- right. eauto.
    + rewrite IH. split.
      * intros (x & Hx & Hfx). exists x. split; [by right|exact Hfx].
      * intros (x & Hx & Hfx). apply elem_of_cons in Hx as [->|Hx]; [congruence|eauto].
Qed.

Lemma normalizeTrio_Some (trackCount : Z) (raw : Raw.Trio) (trio : TrioOverride) :
  normalizeTrio trackCount raw = Some trio
  <-> exists o a b,
        parseInt (trim (Raw.original raw)) = Some o
        /\ parseInt (trim (Raw.sampleA raw)) = Some a
        /\ parseInt (trim (Raw.sampleB raw)) = Some b
        /\ trio = mkTrio (clamp trackCount o) (clamp trackCount a) (clamp trackCount b).
Proof.
  unfold normalizeTrio.
  destruct (parseInt (trim (Raw.original raw))) as [o|],
           (parseInt (trim (Raw.sampleA raw))) as [a|],
           (parseInt (trim (Raw.sampleB raw))) as [b|];
    (split; [intros [= <-]; eauto 8|intros (o' & a' & b' & Ho & Ha & Hb & ->); congruence]).
Qed.

Lemma normalizeRange_Some (trackCount : Z) (raw : Raw.Range) (range : RangeRule) :
  normalizeRange trackCount raw = Some range
  <-> exists s e m,
        parseInt (trim (Raw.start raw)) = Some s
        /\ parseInt (trim (Raw.end_ raw)) = Some e
        /\ parseMapping (Raw.mapping raw) = Some m
        /\ range = mkRange (clamp trackCount (Z.min s e)) (clamp trackCount (Z.max s e)) m.
Proof.
  unfold normalizeRange.
  destruct (parseInt (trim (Raw.start raw))) as [s|],
           (parseInt (trim (Raw.end_ raw))) as [e|];
    try (split; [discriminate|intros (s' & e' & m' & Hs & He & _); congruence]).
  assert (Hswap : (if s >? e then (e, s) else (s, e)) = (Z.min s e, Z.max s e)).
  { destruct (Z.gtb_spec s e); f_equal; lia. }
  rewrite Hswap.
  destruct (parseMapping (Raw.mapping raw)) as [m|].
  - split; [intros [= <-]; eauto 8|].
    intros (s' & e' & m' & [= <-] & [= <-] & [= <-] & ->). reflexivity.
  - split; [discriminate|]. intros (s' & e' & m' & _ & _ & Hm & _). discriminate.
Qed.




End NormalizePlan.

(** ** The merge of the canonical store *)
Section MergeFacts.
Import Server.
Variable toLowerCase : jsstring -> jsstring.

Local Notation key := (Dedupe.getPairKey toLowerCase).

Lemma mapHas_spec (m : PairMap) (k : jsstring) :
  mapHas m k = true <-> k ∈ map fst m.
Proof.
  unfold mapHas. induction m as [|e m IH]; cbn [existsb map].
  - split; [discriminate|intros H; by apply elem_of_nil in H].
  - rewrite orb_true_iff, IH, bool_decide_eq_true, elem_of_cons. intuition congruence.
Qed.

Lemma mapSet_fresh (m : PairMap) (k : jsstring) (v : option Pair) :
  k ∉ map fst m -> mapSet m k v = m ++ [(k, v)].
Proof.
  induction m as [|e m IH]; cbn [mapSet map app]; [reflexivity|].
  intros H. apply not_elem_of_cons in H as [Hne Hm].
  rewrite bool_decide_eq_false_2 by congruence. by rewrite IH.
Qed.

Lemma keepFirst_ext (seen seen' : list jsstring) (l : list (option Pair)) :
  (forall k, k ∈ seen <-> k ∈ seen') ->
  keepFirst toLowerCase seen l = keepFirst toLowerCase seen' l.
Proof.
  revert seen seen'. induction l as [|p l IH]; intros seen seen' H; [reflexivity|].
  cbn [keepFirst].
  rewrite (bool_decide_ext (key p ∈ seen) (key p ∈ seen')) by apply H.
  destruct (_ || _); [by apply IH|]. f_equal. apply IH.
  intros k. rewrite !elem_of_cons, H. tauto.
Qed.

(** The fold over the [Map] is the first-occurrence filter. *)
Lemma fold_dedupeStep (l : list (option Pair)) (m : PairMap) :
  mapValues (fold_left (dedupeStep toLowerCase) l m)
  = mapValues m ++ keepFirst toLowerCase (map fst m) l.
Proof.
  revert m. induction l as [|p l IH]; intros m; cbn [fold_left keepFirst].
  - by rewrite app_nil_r.
  - rewrite IH. unfold dedupeStep.
    destruct (bool_decide (key p = [])) eqn:Ek; cbn [negb andb orb]; [reflexivity|].
    destruct (mapHas m (key p)) eqn:Eh; cbn [negb].
    + apply mapHas_spec in Eh. by rewrite bool_decide_eq_true_2.
    + assert (Hnot : key p ∉ map fst m).
      { intros Hin. apply mapHas_spec in Hin. congruence. }
      rewrite bool_decide_eq_false_2 by assumption.
      rewrite mapSet_fresh by assumption.
      unfold mapValues. rewrite !map_app, <- app_assoc. cbn [map app fst snd].
      do 2 f_equal. apply keepFirst_ext. intros k.
      rewrite elem_of_app, !elem_of_cons, elem_of_nil. tauto.
Qed.

Lemma merge_keepFirst (storedPairs scrapedPairs : list (option Pair)) :
  merge toLowerCase storedPairs scrapedPairs
  = keepFirst toLowerCase [] (storedPairs ++ scrapedPairs).
Proof. unfold merge. by rewrite fold_dedupeStep. Qed.

Lemma getPairKey_empty (p : option Pair) : key p = [] <-> p = None.
Proof. destruct p; cbn; split; congruence. Qed.

Lemma keepFirst_keys (seen : list jsstring) (l : list (option Pair)) :
  NoDup (map key (keepFirst toLowerCase seen l))
  /\ forall p, p ∈ keepFirst toLowerCase seen l ->
               p ∈ l /\ key p <> [] /\ key p ∉ seen.
Proof.
  revert seen. induction l as [|p l IH]; intros seen; cbn [keepFirst].
  - split; [constructor|]. intros q Hq. by apply elem_of_nil in Hq.
  - destruct (bool_decide (key p = [])) eqn:Ek; cbn [orb].
    + destruct (IH seen) as [Hnd Hin]. split; [exact Hnd|].
      intros q Hq. apply Hin in Hq as (? & ? & ?). split; [by right|tauto].
    + apply bool_decide_eq_false in Ek.
      destruct (bool_decide (key p ∈ seen)) eqn:Es.
      * destruct (IH seen) as [Hnd Hin]. split; [exact Hnd|].
        intros q Hq. apply Hin in Hq as (? & ? & ?). split; [by right|tauto].
      * apply bool_decide_eq_false in Es.
        destruct (IH (key p :: seen)) as [Hnd Hin]. split.
        -- cbn [map]. constructor; [|exact Hnd].
           intros Hk. apply list_elem_of_fmap in Hk as (q & Hq & Hqin).
           apply Hin in Hqin as (_ & _ & Hfresh). apply Hfresh. rewrite Hq. left.
        -- intros q Hq. apply elem_of_cons in Hq as [->|Hq]; [split; [left|tauto]|].
           apply Hin in Hq as (? & ? & Hfresh). split; [by right|].
           split; [assumption|]. intros ?. apply Hfresh. by right.
Qed.

Lemma keepFirst_sublist (seen : list jsstring) (l : list (option Pair)) :
  sublist (keepFirst toLowerCase seen l) l.
Proof.
  revert seen. induction l as [|p l IH]; intros seen; cbn [keepFirst]; [constructor|].
  destruct (_ || _); [by apply sublist_cons|by apply sublist_skip].
Qed.

Lemma keepFirst_first (seen : list jsstring) (l : list (option Pair)) (k : jsstring) :
  firstWithKey toLowerCase k (keepFirst toLowerCase seen l)
  = if bool_decide (k = []) || bool_decide (k ∈ seen) then None
    else firstWithKey toLowerCase k l.
Proof.
  unfold firstWithKey.
  revert seen. induction l as [|p l IH]; intros seen; cbn [keepFirst List.find].
  - by destruct (_ || _).
  - destruct (decide (key p = k)) as [<-|Hne].
    + rewrite (bool_decide_eq_true_2 (key p = key p)) by reflexivity.
      destruct (bool_decide (key p = []) || bool_decide (key p ∈ seen)) eqn:E.
      * rewrite IH, E. reflexivity.
      * cbn [List.find]. by rewrite (bool_decide_eq_true_2 (key p = key p)).
    + rewrite (bool_decide_eq_false_2 (key p = k)) by assumption.
      destruct (bool_decide (key p = []) || bool_decide (key p ∈ seen)) eqn:E.
      * apply IH.
      * cbn [List.find]. rewrite (bool_decide_eq_false_2 (key p = k)) by assumption.
        rewrite IH.
        rewrite (bool_decide_ext (k ∈ key p :: seen) (k ∈ seen)); [reflexivity|].
        rewrite elem_of_cons. intuition congruence.
Qed.

Lemma find_app_Some {A : Type} (f : A -> bool) (l1 l2 : list A) (x : A) :
  List.find f l1 = Some x -> List.find f (l1 ++ l2) = Some x.
Proof.
  induction l1 as [|a l1 IH]; cbn [List.find app]; [discriminate|].
  destruct (f a); [auto|exact IH].
Qed.

(** Pairs that are all dropped: no key, or a key met before. *)
Lemma keepFirst_all_seen (seen : list jsstring) (l : list (option Pair)) :
  (forall p, p ∈ l -> key p = [] \/ key p ∈ seen) ->
  keepFirst toLowerCase seen l = [].
Proof.
  induction l as [|p l IH]; intros H; cbn [keepFirst]; [reflexivity|].
  destruct (H p) as [E|E]; [left| |].
  - rewrite bool_decide_eq_true_2 by assumption. apply IH. intros q Hq. apply H. by right.
  - rewrite (bool_decide_eq_true_2 (key p ∈ seen)) by assumption. rewrite orb_true_r.
    apply IH. intros q Hq. apply H. by right.
Qed.

Lemma keepFirst_app (seen : list jsstring) (l1 l2 : list (option Pair)) :
  keepFirst toLowerCase seen (l1 ++ l2)
  = keepFirst toLowerCase seen l1
    ++ keepFirst toLowerCase (rev (map key (keepFirst toLowerCase seen l1)) ++ seen) l2.
Proof.
  revert seen. induction l1 as [|p l1 IH]; intros seen; cbn [keepFirst app]; [reflexivity|].
  destruct (_ || _); [apply IH|].
  cbn [map rev app]. rewrite IH. do 2 f_equal. by rewrite <- app_assoc.
Qed.

(** A list with no key missing and no key twice is kept as it is. *)
Lemma keepFirst_id (seen : list jsstring) (l : list (option Pair)) :
  NoDup (map key l) ->
  (forall p, p ∈ l -> key p <> [] /\ key p ∉ seen) ->
  keepFirst toLowerCase seen l = l.
Proof.
  revert seen. induction l as [|p l IH]; intros seen Hnd H; cbn [keepFirst]; [reflexivity|].
  cbn [map] in Hnd. apply NoDup_cons in Hnd as [Hp Hnd].
  destruct (H p) as [Hk Hs]; [left|].
  rewrite bool_decide_eq_false_2, bool_decide_eq_false_2 by assumption.
  cbn [orb]. f_equal. apply IH; [exact Hnd|].
  intros q Hq. destruct (H q) as [Hqk Hqs]; [by right|].
  split; [exact Hqk|]. intros Hin. apply elem_of_cons in Hin as [E|Hin]; [|done].
  apply Hp. rewrite <- E. apply list_elem_of_fmap. eauto.
Qed.

Lemma firstWithKey_elem (l : list (option Pair)) (p : option Pair) :
  p ∈ l -> exists q, firstWithKey toLowerCase (key p) l = Some q.
Proof.
  unfold firstWithKey. induction l as [|a l IH]; intros H; [by apply elem_of_nil in H|].
  cbn [List.find]. destruct (bool_decide (key a = key p)) eqn:E; [eauto|].
  apply elem_of_cons in H as [->|H]; [|by apply IH].
  by rewrite bool_decide_eq_true_2 in E.
Qed.

Lemma firstWithKey_Some (l : list (option Pair)) (k : jsstring) (q : option Pair) :
  firstWithKey toLowerCase k l = Some q -> q ∈ l /\ key q = k.
Proof.
  unfold firstWithKey. intros H. apply find_some in H as [Hin Hk].
  split; [by apply list_elem_of_In|by apply bool_decide_eq_true in Hk].
Qed.

(** A keyed pair of the list has its key among the kept ones, unless the
    key was met before. *)
Lemma keepFirst_covers (seen : list jsstring) (l : list (option Pair)) (p : option Pair) :
  p ∈ l -> key p = [] \/ key p ∈ rev (map key (keepFirst toLowerCase seen l)) ++ seen.
Proof.
  intros Hin.
  destruct (decide (key p = [])) as [|Hk]; [by left|right].
  destruct (decide (key p ∈ seen)) as [|Hs]; [apply elem_of_app; by right|].
  apply elem_of_app. left. rewrite list_elem_of_In, <- in_rev, <- list_elem_of_In.
  destruct (firstWithKey_elem l p Hin) as [q Hq].
  pose proof (keepFirst_first seen l (key p)) as Hf.
  rewrite bool_decide_eq_false_2, bool_decide_eq_false_2 in Hf by assumption.
  cbn [orb] in Hf. rewrite Hq in Hf.
  apply firstWithKey_Some in Hf as [Hqin Hqk].
  rewrite <- Hqk. apply list_elem_of_fmap. eauto.
Qed.

(** C6, as the code has it: the merge is the first-occurrence filter of
    [storedPairs ++ scrapedPairs] by pair key.  It keeps the order, no key
    stands twice, for every non-empty key the pair kept is the first one of
    the concatenation with that key, so a stored pair wins against a scraped
    pair with the same key, and the pairs with an empty key are dropped.
    The pairs with an empty key are exactly the missing ([null]) entries: a
    pair object without tracks has the key ["O:||S:"] and is kept like any
    other. *)
Theorem merge_keeps_first_occurrence
        (storedPairs scrapedPairs : list (option Pair)) :
  let merged := merge toLowerCase storedPairs scrapedPairs in
  merged = keepFirst toLowerCase [] (storedPairs ++ scrapedPairs)
  /\ sublist merged (storedPairs ++ scrapedPairs)
  /\ NoDup (map (Dedupe.getPairKey toLowerCase) merged)
  /\ (forall p, p ∈ merged ->
        Dedupe.getPairKey toLowerCase p <> [] /\ p <> None)
  /\ (forall k, k <> [] ->
        firstWithKey toLowerCase k merged
        = firstWithKey toLowerCase k (storedPairs ++ scrapedPairs))
  /\ (forall s, s ∈ storedPairs -> Dedupe.getPairKey toLowerCase s <> [] ->
        firstWithKey toLowerCase (Dedupe.getPairKey toLowerCase s) merged
        = firstWithKey toLowerCase (Dedupe.getPairKey toLowerCase s) storedPairs)
  /\ (forall p, Dedupe.getPairKey toLowerCase p = [] <-> p = None)
  /\ Dedupe.getPairKey toLowerCase (Some tracklessPair) = js "O:||S:".
Proof.
  intros merged. subst merged. rewrite merge_keepFirst.
  destruct (keepFirst_keys [] (storedPairs ++ scrapedPairs)) as [Hnd Hin].
  assert (Hfirst : forall k, k <> [] ->
        firstWithKey toLowerCase k (keepFirst toLowerCase [] (storedPairs ++ scrapedPairs))
        = firstWithKey toLowerCase k (storedPairs ++ scrapedPairs)).
  { intros k Hk. rewrite keepFirst_first.
    rewrite bool_decide_eq_false_2 by assumption.
    rewrite bool_decide_eq_false_2 by apply not_elem_of_nil. reflexivity. }
  split; [reflexivity|]. split; [apply keepFirst_sublist|].
  split; [exact Hnd|]. split; [|split; [exact Hfirst|split; [|split]]].
  - intros p Hp. apply Hin in Hp as (_ & Hk & _). split; [exact Hk|].
    intros ->. by apply Hk.
  - intros s Hs Hk. rewrite (Hfirst _ Hk).
    destruct (firstWithKey_elem storedPairs s Hs) as [q Hq]. rewrite Hq.
    by apply find_app_Some.
  - apply getPairKey_empty.
  - reflexivity.
Qed.

(** C5, as the code has it: when the keys of [S] are all non-empty and
    pairwise different, [merge(S, [])] and [merge(S, S)] are [S]; for any
    [S], [merge(S, S)] is [merge(S, [])], which has no key twice and which a
    further merge leaves unchanged. *)
Theorem merge_identity_idempotent (S : list (option Pair)) :
  (NoDup (map (Dedupe.getPairKey toLowerCase) S) ->
   (forall p, p ∈ S -> Dedupe.getPairKey toLowerCase p <> []) ->
   merge toLowerCase S [] = S /\ merge toLowerCase S S = S)
  /\ merge toLowerCase S S = merge toLowerCase S []
  /\ NoDup (map (Dedupe.getPairKey toLowerCase) (merge toLowerCase S []))
  /\ merge toLowerCase (merge toLowerCase S []) [] = merge toLowerCase S [].
Proof.
  assert (Hdouble : merge toLowerCase S S = merge toLowerCase S []).
  { rewrite !merge_keepFirst, app_nil_r, keepFirst_app.
    rewrite (keepFirst_all_seen (rev (map key (keepFirst toLowerCase [] S)) ++ []) S);
      [by rewrite app_nil_r|].
    intros p Hp. by apply keepFirst_covers. }
  assert (Hid : forall l : list (option Pair),
                NoDup (map key l) -> (forall p, p ∈ l -> key p <> []) ->
                merge toLowerCase l [] = l).
  { intros l Hnd Hk. rewrite merge_keepFirst, app_nil_r. apply keepFirst_id; [exact Hnd|].
    intros p Hp. split; [by apply Hk|apply not_elem_of_nil]. }
  split; [|split; [exact Hdouble|split]].
  - intros Hnd Hk. split; [by apply Hid|]. rewrite Hdouble. by apply Hid.
  - rewrite merge_keepFirst. apply keepFirst_keys.
  - apply Hid.
    + rewrite merge_keepFirst. apply keepFirst_keys.
    + intros p Hp. rewrite merge_keepFirst in Hp.
      apply keepFirst_keys in Hp. tauto.
Qed.
End MergeFacts.


(** ** Strings: trimming, collapsing, filtering *)
Section StringFacts.

Lemma dropWhile_length {A : Type} (f : A -> bool) (l : list A) :
  (length (dropWhile f l) <= length l)%nat.
Proof. induction l as [|x l IH]; simpl; [lia|]. destruct (f x); simpl; lia. Qed.

Lemma dropWhile_all {A : Type} (f : A -> bool) (u v : list A) :
  forallb f u = true -> dropWhile f (u ++ v) = dropWhile f v.
Proof.
  induction u as [|x u IH]; simpl; [reflexivity|].
  intros H. apply andb_true_iff in H as [Hx Hu]. rewrite Hx. by apply IH.
Qed.

Lemma dropWhile_suffix {A : Type} (f : A -> bool) (l : list A) :
  exists u, l = u ++ dropWhile f l /\ forallb f u = true.
Proof.
  induction l as [|x l (u & Hu & Hf)]; simpl; [by exists []|].
  destruct (f x) eqn:E; [|by exists []].
  exists (x :: u). simpl. rewrite E, Hf. split; [by f_equal|reflexivity].
Qed.

Lemma dropWhile_head {A : Type} (f : A -> bool) (l : list A) :
  match dropWhile f l with [] => True | x :: _ => f x = false end.
Proof.
  induction l as [|x l IH]; simpl; [exact I|].
  destruct (f x) eqn:E; [exact IH|exact E].
Qed.

Lemma dropWhile_stop {A : Type} (f : A -> bool) (x : A) (l : list A) :
  f x = false -> dropWhile f (x :: l) = x :: l.
Proof. intros H. simpl. by rewrite H. Qed.

Lemma trimEnd_nil : trimEnd [] = [].
Proof. reflexivity. Qed.

Lemma trimEnd_snoc (s : jsstring) (c : N) :
  trimEnd (s ++ [c]) = if isWhiteSpace c then trimEnd s else s ++ [c].
Proof.
  unfold trimEnd. rewrite rev_app_distr. cbn [rev app dropWhile].
  destruct (isWhiteSpace c); [reflexivity|].
  cbn [rev]. by rewrite rev_involutive.
Qed.

Lemma trimEnd_app_ws (s w : jsstring) :
  forallb isWhiteSpace w = true -> trimEnd (s ++ w) = trimEnd s.
Proof.
  induction w as [|c w IH] using rev_ind; intros H; [by rewrite app_nil_r|].
  rewrite forallb_app in H. apply andb_true_iff in H as [Hw Hc].
  cbn in Hc. rewrite andb_true_r in Hc.
  rewrite app_assoc, trimEnd_snoc, Hc. by apply IH.
Qed.

Lemma trimEnd_prefix (s : jsstring) :
  exists w, s = trimEnd s ++ w /\ forallb isWhiteSpace w = true.
Proof.
  induction s as [|c s (w & Hw & Hf)] using rev_ind; [by exists []|].
  rewrite trimEnd_snoc. destruct (isWhiteSpace c) eqn:E.
  - exists (w ++ [c]). rewrite app_assoc, <- Hw. split; [reflexivity|].
    rewrite forallb_app, Hf. cbn. by rewrite E.
  - exists []. by rewrite app_nil_r.
Qed.

Lemma trimEnd_idem (s : jsstring) : trimEnd (trimEnd s) = trimEnd s.
Proof.
  induction s as [|c s IH] using rev_ind; [reflexivity|].
  rewrite trimEnd_snoc. destruct (isWhiteSpace c) eqn:E; [exact IH|].
  by rewrite trimEnd_snoc, E.
Qed.

Lemma trimEnd_length (s : jsstring) : (length (trimEnd s) <= length s)%nat.
Proof.
  destruct (trimEnd_prefix s) as (w & Hw & _).
  rewrite Hw at 2. rewrite length_app. lia.
Qed.

(** The head of a prefix. *)
Lemma trimEnd_head (c : N) (s : jsstring) :
  isWhiteSpace c = false -> exists s', trimEnd (c :: s) = c :: s'.
Proof.
  intros Hc. induction s as [|d s (s' & IH)] using rev_ind.
  - exists []. change [c] with ([] ++ [c]). by rewrite trimEnd_snoc, Hc.
  - rewrite app_comm_cons, trimEnd_snoc. destruct (isWhiteSpace d); eauto.
Qed.

Lemma trim_idem (s : jsstring) : trim (trim s) = trim s.
Proof.
  unfold trim. unfold trimStart at 1.
  pose proof (dropWhile_head isWhiteSpace s) as Hh. fold (trimStart s) in Hh.
  destruct (trimStart s) as [|c u] eqn:E; [reflexivity|].
  destruct (trimEnd_head c u Hh) as (u' & Hu'). rewrite Hu'.
  rewrite dropWhile_stop by assumption. rewrite <- Hu'. apply trimEnd_idem.
Qed.

Lemma trim_length (s : jsstring) : (length (trim s) <= length s)%nat.
Proof.
  unfold trim. etransitivity; [apply trimEnd_length|apply dropWhile_length].
Qed.

Lemma trim_app_ws (s w : jsstring) :
  forallb isWhiteSpace w = true -> trim (s ++ w) = trim s.
Proof.
  intros Hw. unfold trim, trimStart.
  destruct (dropWhile_suffix isWhiteSpace s) as (u & Hu & Hf).
  rewrite Hu at 1. rewrite <- app_assoc, dropWhile_all by assumption.
  destruct (dropWhile isWhiteSpace s) as [|c r] eqn:E.
  - cbn [app]. rewrite <- (app_nil_r w), dropWhile_all by assumption. reflexivity.
  - pose proof (dropWhile_head isWhiteSpace s) as Hh. rewrite E in Hh.
    cbn [app]. rewrite dropWhile_stop by assumption.
    rewrite app_comm_cons. by apply trimEnd_app_ws.
Qed.

Lemma forallb_dropWhile {A : Type} (f g : A -> bool) (l : list A) :
  forallb g l = true -> forallb g (dropWhile f l) = true.
Proof.
  induction l as [|x l IH]; simpl; [reflexivity|].
  intros H. apply andb_true_iff in H as [Hx Hl].
  destruct (f x); [by apply IH|]. simpl. by rewrite Hx, Hl.
Qed.

Lemma forallb_trim (g : N -> bool) (s : jsstring) :
  forallb g s = true -> forallb g (trim s) = true.
Proof.
  intros H. unfold trim.
  pose proof (forallb_dropWhile isWhiteSpace g s H) as H1. fold (trimStart s) in H1.
  destruct (trimEnd_prefix (trimStart s)) as (w & Hw & _).
  rewrite Hw, forallb_app in H1. by apply andb_true_iff in H1 as [? _].
Qed.

Lemma singleSpaced_tail (c : N) (s : jsstring) :
  Dedupe.singleSpaced (c :: s) = true -> Dedupe.singleSpaced s = true.
Proof. destruct s; simpl; [reflexivity|]. intros H. by apply andb_true_iff in H as [_ ?]. Qed.

Lemma singleSpaced_dropWhile (f : N -> bool) (s : jsstring) :
  Dedupe.singleSpaced s = true -> Dedupe.singleSpaced (dropWhile f s) = true.
Proof.
  induction s as [|c s IH]; [reflexivity|]. intros H. cbn [dropWhile].
  destruct (f c); [|exact H]. apply IH. by eapply singleSpaced_tail.
Qed.

Lemma singleSpaced_prefix (s w : jsstring) :
  Dedupe.singleSpaced (s ++ w) = true -> Dedupe.singleSpaced s = true.
Proof.
  induction s as [|c s IH]; [reflexivity|]. destruct s as [|d s]; [reflexivity|].
  cbn [app Dedupe.singleSpaced] in *. intros H.
  apply andb_true_iff in H as [H1 H2]. rewrite H1. by apply IH.
Qed.

Lemma singleSpaced_trim (s : jsstring) :
  Dedupe.singleSpaced s = true -> Dedupe.singleSpaced (trim s) = true.
Proof.
  intros H. unfold trim.
  pose proof (singleSpaced_dropWhile isWhiteSpace s H) as H1. fold (trimStart s) in H1.
  destruct (trimEnd_prefix (trimStart s)) as (w & Hw & _).
  rewrite Hw in H1. by eapply singleSpaced_prefix.
Qed.
End StringFacts.

(** ** Character classes *)
Section CharClasses.
Local Open Scope N_scope.

Lemma isWhiteSpace_spec (c : N) :
  isWhiteSpace c = true
  <-> (9 <= c <= 13 \/ c = 32 \/ c = 160 \/ c = 5760 \/ 8192 <= c <= 8202
       \/ c = 8232 \/ c = 8233 \/ c = 8239 \/ c = 8287 \/ c = 12288 \/ c = 65279).
Proof.
  unfold isWhiteSpace.
  rewrite !orb_true_iff, !andb_true_iff, !N.leb_le, !N.eqb_eq. tauto.
Qed.

Lemma isDigit_spec (c : N) : isDigit c = true <-> 48 <= c <= 57.
Proof. unfold isDigit. rewrite andb_true_iff, !N.leb_le. tauto. Qed.

Lemma isLower_spec (c : N) : isLower c = true <-> 97 <= c <= 122.
Proof. unfold isLower. rewrite andb_true_iff, !N.leb_le. tauto. Qed.

Lemma isUpper_spec (c : N) : isUpper c = true <-> 65 <= c <= 90.
Proof. unfold isUpper. rewrite andb_true_iff, !N.leb_le. tauto. Qed.

Lemma isWordChar_spec (c : N) :
  isWordChar c = true <-> (97 <= c <= 122 \/ 65 <= c <= 90 \/ 48 <= c <= 57 \/ c = 95).
Proof.
  unfold isWordChar.
  rewrite !orb_true_iff, isLower_spec, isUpper_spec, isDigit_spec, N.eqb_eq. tauto.
Qed.

Lemma isLetter_spec (c : N) :
  Dedupe.isLetter c = true <-> (97 <= c <= 122 \/ 65 <= c <= 90).
Proof. unfold Dedupe.isLetter. rewrite orb_true_iff, isLower_spec, isUpper_spec. tauto. Qed.

Lemma isClean_spec (c : N) :
  Dedupe.isClean c = true <-> (97 <= c <= 122 \/ 48 <= c <= 57 \/ c = 32).
Proof.
  unfold Dedupe.isClean.
  rewrite !orb_true_iff, isLower_spec, isDigit_spec, N.eqb_eq. tauto.
Qed.

Lemma isDash_spec (c : N) : Dedupe.isDash c = true <-> (c = 8211 \/ c = 8212 \/ c = 45).
Proof. unfold Dedupe.isDash. rewrite !orb_true_iff, !N.eqb_eq. tauto. Qed.

Lemma isBasicUnit_spec (c : N) :
  Dedupe.isBasicUnit c = true <-> (c < 128 \/ c = 8211 \/ c = 8212).
Proof. unfold Dedupe.isBasicUnit. rewrite !orb_true_iff, N.ltb_lt, !N.eqb_eq. tauto. Qed.

Lemma lowerUnit_spec (c : N) :
  (65 <= c <= 90 /\ Dedupe.lowerUnit c = c + 32)
  \/ (~ 65 <= c <= 90 /\ Dedupe.lowerUnit c = c).
Proof.
  unfold Dedupe.lowerUnit. destruct (isUpper c) eqn:E.
  - left. by apply isUpper_spec in E.
  - right. split; [|reflexivity]. rewrite <- isUpper_spec. congruence.
Qed.
End CharClasses.

(** Turns the class tests of the context and the goal into arithmetic. *)
Ltac class_arith :=
  repeat match goal with
         | H : _ = false |- _ => apply not_true_iff_false in H
         | |- _ = false => apply not_true_iff_false
         end;
  rewrite ?isWhiteSpace_spec, ?isDigit_spec, ?isLower_spec, ?isUpper_spec,
    ?isWordChar_spec, ?isClean_spec, ?isDash_spec, ?isBasicUnit_spec, ?isLetter_spec,
    ?N.eqb_eq in *;
  repeat match goal with
         | |- context [Dedupe.lowerUnit ?c] =>
             let H := fresh in
             destruct (lowerUnit_spec c) as [[? H]|[? H]]; rewrite H in *; clear H
         | H : context [Dedupe.lowerUnit ?c] |- _ =>
             let H' := fresh in
             destruct (lowerUnit_spec c) as [[? H']|[? H']]; rewrite H' in *; clear H'
         end;
  lia.

Section CleanStrings.
Import Dedupe.

Lemma forallb_keepAlnumSpace (s : jsstring) :
  forallb (fun c => isLower c || isDigit c || isWhiteSpace c) (keepAlnumSpace s) = true.
Proof.
  unfold keepAlnumSpace. induction s as [|c s IH]; [reflexivity|]. cbn [List.filter].
  destruct (isLower c || isDigit c || isWhiteSpace c) eqn:E; [|exact IH].
  cbn [forallb]. by rewrite E, IH.
Qed.

Lemma keepAlnumSpace_id (s : jsstring) :
  forallb isClean s = true -> keepAlnumSpace s = s.
Proof.
  unfold keepAlnumSpace. induction s as [|c s IH]; [reflexivity|]. cbn [forallb List.filter].
  intros H. apply andb_true_iff in H as [Hc Hs]. rewrite (IH Hs).
  replace (isLower c || isDigit c || isWhiteSpace c) with true; [reflexivity|].
  symmetry. rewrite !orb_true_iff. rewrite isLower_spec, isDigit_spec, isWhiteSpace_spec.
  apply isClean_spec in Hc. lia.
Qed.

Lemma keepAlnumSpace_length (s : jsstring) :
  (length (keepAlnumSpace s) <= length s)%nat.
Proof.
  unfold keepAlnumSpace. induction s as [|c s IH]; [reflexivity|]. cbn [List.filter].
  destruct (_ || _); cbn [length]; lia.
Qed.


Lemma singleSpaced_cons (c d : N) (r : jsstring) :
  singleSpaced (c :: d :: r)
  = negb ((c =? 32) && (d =? 32))%N && singleSpaced (d :: r).
Proof. reflexivity. Qed.

Lemma collapseFrom_clean (inRun : bool) (s : jsstring) :
  forallb (fun c => isLower c || isDigit c || isWhiteSpace c) s = true ->
  forallb isClean (collapseFrom inRun s) = true
  /\ singleSpaced (collapseFrom inRun s) = true
  /\ (inRun = true -> headNotSpace (collapseFrom inRun s) = true).
Proof.
  revert inRun. induction s as [|c s IH]; intros inRun H; [by repeat split|].
  cbn [forallb] in H. apply andb_true_iff in H as [Hc Hs].
  cbn [collapseFrom]. destruct (isWhiteSpace c) eqn:Ews.
  - destruct (IH true Hs) as (H1 & H2 & H3). specialize (H3 eq_refl).
    destruct inRun; [by repeat split|].
    cbn [forallb]. split; [by rewrite H1|]. split; [|discriminate].
    destruct (collapseFrom true s) as [|d r]; [reflexivity|].
    rewrite singleSpaced_cons, H2. cbn [headNotSpace] in H3.
    apply negb_true_iff in H3. rewrite H3. reflexivity.
  - destruct (IH false Hs) as (H1 & H2 & _).
    assert (Hclean : isClean c = true).
    { rewrite !orb_true_iff in Hc. unfold isClean. rewrite !orb_true_iff.
      destruct Hc as [[?|?]|?]; [tauto|tauto|congruence]. }
    assert (Hne : (c =? 32)%N = false) by class_arith.
    cbn [forallb]. rewrite Hclean, H1. split; [reflexivity|]. split.
    + destruct (collapseFrom false s) as [|d r]; [reflexivity|].
      by rewrite singleSpaced_cons, Hne, H2.
    + intros _. cbn [headNotSpace]. by rewrite Hne.
Qed.

Lemma collapseFrom_id (inRun : bool) (s : jsstring) :
  forallb isClean s = true -> singleSpaced s = true ->
  (inRun = true -> headNotSpace s = true) ->
  collapseFrom inRun s = s.
Proof.
  revert inRun. induction s as [|c s IH]; intros inRun Hc Hs Hh; [reflexivity|].
  cbn [forallb] in Hc. apply andb_true_iff in Hc as [Hc Hcs].
  pose proof (singleSpaced_tail _ _ Hs) as Hs'.
  cbn [collapseFrom]. destruct (isWhiteSpace c) eqn:Ews.
  - assert (c = 32%N) as -> by class_arith.
    destruct inRun; [specialize (Hh eq_refl); discriminate|].
    f_equal. apply IH; [assumption..|]. intros _.
    destruct s as [|d r]; [reflexivity|]. rewrite singleSpaced_cons in Hs.
    apply andb_true_iff in Hs as [Hs _]. cbn [headNotSpace].
    by destruct (d =? 32)%N.
  - f_equal. apply IH; [assumption..|discriminate].
Qed.

Lemma collapseFrom_length (inRun : bool) (s : jsstring) :
  (length (collapseFrom inRun s) <= length s)%nat.
Proof.
  revert inRun. induction s as [|c s IH]; intros inRun; [reflexivity|].
  cbn [collapseFrom]. destruct (isWhiteSpace c), inRun; cbn [length];
    try (specialize (IH true); lia); specialize (IH false); lia.
Qed.

Lemma headNotSpace_trim (s : jsstring) : headNotSpace (trim s) = true.
Proof.
  unfold trim. pose proof (dropWhile_head isWhiteSpace s) as Hh.
  fold (trimStart s) in Hh. destruct (trimStart s) as [|c u]; [reflexivity|].
  destruct (trimEnd_head c u Hh) as (u' & ->). cbn [headNotSpace].
  apply negb_true_iff. class_arith.
Qed.

(** The result of steps 5 to 7 is in normal form. *)
Lemma normalizeLowered_NormalForm (lowered : jsstring) :
  NormalForm (normalizeLowered lowered).
Proof.
  unfold normalizeLowered, collapseSpaces.
  set (u := stripSuffixes _).
  destruct (collapseFrom_clean false _ (forallb_keepAlnumSpace u)) as (H1 & H2 & _).
  split; [by apply forallb_trim|]. split; [by apply singleSpaced_trim|apply trim_idem].
Qed.

Lemma stripGroups_id (opening closing : N) (s : jsstring) :
  forallb (fun c => negb (c =? opening)%N) s = true ->
  stripGroups opening closing false s = s.
Proof.
  induction s as [|c s IH]; [reflexivity|]. cbn [forallb stripGroups].
  intros H. apply andb_true_iff in H as [Hc Hs]. apply negb_true_iff in Hc.
  rewrite Hc. cbn [andb]. f_equal. by apply IH.
Qed.

Lemma forallb_impl {A : Type} (f g : A -> bool) (l : list A) :
  (forall x, f x = true -> g x = true) -> forallb f l = true -> forallb g l = true.
Proof.
  intros Hfg. induction l as [|x l IH]; [reflexivity|]. cbn [forallb].
  intros H. apply andb_true_iff in H as [Hx Hl]. by rewrite (Hfg x Hx), IH.
Qed.

Lemma map_id_on {A : Type} (f : A -> A) (g : A -> bool) (l : list A) :
  (forall x, g x = true -> f x = x) -> forallb g l = true -> map f l = l.
Proof.
  intros Hfg. induction l as [|x l IH]; [reflexivity|]. cbn [forallb map].
  intros H. apply andb_true_iff in H as [Hx Hl]. by rewrite (Hfg x Hx), IH.
Qed.

(** Steps 1 to 3 and 5 to 7 leave a normal form as it is. *)
Lemma NormalForm_steps (s : jsstring) :
  NormalForm s ->
  map lowerUnit s = s
  /\ forallb isBasicUnit s = true
  /\ replaceDashes s = s
  /\ stripParens s = s
  /\ stripBrackets s = s
  /\ trim (collapseSpaces (keepAlnumSpace s)) = s.
Proof.
  intros (Hc & Hs & Ht).
  split; [|split; [|split; [|split; [|split]]]].
  - apply (map_id_on _ isClean); [|exact Hc]. intros c H. class_arith.
  - apply (forallb_impl isClean); [|exact Hc]. intros c H. class_arith.
  - unfold replaceDashes. apply (map_id_on _ isClean); [|exact Hc].
    intros c H. replace (isDash c) with false; [reflexivity|]. symmetry. class_arith.
  - apply stripGroups_id. apply (forallb_impl isClean); [|exact Hc].
    intros c H. apply negb_true_iff. class_arith.
  - apply stripGroups_id. apply (forallb_impl isClean); [|exact Hc].
    intros c H. apply negb_true_iff. class_arith.
  - rewrite keepAlnumSpace_id by assumption. unfold collapseSpaces.
    rewrite collapseFrom_id; [exact Ht|assumption..|discriminate].
Qed.
End CleanStrings.

(** ** Stripping annotations only shortens *)
Section SuffixPrefix.
Import Dedupe.

Lemma stripSuffixFrom_prefix (suffix : jsstring) (prevIsWord : bool) (s : jsstring) :
  exists w, s = stripSuffixFrom suffix prevIsWord s ++ w.
Proof.
  revert prevIsWord. induction s as [|c s IH]; intros prevIsWord; [by exists []|].
  cbn [stripSuffixFrom]. destruct (_ && _); [by exists (c :: s)|].
  destruct (IH (isWordChar c)) as (w & Hw). exists w. cbn [app]. by f_equal.
Qed.

Lemma stripSuffixes_prefix (s : jsstring) : exists w, s = stripSuffixes s ++ w.
Proof.
  unfold stripSuffixes. generalize sortedSuffixes. intros l. revert s.
  induction l as [|suffix l IH]; intros s; cbn [fold_left]; [exists []; by rewrite app_nil_r|].
  destruct (IH (stripSuffix suffix s)) as (w & Hw).
  destruct (stripSuffixFrom_prefix suffix false s) as (w' & Hw').
  exists (w ++ w'). rewrite app_assoc, <- Hw. exact Hw'.
Qed.

Lemma normalizeLowered_length (lowered : jsstring) :
  (length (normalizeLowered lowered)
   <= length (stripSuffixes (prepare lowered)))%nat.
Proof.
  unfold normalizeLowered, collapseSpaces.
  etransitivity; [apply trim_length|].
  etransitivity; [apply collapseFrom_length|apply keepAlnumSpace_length].
Qed.
End SuffixPrefix.

(** ** normalizeTitle applied twice *)
Section Idempotence.
Import Dedupe.
Variable toLowerCase : jsstring -> jsstring.
Hypothesis toLowerCase_spec : LowerCaseSpec toLowerCase.

Lemma normalizeTitle_NormalForm (title : jsstring) :
  NormalForm (normalizeTitle toLowerCase title).
Proof.
  destruct title as [|c title]; [by repeat split|].
  apply normalizeLowered_NormalForm.
Qed.

(** On a normal form only step 4 can still change something. *)
Lemma normalizeTitle_on_NormalForm (s : jsstring) :
  NormalForm s ->
  normalizeTitle toLowerCase s = trim (collapseSpaces (keepAlnumSpace (stripSuffixes s))).
Proof.
  intros Hn. destruct (NormalForm_steps s Hn) as (Hl & Hb & Hd & Hp & Hk & _).
  destruct s as [|c s]; [reflexivity|].
  unfold normalizeTitle, normalizeLowered.
  unfold prepare. rewrite (toLowerCase_spec _ Hb), Hl, Hd, Hp, Hk. reflexivity.
Qed.

(** C4, as the code has it: a second application of [normalizeTitle]
    changes nothing exactly when the first result has no trailing
    annotation left for step 4 to strip, that is when [stripSuffixes] leaves
    [normalizeTitle(x)] as it is. *)
Theorem normalizeTitle_idempotent_iff (x : jsstring) :
  normalizeTitle toLowerCase (normalizeTitle toLowerCase x) = normalizeTitle toLowerCase x
  <-> stripSuffixes (normalizeTitle toLowerCase x) = normalizeTitle toLowerCase x.
Proof.
  pose proof (normalizeTitle_NormalForm x) as Hn.
  set (y := normalizeTitle toLowerCase x) in *.
  rewrite (normalizeTitle_on_NormalForm y Hn).
  split.
  - intros H.
    destruct (stripSuffixes_prefix y) as (w & Hw).
    assert (Hlen : (length y <= length (stripSuffixes y))%nat).
    { rewrite <- H at 1. etransitivity; [apply trim_length|].
      etransitivity; [apply collapseFrom_length|apply keepAlnumSpace_length]. }
    assert (w = []) as ->.
    { apply (f_equal (@length N)) in Hw. rewrite length_app in Hw.
      destruct w; [reflexivity|]. cbn [length] in Hw. lia. }
    by rewrite app_nil_r in Hw.
  - intros ->. by destruct (NormalForm_steps y Hn) as (_ & _ & _ & _ & _ & ?).
Qed.
End Idempotence.


(** ** Titles of Basic Latin characters *)
Section BasicTitles.
Import Dedupe.
Variable toLowerCase : jsstring -> jsstring.
Hypothesis toLowerCase_spec : LowerCaseSpec toLowerCase.

(** On such a title the host's [toLowerCase] is the unit-wise one. *)
Lemma normalizeTitle_basic (title : jsstring) :
  forallb isBasicUnit title = true ->
  normalizeTitle toLowerCase title = normalizeTitle toLowerCaseBasic title.
Proof.
  intros H. destruct title as [|c title]; [reflexivity|].
  unfold normalizeTitle. by rewrite (toLowerCase_spec _ H).
Qed.

Lemma toLowerCase_nil : toLowerCase [] = [].
Proof. by rewrite (toLowerCase_spec [] eq_refl). Qed.

(** Titles with the same lower-case form normalise alike. *)
Lemma normalizeTitle_same_lower (x y : jsstring) :
  toLowerCase x = toLowerCase y ->
  normalizeTitle toLowerCase x = normalizeTitle toLowerCase y.
Proof.
  intros H. destruct x as [|c x], y as [|d y]; cbn [normalizeTitle]; try reflexivity.
  - rewrite <- H, toLowerCase_nil. reflexivity.
  - rewrite H, toLowerCase_nil. reflexivity.
  - by rewrite H.
Qed.

End BasicTitles.

(** ** Lists cut at a separator *)
Section ListCuts.
Context {A : Type}.

(** The first element outside a class decides where a list is cut. *)
Lemma cut_left (P : A -> bool) (u u' v v' : list A) (c c' : A) :
  u ++ c :: v = u' ++ c' :: v' ->
  forallb P u = true -> forallb P u' = true -> P c = false -> P c' = false ->
  u = u' /\ c = c' /\ v = v'.
Proof.
  revert u'. induction u as [|x u IH]; intros [|x' u'] H Hu Hu' Hc Hc';
    cbn [app forallb] in *.
  - by injection H as -> ->.
  - injection H as -> _. apply andb_true_iff in Hu' as [Hx _]. congruence.
  - injection H as -> _. apply andb_true_iff in Hu as [Hx _]. congruence.
  - injection H as -> H. apply andb_true_iff in Hu as [_ Hu].
    apply andb_true_iff in Hu' as [_ Hu'].
    destruct (IH u' H Hu Hu' Hc Hc') as (-> & -> & ->). auto.
Qed.




End ListCuts.

(** ** Where an annotation pattern matches *)
Section SuffixMatch.
Import Dedupe.




Lemma matchTail_after_ws (w r : jsstring) :
  forallb isWhiteSpace w = true -> w <> [] ->
  forallb isWhiteSpace r = false -> matchTail r = true -> matchTail (w ++ r) = true.
Proof.
  intros Hw Hne Hr H. unfold matchTail in *.
  rewrite dropWhile_all by assumption.
  destruct (dropWhile isWhiteSpace r) as [|c r1] eqn:E; [reflexivity|].
  apply andb_true_iff in H as [H H3]. apply andb_true_iff in H as [H1 H2].
  rewrite H2, H3, !andb_true_r. apply Nat.ltb_lt. apply Nat.ltb_lt in H1.
  rewrite length_app. lia.
Qed.







End SuffixMatch.

(** ** The last word of a title *)
Section LastWord.
Import Dedupe.






End LastWord.

(** ** The table of annotation tokens *)
Section TokenTable.
Import Dedupe.









End TokenTable.

(** ** A title without annotation, and one annotation after it *)
Section TrailingAnnotation.
Import Dedupe.








End TrailingAnnotation.

(** ** Steps 2, 3, 5, 6 and 7 on a title and what follows it *)
Section Appended.
Import Dedupe.





Lemma collapseFrom_ws (inRun : bool) (w : jsstring) :
  forallb isWhiteSpace w = true -> forallb isWhiteSpace (collapseFrom inRun w) = true.
Proof.
  revert inRun. induction w as [|c w IH]; intros inRun H; [reflexivity|].
  cbn [forallb] in H. apply andb_true_iff in H as [Hc Hw].
  cbn [collapseFrom]. rewrite Hc. destruct inRun; [by apply IH|].
  cbn [forallb]. by rewrite IH.
Qed.

Lemma collapseFrom_app_ws (inRun : bool) (u w : jsstring) :
  forallb isWhiteSpace w = true ->
  exists w', collapseFrom inRun (u ++ w) = collapseFrom inRun u ++ w'
             /\ forallb isWhiteSpace w' = true.
Proof.
  intros Hw. revert inRun. induction u as [|c u IH]; intros inRun.
  - exists (collapseFrom inRun w). split; [reflexivity|by apply collapseFrom_ws].
  - cbn [app collapseFrom]. destruct (isWhiteSpace c), inRun.
    + apply IH.
    + destruct (IH true) as (w' & -> & H). by exists w'.
    + destruct (IH false) as (w' & -> & H). by exists w'.
    + destruct (IH false) as (w' & -> & H). by exists w'.
Qed.

End Appended.

(** ** A title and the same title with a trailing annotation *)
Section Annotated.
Import Dedupe.
Variable toLowerCase : jsstring -> jsstring.
Hypothesis toLowerCase_spec : LowerCaseSpec toLowerCase.


End Annotated.

(** ** A white-space run replaced by another *)
Section WhiteSpaceRuns.
Import Dedupe.






Lemma collapseFrom_run (inRun : bool) (r q : jsstring) :
  r <> [] -> forallb isWhiteSpace r = true ->
  collapseFrom inRun (r ++ q) = (if inRun then [] else [32%N]) ++ collapseFrom true q.
Proof.
  intros Hne Hr. revert inRun. induction r as [|c r IH]; intros inRun; [done|].
  cbn [forallb] in Hr. apply andb_true_iff in Hr as [Hc Hr].
  cbn [app collapseFrom]. rewrite Hc.
  destruct r as [|d r]; [by destruct inRun|].
  rewrite (IH ltac:(done) Hr true). by destruct inRun.
Qed.

Lemma collapseFrom_app (inRun : bool) (p s : jsstring) :
  exists inRun', forall s,
    collapseFrom inRun (p ++ s) = collapseFrom inRun p ++ collapseFrom inRun' s.
Proof.
  revert inRun. induction p as [|c p IH]; intros inRun.
  - by exists inRun.
  - cbn [app collapseFrom]. destruct (isWhiteSpace c), inRun.
    + apply IH.
    + destruct (IH true) as (b & H). exists b. intros s'. by rewrite H.
    + destruct (IH false) as (b & H). exists b. intros s'. by rewrite H.
    + destruct (IH false) as (b & H). exists b. intros s'. by rewrite H.
Qed.

End WhiteSpaceRuns.

Section WhiteSpaceTitles.
Import Dedupe.
Variable toLowerCase : jsstring -> jsstring.
Hypothesis toLowerCase_spec : LowerCaseSpec toLowerCase.

End WhiteSpaceTitles.

Section IdempotenceExamples.
Import Dedupe.

Lemma toLowerCaseBasic_spec : LowerCaseSpec toLowerCaseBasic.
Proof. intros s _. reflexivity. Qed.

Lemma normalizeTitle_idempotent_iff_witness :
  normalizeTitle toLowerCaseBasic
    (normalizeTitle toLowerCaseBasic (js "Every Breath I Take - Remastered"))
  = normalizeTitle toLowerCaseBasic (js "Every Breath I Take - Remastered").
Proof.
  apply (proj2 (normalizeTitle_idempotent_iff toLowerCaseBasic toLowerCaseBasic_spec
                  (js "Every Breath I Take - Remastered"))).
  vm_compute. reflexivity.
Defined.

(** C4 as stated fails when the first result still ends in an annotation:
    of ["a remix live"] step 4 strips only [live], since [remix] is tried
    before [live]; the result ["a remix"] then normalises to ["a"]. *)
Lemma normalizeTitle_not_idempotent :
  (forall toLowerCase : jsstring -> jsstring, LowerCaseSpec toLowerCase ->
     normalizeTitle toLowerCase (js "a remix live") = js "a remix"
     /\ normalizeTitle toLowerCase (normalizeTitle toLowerCase (js "a remix live"))
        = js "a")
  /\ js "a" <> js "a remix".
Proof.
  split; [|discriminate]. intros toLowerCase Hspec.
  assert (H1 : normalizeTitle toLowerCase (js "a remix live") = js "a remix").
  { rewrite (normalizeTitle_basic _ Hspec) by reflexivity. vm_compute. reflexivity. }
  split; [exact H1|]. rewrite H1.
  rewrite (normalizeTitle_basic _ Hspec) by reflexivity. vm_compute. reflexivity.
Qed.
End IdempotenceExamples.

(** ** Titles that differ in form only *)
Section Variants.
Import Dedupe.
Variable toLowerCase : jsstring -> jsstring.
Hypothesis toLowerCase_spec : LowerCaseSpec toLowerCase.

End Variants.

Section VariantExamples.
Import Dedupe.


End VariantExamples.

Section MergeExamples.
Import Server.

Lemma normalizeArtist_basic (toLowerCase : jsstring -> jsstring) (artist : jsstring) :
  Dedupe.LowerCaseSpec toLowerCase -> forallb Dedupe.isBasicUnit artist = true ->
  Dedupe.normalizeArtist toLowerCase artist
  = Dedupe.normalizeArtist Dedupe.toLowerCaseBasic artist.
Proof.
  intros Hspec H. destruct artist as [|c artist]; [reflexivity|].
  unfold Dedupe.normalizeArtist. by rewrite (Hspec _ H).
Qed.

Lemma mockPair_key (toLowerCase : jsstring -> jsstring) :
  Dedupe.LowerCaseSpec toLowerCase ->
  Dedupe.getPairKey toLowerCase (Some mockPair)
  = js "O:track 1|artist 1||S:track 2|artist 2".
Proof.
  intros Hspec.
  change (Dedupe.getPairKey toLowerCase (Some mockPair))
    with (js "O:"
          ++ (Dedupe.normalizeTitle toLowerCase (js "Track 1") ++ js "|"
              ++ Dedupe.normalizeArtist toLowerCase (js "Artist 1"))
          ++ js "||S:"
          ++ (Dedupe.normalizeTitle toLowerCase (js "Track 2") ++ js "|"
              ++ Dedupe.normalizeArtist toLowerCase (js "Artist 2"))).
  rewrite !(normalizeTitle_basic _ Hspec), !(normalizeArtist_basic _ _ Hspec)
    by reflexivity.
  vm_compute. reflexivity.
Qed.

Lemma merge_keeps_first_occurrence_witness :
  Some mockPair ∈ [Some mockPair; None]
  /\ firstWithKey Dedupe.toLowerCaseBasic
       (Dedupe.getPairKey Dedupe.toLowerCaseBasic (Some mockPair))
       (merge Dedupe.toLowerCaseBasic [Some mockPair; None] [Some mockPair])
     = firstWithKey Dedupe.toLowerCaseBasic
         (Dedupe.getPairKey Dedupe.toLowerCaseBasic (Some mockPair))
         [Some mockPair; None].
Proof.
  split; [left|].
  apply (proj1 (proj2 (proj2 (proj2 (proj2 (proj2
           (merge_keeps_first_occurrence Dedupe.toLowerCaseBasic
              [Some mockPair; None] [Some mockPair]))))))).
  - left.
  - vm_compute. discriminate.
Defined.

(** C6 as stated fails on a pair object without tracks: its key is
    ["O:||S:"], not the empty string, and the merge keeps it. *)
Lemma merge_keeps_trackless_pair :
  (forall toLowerCase : jsstring -> jsstring,
     Dedupe.getPairKey toLowerCase (Some tracklessPair) = js "O:||S:"
     /\ merge toLowerCase [] [Some tracklessPair] = [Some tracklessPair])
  /\ js "O:||S:" <> [].
Proof. split; [|discriminate]. intros toLowerCase. split; vm_compute; reflexivity. Qed.

Lemma merge_identity_idempotent_witness :
  merge Dedupe.toLowerCaseBasic [Some mockPair; Some tracklessPair] []
  = [Some mockPair; Some tracklessPair]
  /\ merge Dedupe.toLowerCaseBasic [Some mockPair; Some tracklessPair]
                                   [Some mockPair; Some tracklessPair]
     = [Some mockPair; Some tracklessPair].
Proof.
  apply (proj1 (merge_identity_idempotent Dedupe.toLowerCaseBasic
                 [Some mockPair; Some tracklessPair])).
  - vm_compute. repeat constructor; set_solver.
  - intros p Hp. repeat (apply elem_of_cons in Hp as [->|Hp]; [vm_compute; discriminate|]).
    by apply elem_of_nil in Hp.
Defined.

(** C5 as stated fails on a stored list that holds a pair twice, or a
    [null] entry: [merge(S, [])] drops the second copy and the [null]. *)
Lemma merge_drops_stored_duplicate :
  (forall toLowerCase : jsstring -> jsstring, Dedupe.LowerCaseSpec toLowerCase ->
     merge toLowerCase [Some mockPair; Some mockPair; None] [] = [Some mockPair])
  /\ [Some mockPair] <> [Some mockPair; Some mockPair; None].
Proof.
  split; [|discriminate]. intros toLowerCase Hspec.
  rewrite merge_keepFirst. cbn [app keepFirst].
  rewrite (mockPair_key toLowerCase Hspec). vm_compute. reflexivity.
Qed.
End MergeExamples.

(** * Further properties *)

(** ** Numerals written and read back *)
Section Numerals.


Lemma digitsBefore_spec (fuel : nat) (n : Z) (acc : jsstring) :
  0 <= n < 2 ^ Z.of_nat fuel -> (0 < fuel)%nat ->
  exists ds, digitsBefore fuel n acc = ds ++ acc
             /\ ds <> [] /\ forallb isDigit ds = true /\ digitsValue 0 ds = n.
Proof.
  revert n acc. induction fuel as [|fuel IH]; intros n acc Hn Hf; [lia|].
  cbn [digitsBefore].
  assert (Hd : 0 <= n mod 10 < 10) by (apply Z.mod_pos_bound; lia).
  assert (Hdigit : isDigit (Z.to_N (48 + n mod 10)) = true).
  { clear - Hd. unfold isDigit. apply andb_true_iff. split; apply N.leb_le; lia. }
  assert (Hval : Z.of_N (Z.to_N (48 + n mod 10)) - 48 = n mod 10) by (clear - Hd; lia).
  destruct (Z.eqb_spec (n / 10) 0) as [Hz|Hz].
  - exists [Z.to_N (48 + n mod 10)]. split; [reflexivity|]. split; [done|].
    split; [by cbn; rewrite Hdigit|]. unfold digitsValue. cbn [fold_left].
    rewrite Hval. pose proof (Z.div_mod n 10). lia.
  - assert (Hq : 0 < n / 10) by (pose proof (Z.div_pos n 10); lia).
    assert (Hfuel : (0 < fuel)%nat).
    { destruct fuel; [|lia]. exfalso. apply Hz, Z.div_small.
      change (2 ^ Z.of_nat 1) with 2 in Hn. lia. }
    destruct (IH (n / 10) (Z.to_N (48 + n mod 10) :: acc)) as (ds & -> & Hne & Hds & Hv);
      [|exact Hfuel|].
    { split; [lia|]. rewrite Nat2Z.inj_succ, Z.pow_succ_r in Hn by lia.
      apply Z.div_lt_upper_bound; lia. }
    exists (ds ++ [Z.to_N (48 + n mod 10)]). rewrite <- app_assoc. split; [reflexivity|].
    split; [by destruct ds|]. split.
    + rewrite forallb_app, Hds. cbn. by rewrite Hdigit.
    + unfold digitsValue in *. rewrite fold_left_app. cbn [fold_left]. rewrite Hv, Hval.
      pose proof (Z.div_mod n 10). lia.
Qed.

Lemma parseDigits_digits (ds rest : jsstring) (acc : option Z) :
  forallb isDigit ds = true -> ds <> [] ->
  parseDigits 10 (ds ++ rest) acc
  = parseDigits 10 rest (Some (digitsValue (default 0 acc) ds)).
Proof.
  revert acc. induction ds as [|d ds IH]; intros acc Hds Hne; [done|].
  cbn [forallb] in Hds. apply andb_true_iff in Hds as [Hd Hds].
  cbn [app parseDigits]. unfold digitValue. rewrite Hd.
  assert (H10 : Z.of_N d - 48 <? 10 = true).
  { apply Z.ltb_lt. unfold isDigit in Hd. apply andb_true_iff in Hd as [_ H].
    apply N.leb_le in H. lia. }
  rewrite H10. destruct ds as [|d' ds].
  - reflexivity.
  - rewrite IH by done. reflexivity.
Qed.

Lemma log2_fuel (n : Z) : 0 <= n -> 0 <= n < 2 ^ Z.of_nat (S (Z.to_nat (Z.log2 n))).
Proof.
  intros Hn. split; [exact Hn|].
  rewrite Nat2Z.inj_succ, Z2Nat.id by apply Z.log2_nonneg.
  destruct (Z.eq_dec n 0) as [->|]; [reflexivity|].
  apply Z.log2_spec. lia.
Qed.

Lemma numberToString_digits (n : Z) :
  0 <= n ->
  exists d ds, numberToString n = d :: ds /\ forallb isDigit (d :: ds) = true
               /\ digitsValue 0 (d :: ds) = n.
Proof.
  intros Hn. unfold numberToString.
  destruct (Z.ltb_spec n 0); [lia|].
  destruct (digitsBefore_spec _ n [] (log2_fuel n Hn)) as (ds & -> & Hne & Hds & Hv); [lia|].
  rewrite app_nil_r. destruct ds as [|d ds]; [done|]. by exists d, ds.
Qed.

Lemma numberToString_negative (n : Z) :
  n < 0 -> numberToString n = 45%N :: numberToString (- n).
Proof.
  intros Hn. unfold numberToString.
  destruct (Z.ltb_spec n 0); [|lia]. destruct (Z.ltb_spec (- n) 0); [lia|]. reflexivity.
Qed.

Lemma digit_cases (d : N) :
  isDigit d = true -> In d [48; 49; 50; 51; 52; 53; 54; 55; 56; 57]%N.
Proof.
  unfold isDigit. rewrite andb_true_iff, !N.leb_le. cbn [In]. lia.
Qed.

Lemma parseInt_digits (d : N) (ds : jsstring) :
  forallb isDigit (d :: ds) = true ->
  parseInt (d :: ds) = Some (digitsValue 0 (d :: ds))
  /\ parseInt (45%N :: d :: ds) = Some (- digitsValue 0 (d :: ds)).
Proof.
  intros Hall.
  assert (Hparse : parseDigits 10 (d :: ds) None = Some (digitsValue 0 (d :: ds))).
  { rewrite <- (app_nil_r (d :: ds)) at 1. by rewrite parseDigits_digits. }
  cbn [forallb] in Hall. apply andb_true_iff in Hall as [Hd Hds].
  assert (Hone : forall x : Z, 1 * x = x) by (intros; lia).
  assert (Hneg : forall x : Z, -1 * x = - x) by (intros; lia).
  assert (Hnws : isWhiteSpace d = false).
  { apply digit_cases in Hd. cbn [In] in Hd.
    repeat (destruct Hd as [<-|Hd]; [reflexivity|]). contradiction. }
  assert (Hminus : isWhiteSpace 45%N = false) by reflexivity.
  unfold parseInt, trimStart. cbn [dropWhile]. rewrite Hnws, Hminus.
  apply digit_cases in Hd. cbn [In] in Hd.
  destruct Hd as [<-|Hd].
  - destruct ds as [|d' ds]; [split; reflexivity|].
    cbn [forallb] in Hds. apply andb_true_iff in Hds as [Hd' _].
    apply digit_cases in Hd'. cbn [In] in Hd'.
    repeat (destruct Hd' as [<-|Hd']; [
      split; cbv beta iota zeta; rewrite Hparse, ?Hone, ?Hneg; reflexivity|]).
    contradiction.
  - repeat (destruct Hd as [<-|Hd]; [
      split; cbv beta iota zeta; rewrite Hparse, ?Hone, ?Hneg; reflexivity|]).
    contradiction.
Qed.

Lemma parseInt_numberToString (n : Z) : parseInt (numberToString n) = Some n.
Proof.
  destruct (Z.ltb_spec n 0) as [Hn|Hn].
  - rewrite (numberToString_negative n Hn).
    destruct (numberToString_digits (- n)) as (d & ds & -> & Hds & Hv); [lia|].
    rewrite (proj2 (parseInt_digits d ds Hds)), Hv. f_equal. lia.
  - destruct (numberToString_digits n Hn) as (d & ds & -> & Hds & Hv).
    by rewrite (proj1 (parseInt_digits d ds Hds)), Hv.
Qed.

Lemma trim_no_ws (s : jsstring) : existsb isWhiteSpace s = false -> trim s = s.
Proof.
  intros H. unfold trim, trimStart.
  assert (Hs : dropWhile isWhiteSpace s = s).
  { destruct s as [|c s]; [reflexivity|]. cbn [existsb] in H.
    apply orb_false_iff in H as [Hc _]. by apply dropWhile_stop. }
  rewrite Hs. clear Hs. induction s as [|c s IH] using rev_ind; [reflexivity|].
  rewrite existsb_app in H. apply orb_false_iff in H as [_ Hc]. cbn [existsb] in Hc.
  rewrite orb_false_r in Hc. by rewrite trimEnd_snoc, Hc.
Qed.

Lemma digits_no_ws (ds : jsstring) :
  forallb isDigit ds = true -> existsb isWhiteSpace ds = false.
Proof.
  induction ds as [|d ds IH]; [reflexivity|]. cbn [forallb existsb].
  intros H. apply andb_true_iff in H as [Hd Hds]. rewrite (IH Hds), orb_false_r.
  apply digit_cases in Hd. cbn [In] in Hd.
  repeat (destruct Hd as [<-|Hd]; [reflexivity|]). contradiction.
Qed.

Lemma trim_numberToString (n : Z) : trim (numberToString n) = numberToString n.
Proof.
  apply trim_no_ws. destruct (Z.ltb_spec n 0) as [Hn|Hn].
  - rewrite (numberToString_negative n Hn).
    destruct (numberToString_digits (- n)) as (d & ds & -> & Hds & _); [lia|].
    cbn [existsb]. rewrite <- (digits_no_ws _ Hds). reflexivity.
  - destruct (numberToString_digits n Hn) as (d & ds & -> & Hds & _).
    by apply digits_no_ws.
Qed.
End Numerals.

(** ** Sorting a sorted list *)
Section SortedLists.
Context {A : Type} (key : A -> Z).

Lemma sortBy_Sorted_id (l : list A) : Sorted (keyLe key) l -> sortBy key l = l.
Proof.
  induction 1 as [|x l Hs IH Hhd]; [reflexivity|].
  cbn [sortBy foldr]. fold (sortBy key l). rewrite IH.
  destruct Hhd as [|y l Hxy]; [reflexivity|]. cbn [insertBy].
  unfold keyLe in Hxy. apply Z.leb_le in Hxy. by rewrite Hxy.
Qed.
End SortedLists.

(** ** normalizePlan applied twice *)
Section NormalizeTwice.
Import PairingPlan.
Variable trackCount : Z.

Lemma clamp_clamp (x : Z) : clamp trackCount (clamp trackCount x) = clamp trackCount x.
Proof. unfold clamp. lia. Qed.

Lemma normalizeTrio_rawTrio (trio : TrioOverride) :
  normalizeTrio trackCount (rawTrio trio)
  = Some (mkTrio (clamp trackCount (original trio)) (clamp trackCount (sampleA trio))
                 (clamp trackCount (sampleB trio))).
Proof.
  unfold normalizeTrio, rawTrio. cbn [Raw.original Raw.sampleA Raw.sampleB].
  by rewrite !trim_numberToString, !parseInt_numberToString.
Qed.

Lemma parseMapping_mappingName (mapping : MappingType) :
  parseMapping (mappingName mapping) = Some mapping.
Proof. destruct mapping; vm_compute; reflexivity. Qed.

Lemma normalizeRange_rawRange (range : RangeRule) :
  start range <= end_ range ->
  normalizeRange trackCount (rawRange range)
  = Some (mkRange (clamp trackCount (start range)) (clamp trackCount (end_ range))
                  (mapping range)).
Proof.
  intros Hle. unfold normalizeRange, rawRange. cbn [Raw.start Raw.end_ Raw.mapping].
  rewrite !trim_numberToString, !parseInt_numberToString, parseMapping_mappingName.
  destruct (Z.gtb_spec (start range) (end_ range)); [lia|]. reflexivity.
Qed.

Lemma dropNull_map_Some {A B : Type} (f : A -> option B) (g : A -> B) (l : list A) :
  (forall x, x ∈ l -> f x = Some (g x)) -> dropNull (map f l) = map g l.
Proof.
  induction l as [|a l IH]; intros H; [reflexivity|]. cbn [map dropNull].
  rewrite (H a) by set_solver. f_equal. apply IH. intros x Hx. apply H. set_solver.
Qed.

Lemma map_fixed {A : Type} (g : A -> A) (l : list A) :
  (forall x, x ∈ l -> g x = x) -> map g l = l.
Proof.
  induction l as [|a l IH]; intros H; [reflexivity|]. cbn [map].
  rewrite (H a) by set_solver. f_equal. apply IH. intros x Hx. apply H. set_solver.
Qed.

(** [normalizePlan] leaves a plan as it is when the plan is what the
    function makes: positions that the clamp does not move, ranges with
    [start <= end] in ascending order of [start]. *)
Lemma normalizePlan_fixed (plan : PairingPlan) :
  (forall trio x, trio ∈ trios plan -> x ∈ trioPositions trio -> clamp trackCount x = x) ->
  (forall range, range ∈ ranges plan ->
     clamp trackCount (start range) = start range
     /\ clamp trackCount (end_ range) = end_ range
     /\ start range <= end_ range) ->
  Sorted (keyLe start) (ranges plan) ->
  normalizePlan (rawPlan plan) trackCount = plan.
Proof.
  intros Ht Hr Hs. destruct plan as [ts rs]. cbn [trios ranges] in *.
  unfold normalizePlan, rawPlan. cbn [Raw.trios Raw.ranges from_option id trios ranges]. rewrite !map_map.
  f_equal.
  - rewrite (dropNull_map_Some _ _ ts (fun trio _ => normalizeTrio_rawTrio trio)).
    apply map_fixed. intros [o a b] Hin. unfold trioPositions in Ht.
    cbn [original sampleA sampleB].
    rewrite !(Ht _ _ Hin); cbn [original sampleA sampleB]; [reflexivity|set_solver..].
  - rewrite (dropNull_map_Some _ (fun range =>
               mkRange (clamp trackCount (start range)) (clamp trackCount (end_ range))
                       (mapping range))).
    + rewrite map_fixed; [by apply sortBy_Sorted_id|].
      intros [s e m] Hin. destruct (Hr _ Hin) as (H1 & H2 & _).
      cbn [start end_ mapping] in *. by rewrite H1, H2.
    + intros range Hin. apply normalizeRange_rawRange. by apply Hr.
Qed.

(** X4.  Normalising twice is normalising once: a plan that [normalizePlan]
    returned, read again as a plan object, comes back unchanged, whatever
    the raw plan and the track count were. *)
Theorem normalizePlan_idempotent (raw : Raw.Plan) :
  normalizePlan (rawPlan (normalizePlan raw trackCount)) trackCount
  = normalizePlan raw trackCount.
Proof.
  apply normalizePlan_fixed.
  - intros trio x Hin Hx. cbn [normalizePlan trios] in Hin.
    apply elem_of_dropNull in Hin as (r & _ & Hn).
    apply normalizeTrio_Some in Hn as (o & a & b & _ & _ & _ & ->).
    unfold trioPositions in Hx. cbn [original sampleA sampleB] in Hx.
    repeat (apply elem_of_cons in Hx as [->|Hx]; [apply clamp_clamp|]).
    by apply elem_of_nil in Hx.
  - intros range Hin. cbn [normalizePlan ranges] in Hin.
    rewrite (sortBy_Permutation start) in Hin.
    apply elem_of_dropNull in Hin as (r & _ & Hn).
    apply normalizeRange_Some in Hn as (s & e & m & _ & _ & _ & ->).
    cbn [start end_]. rewrite !clamp_clamp. split; [reflexivity|]. split; [reflexivity|].
    apply clamp_mono. lia.
  - apply sortBy_Sorted.
Qed.
End NormalizeTwice.

(** ** What validatePlan accepts *)
Section ValidateConverse.
Import PairingPlan.
Variable trackCount : Z.

Lemma trioOverlapErrors_fresh (tracks : list Z) (seen0 : gset Z) :
  NoDup tracks -> (forall x, x ∈ tracks -> x ∉ seen0) ->
  (trioOverlapErrors tracks seen0).1 = [].
Proof.
  revert seen0. induction tracks as [|t rest IH]; intros seen0 Hnd Hfresh; [reflexivity|].
  cbn [trioOverlapErrors]. apply NoDup_cons in Hnd as [Ht Hnd].
  specialize (IH ({[t]} ∪ seen0) Hnd).
  destruct (trioOverlapErrors rest ({[t]} ∪ seen0)) as [later seen]. cbn [fst] in *.
  rewrite decide_False by (apply Hfresh; set_solver). cbn [app]. apply IH.
  intros x Hx. specialize (Hfresh x). set_solver.
Qed.

Lemma trioOverlapErrors_seen (tracks : list Z) (seen0 : gset Z) :
  (trioOverlapErrors tracks seen0).2 = list_to_set tracks ∪ seen0.
Proof.
  revert seen0. induction tracks as [|t rest IH]; intros seen0; cbn [trioOverlapErrors].
  - set_solver.
  - specialize (IH ({[t]} ∪ seen0)).
    destruct (trioOverlapErrors rest ({[t]} ∪ seen0)) as [later seen]. cbn [snd] in *.
    rewrite IH. set_solver.
Qed.

Lemma checkTrios_seen (index : nat) (ts : list TrioOverride) (seen0 : gset Z) :
  (checkTrios trackCount index ts seen0).2
  = list_to_set (concat (map trioPositions ts)) ∪ seen0.
Proof.
  revert index seen0. induction ts as [|trio rest IH]; intros index seen0.
  - cbn. set_solver.
  - cbn [checkTrios]. unfold checkTrio.
    pose proof (trioOverlapErrors_seen (trioPositions trio) seen0) as Hs.
    destruct (trioOverlapErrors (trioPositions trio) seen0) as [ov seen]. cbn [snd] in Hs.
    specialize (IH (S index) seen).
    destruct (checkTrios trackCount (S index) rest seen) as [later seen']. cbn [snd] in *.
    rewrite IH, Hs. cbn [map concat]. rewrite list_to_set_app_L. set_solver.
Qed.

Lemma trioBoundErrors_inside (index : nat) (tracks : list Z) :
  (forall x, x ∈ tracks -> 1 <= x <= trackCount) ->
  trioBoundErrors trackCount index tracks = [].
Proof.
  induction tracks as [|t rest IH]; intros H; [reflexivity|].
  unfold trioBoundErrors in *. cbn [flat_map].
  assert (1 <= t <= trackCount) by (apply H; set_solver).
  destruct (Z.ltb_spec t 1), (Z.gtb_spec t trackCount); try lia. cbn [orb app].
  apply IH. intros x Hx. apply H. set_solver.
Qed.

Lemma checkTrios_accepted (index : nat) (ts : list TrioOverride) (seen0 : gset Z) :
  NoDup (concat (map trioPositions ts)) ->
  (forall x, x ∈ concat (map trioPositions ts) -> x ∉ seen0 /\ 1 <= x <= trackCount) ->
  (checkTrios trackCount index ts seen0).1 = [].
Proof.
  revert index seen0. induction ts as [|trio rest IH]; intros index seen0 Hnd Hin;
    [reflexivity|].
  cbn [map concat] in Hnd, Hin. apply NoDup_app in Hnd as (Hnd1 & Hdisj & Hnd2).
  cbn [checkTrios]. unfold checkTrio.
  pose proof (trioOverlapErrors_seen (trioPositions trio) seen0) as Hs.
  pose proof (trioOverlapErrors_fresh (trioPositions trio) seen0 Hnd1) as Hov.
  destruct (trioOverlapErrors (trioPositions trio) seen0) as [ov seen]. cbn [fst snd] in *.
  specialize (IH (S index) seen Hnd2).
  destruct (checkTrios trackCount (S index) rest seen) as [later seen']. cbn [fst] in *.
  rewrite trioBoundErrors_inside by (intros x Hx; apply Hin; set_solver).
  rewrite Hov by (intros x Hx; apply Hin; set_solver).
  unfold trioDistinctErrors. rewrite decide_True.
  - cbn [app]. apply IH. intros x Hx. split; [|apply Hin; set_solver].
    rewrite Hs. intros [Hx'|Hx']%elem_of_union.
    + apply elem_of_list_to_set in Hx'. by apply (Hdisj x).
    + revert Hx'. apply Hin. set_solver.
  - by rewrite size_list_to_set.
Qed.

Lemma checkRanges_inside (index : nat) (rs : list RangeRule) :
  (forall r, r ∈ rs -> 1 <= start r <= end_ r /\ end_ r <= trackCount) ->
  checkRanges trackCount index rs = [].
Proof.
  revert index. induction rs as [|range rest IH]; intros index H; [reflexivity|].
  cbn [checkRanges]. rewrite IH by (intros r Hr; apply H; set_solver).
  destruct (H range) as [? ?]; [set_solver|]. unfold checkRange.
  destruct (Z.ltb_spec (start range) 1), (Z.gtb_spec (start range) trackCount),
    (Z.ltb_spec (end_ range) 1), (Z.gtb_spec (end_ range) trackCount),
    (Z.gtb_spec (start range) (end_ range)); try lia. reflexivity.
Qed.

Lemma overlap_spec (rangeA rangeB : RangeRule) :
  overlap rangeA rangeB = false <-> end_ rangeA < start rangeB \/ end_ rangeB < start rangeA.
Proof.
  unfold overlap. rewrite andb_false_iff.
  destruct (Z.geb_spec (end_ rangeA) (start rangeB)),
    (Z.geb_spec (end_ rangeB) (start rangeA)); intuition (try lia; try discriminate).
Qed.

Lemma overlapInner_apart (i j : nat) (rangeA : RangeRule) (rs : list RangeRule) :
  (forall rangeB, rangeB ∈ rs -> overlap rangeA rangeB = false) ->
  overlapInner i j rangeA rs = [].
Proof.
  revert j. induction rs as [|r rs IH]; intros j H; [reflexivity|].
  cbn [overlapInner]. rewrite (H r) by set_solver. cbn [andb app].
  apply IH. intros b Hb. apply H. set_solver.
Qed.

Lemma overlapOuter_apart (base : nat) (rs : list RangeRule) :
  (forall i j rangeA rangeB, (i < j)%nat -> rs !! i = Some rangeA -> rs !! j = Some rangeB ->
     overlap rangeA rangeB = false) ->
  overlapOuter base rs = [].
Proof.
  revert base. induction rs as [|r rs IH]; intros base H; [reflexivity|].
  cbn [overlapOuter]. rewrite overlapInner_apart, IH; [reflexivity| |].
  - intros i j a b Hij Hi Hj. apply (H (S i) (S j)); [lia|exact Hi|exact Hj].
  - intros b Hb. apply list_elem_of_lookup in Hb as (k & Hk).
    apply (H 0%nat (S k)); [lia|reflexivity|exact Hk].
Qed.

Lemma overlapOuter_nil (base : nat) (rs : list RangeRule) :
  overlapOuter base rs = [] ->
  forall i j rangeA rangeB, (i < j)%nat -> rs !! i = Some rangeA -> rs !! j = Some rangeB ->
    overlap rangeA rangeB = false.
Proof.
  intros Hnil i j a b Hij Hi Hj. destruct (overlap a b) eqn:E; [|reflexivity].
  pose proof (overlapOuter_elem base i j a b rs Hij Hi Hj E) as Hin.
  rewrite Hnil in Hin. by apply elem_of_nil in Hin.
Qed.

Lemma flat_map_all_nil {A B : Type} (f : A -> list B) (l : list A) :
  (forall x, x ∈ l -> f x = []) -> flat_map f l = [].
Proof.
  induction l as [|a l IH]; intros H; [reflexivity|]. cbn [flat_map].
  rewrite (H a) by set_solver. apply IH. intros x Hx. apply H. set_solver.
Qed.

(** X1.  What [validatePlan] accepts: a plan with a range, whose trio positions
    are all different and within [1..trackCount], whose ranges have ordered
    bounds within [1..trackCount] and share no position with each other, and
    in which every position that no trio names lies in exactly one
    range. *)
Theorem validatePlan_ok_iff (plan : PairingPlan) :
  ok (validatePlan trackCount plan) = true
  <-> ranges plan <> []
      /\ NoDup (concat (map trioPositions (trios plan)))
      /\ (forall x, x ∈ concat (map trioPositions (trios plan)) -> 1 <= x <= trackCount)
      /\ (forall r, r ∈ ranges plan -> 1 <= start r <= end_ r /\ end_ r <= trackCount)
      /\ (forall i j rangeA rangeB,
            (i < j)%nat -> ranges plan !! i = Some rangeA -> ranges plan !! j = Some rangeB ->
            end_ rangeA < start rangeB \/ end_ rangeB < start rangeA)
      /\ (forall pos, 1 <= pos <= trackCount ->
            pos ∈ concat (map trioPositions (trios plan))
            \/ length (coveringRanges (ranges plan) pos) = 1%nat).
Proof.
  split.
  - intros Hok. destruct (validatePlan_ok _ _ Hok) as (H1 & H2 & H3 & H4 & H5 & H6).
    repeat (split; [assumption|]). split; [|assumption].
    intros i j a b Hij Hi Hj. apply overlap_spec. by eapply overlapOuter_nil.
  - intros (H1 & H2 & H3 & H4 & H5 & H6). unfold validatePlan.
    pose proof (checkTrios_seen 0 (trios plan) ∅) as Hseen.
    pose proof (checkTrios_accepted 0 (trios plan) ∅ H2) as Herr.
    destruct (checkTrios trackCount 0 (trios plan) ∅) as [trioErrors trioTracks].
    cbn [fst snd] in *. rewrite Herr by (intros x Hx; split; [set_solver|by apply H3]).
    rewrite checkRanges_inside by assumption.
    rewrite overlapOuter_apart
      by (intros i j a b Hij Hi Hj; apply overlap_spec; by eapply H5).
    rewrite flat_map_all_nil.
    + by destruct (ranges plan).
    + intros pos Hpos. apply elem_of_seqZ in Hpos. unfold checkCoverage.
      destruct (decide (pos ∈ trioTracks)) as [|Hout]; [reflexivity|].
      destruct (H6 pos) as [Hin|Hone]; [lia| |by rewrite Hone].
      exfalso. apply Hout. rewrite Hseen. set_solver.
Qed.

(** X2.  No plan validates for an empty track list: there is no range, or the
    start of the first range is out of range. *)
Theorem validatePlan_no_tracks (plan : PairingPlan) :
  trackCount < 1 -> ok (validatePlan trackCount plan) = false.
Proof.
  intros Hn. destruct (ok (validatePlan trackCount plan)) eqn:Hok; [|reflexivity].
  destruct (validatePlan_ok _ _ Hok) as (Hne & _ & _ & Hb & _).
  destruct (ranges plan) as [|r rs]; [done|].
  destruct (Hb r) as [? ?]; [set_solver|lia].
Qed.

Lemma trioOverlapErrors_kind (tracks : list Z) (seen0 : gset Z) :
  Forall (fun e => isBoundError e = false) (trioOverlapErrors tracks seen0).1.
Proof.
  revert seen0. induction tracks as [|t rest IH]; intros seen0; [constructor|].
  cbn [trioOverlapErrors]. specialize (IH ({[t]} ∪ seen0)).
  destruct (trioOverlapErrors rest ({[t]} ∪ seen0)) as [later seen]. cbn [fst] in *.
  apply Forall_app. split; [|exact IH]. destruct (decide _); repeat constructor.
Qed.

Lemma checkTrios_kind (index : nat) (ts : list TrioOverride) (seen0 : gset Z) :
  (forall x, x ∈ concat (map trioPositions ts) -> 1 <= x <= trackCount) ->
  Forall (fun e => isBoundError e = false) (checkTrios trackCount index ts seen0).1.
Proof.
  revert index seen0. induction ts as [|trio rest IH]; intros index seen0 Hin; [constructor|].
  cbn [map concat] in Hin. cbn [checkTrios]. unfold checkTrio.
  pose proof (trioOverlapErrors_kind (trioPositions trio) seen0) as Hov.
  destruct (trioOverlapErrors (trioPositions trio) seen0) as [ov seen]. cbn [fst] in *.
  specialize (IH (S index) seen).
  destruct (checkTrios trackCount (S index) rest seen) as [later seen']. cbn [fst] in *.
  rewrite trioBoundErrors_inside by (intros x Hx; apply Hin; set_solver).
  cbn [app]. repeat (apply Forall_app; split).
  - unfold trioDistinctErrors. destruct (decide _); repeat constructor.
  - exact Hov.
  - apply IH. intros x Hx. apply Hin. set_solver.
Qed.

Lemma positions_elem_trio (ts : list TrioOverride) (x : Z) :
  x ∈ concat (map trioPositions ts) -> exists trio, trio ∈ ts /\ x ∈ trioPositions trio.
Proof.
  induction ts as [|t ts IH]; cbn [map concat]; intros Hx; [by apply elem_of_nil in Hx|].
  apply elem_of_app in Hx as [Hx|Hx]; [exists t; split; [left|exact Hx]|].
  destruct (IH Hx) as (trio & Hin & Ht). exists trio. split; [by right|exact Ht].
Qed.

Lemma overlapInner_kind (i j : nat) (rangeA : RangeRule) (rs : list RangeRule) :
  Forall (fun e => isBoundError e = false) (overlapInner i j rangeA rs).
Proof.
  revert j. induction rs as [|b rs IH]; intros j; [constructor|].
  cbn [overlapInner]. apply Forall_app. split; [|apply IH].
  destruct (_ && _); repeat constructor.
Qed.

Lemma overlapOuter_kind (base : nat) (rs : list RangeRule) :
  Forall (fun e => isBoundError e = false) (overlapOuter base rs).
Proof.
  revert base. induction rs as [|r rs IH]; intros base; [constructor|].
  cbn [overlapOuter]. apply Forall_app. split; [apply overlapInner_kind|apply IH].
Qed.

(** X3.  After [normalizePlan], [validatePlan] has no bound to complain about
    when there is a track: none of its errors is about a position out of
    range or about a start after an end. *)
Theorem validatePlan_normalizePlan (raw : Raw.Plan) :
  1 <= trackCount ->
  Forall (fun error => isBoundError error = false)
         (errors (validatePlan trackCount (normalizePlan raw trackCount))).
Proof.
  intros Hn. set (plan := normalizePlan raw trackCount).
  assert (Ht : forall x, x ∈ concat (map trioPositions (trios plan)) -> 1 <= x <= trackCount).
  { intros x Hx. apply positions_elem_trio in Hx as (trio & Hin & Hx).
    subst plan. cbn [normalizePlan trios] in Hin.
    apply elem_of_dropNull in Hin as (r & _ & Hr).
    apply normalizeTrio_Some in Hr as (o & a & b & _ & _ & _ & ->).
    unfold trioPositions in Hx. cbn [original sampleA sampleB] in Hx.
    repeat (apply elem_of_cons in Hx as [->|Hx]; [by apply clamp_bounds|]).
    by apply elem_of_nil in Hx. }
  assert (Hr : forall r, r ∈ ranges plan -> 1 <= start r <= end_ r /\ end_ r <= trackCount).
  { intros range Hin. subst plan. cbn [normalizePlan ranges] in Hin.
    rewrite (sortBy_Permutation start) in Hin.
    apply elem_of_dropNull in Hin as (r & _ & Hr).
    apply normalizeRange_Some in Hr as (s & e & m & _ & _ & _ & ->). cbn [start end_].
    pose proof (clamp_bounds trackCount (Z.min s e) Hn).
    pose proof (clamp_bounds trackCount (Z.max s e) Hn).
    pose proof (clamp_mono trackCount (Z.min s e) (Z.max s e)). lia. }
  unfold validatePlan.
  pose proof (checkTrios_kind 0 (trios plan) ∅ Ht) as Hk.
  destruct (checkTrios trackCount 0 (trios plan) ∅) as [trioErrors trioTracks].
  cbn [fst errors] in *. rewrite checkRanges_inside by exact Hr. cbn [app].
  repeat (apply Forall_app; split).
  - destruct (ranges plan); repeat constructor.
  - exact Hk.
  - apply overlapOuter_kind.
  - apply Forall_flat_map, Forall_forall. intros pos _. unfold checkCoverage.
    destruct (decide _); [constructor|].
    destruct (length _) as [|[|?]]; repeat constructor.
Qed.
End ValidateConverse.

(** ** The warning of buildPairsFromPlan *)
Section BuildInvariants.
Import PairingPlan.
Variable tracks : list Track.

Lemma trioPairs_unnamed (ts : list TrioOverride) (pos : Z) :
  occurrences pos (flat_map (trioPairs tracks) ts) = 0%nat
  <-> pos ∉ concat (map trioPositions ts).
Proof.
  induction ts as [|t ts IH]; cbn [flat_map map concat].
  - split; [intros _; apply not_elem_of_nil|reflexivity].
  - rewrite occurrences_app, not_elem_of_app, <- IH.
    unfold occurrences at 1, trioPairs, trioPositions.
    cbn [List.filter positionPair originalPos sampledPos].
    rewrite !not_elem_of_cons.
    destruct (Z.eqb_spec (original t) pos), (Z.eqb_spec (sampleA t) pos),
      (Z.eqb_spec (sampleB t) pos); cbn [length Nat.add];
      split; try lia; try (intros [[? [? [? ?]]] ?]; congruence);
      try (intros ?; split; [repeat split; try congruence; apply not_elem_of_nil|lia]).
Qed.

(** X5.  The positions the build warns about are the positions of the track list
    that no returned pair names. *)
Theorem buildPairsFromPlan_leftover (plan : PairingPlan) (ps : list Pair) (leftover : list Z) :
  buildPairsFromPlan tracks plan = Returned ps leftover ->
  forall pos, pos ∈ leftover
              <-> 1 <= pos <= Z.of_nat (length tracks) /\ occurrences pos ps = 0%nat.
Proof.
  unfold buildPairsFromPlan.
  destruct (processTrios_spec tracks (trios plan) {| pairs := []; usedPositions := ∅ |})
    as [Hp0 Hu0].
  cbn [pairs usedPositions app] in Hp0, Hu0.
  destruct (processRanges _ _ _ _) as [[e st]|st] eqn:E; [discriminate|].
  intros [= <- <-] pos.
  apply processRanges_spec in E as (new & Hp & Hu & Ho & _).
  unfold leftoverPositions. rewrite elem_of_List_filter, elem_of_seqZ, bool_decide_eq_true.
  rewrite (occurrences_Permutation pos _ _ (sortBy_Permutation minPos (pairs st))).
  rewrite Hp, occurrences_app, Hp0, Ho. cbn [app].
  pose proof (trioPairs_unnamed (trios plan) pos) as Ht.
  assert (Hused : pos ∈ usedPositions (processTrios tracks (trios plan)
                                         {| pairs := []; usedPositions := ∅ |})
                  <-> pos ∈ concat (map trioPositions (trios plan))).
  { rewrite Hu0, union_empty_r_L. apply elem_of_list_to_set. }
  specialize (Hu pos).
  destruct (decide (pos ∈ usedPositions _)) as [Hin|Hout].
  - assert (occurrences pos (flat_map (trioPairs tracks) (trios plan)) <> 0%nat) by tauto.
    split; [tauto|]. intros [_ ?]. lia.
  - assert (Hz : occurrences pos (flat_map (trioPairs tracks) (trios plan)) = 0%nat) by tauto.
    rewrite Hz.
    destruct (existsb (covers pos) (ranges plan)); cbn [Nat.add].
    + split; [tauto|]. intros [_ ?]. lia.
    + split; [intros [? _]; split; [lia|reflexivity]|].
      intros [? _]. split; [lia|]. rewrite Hu. intros [?|?]; [tauto|discriminate].
Qed.
End BuildInvariants.

(** ** Building from a plan that validates *)
Section ValidBuild.
Import PairingPlan.
Variable tracks : list Track.

Lemma filter_length_existsb (pos : Z) (rs : list RangeRule) :
  existsb (covers pos) rs = true -> (1 <= length (coveringRanges rs pos))%nat.
Proof.
  intros H. apply covering_existsb in H.
  destruct (coveringRanges rs pos); [done|cbn [length]; lia].
Qed.

(** In a plan that validates, what is free in a range when its turn comes
    is what the trios leave free in it: no earlier range reaches into it. *)
Lemma availablePositions_valid (trackCount : Z) (plan : PairingPlan)
      (done rest : list RangeRule) (range : RangeRule) (used : gset Z) :
  ok (validatePlan trackCount plan) = true ->
  ranges plan = done ++ range :: rest ->
  (forall pos, pos ∈ used
     <-> pos ∈ concat (map trioPositions (trios plan)) \/ existsb (covers pos) done = true) ->
  availablePositions range used
  = availablePositions range (list_to_set (concat (map trioPositions (trios plan)))).
Proof.
  intros Hok Hsplit Hused.
  destruct (validatePlan_ok _ _ Hok) as (_ & _ & _ & Hbounds & _ & Hcov).
  unfold availablePositions. apply filter_ext_in. intros pos Hpos.
  apply list_elem_of_In, elem_of_seqZ in Hpos.
  apply bool_decide_ext. rewrite Hused, elem_of_list_to_set.
  split; [tauto|]. intros Hfree [Hin|Hdone]; [tauto|].
  assert (Hr : range ∈ ranges plan) by (rewrite Hsplit; set_solver).
  destruct (Hbounds _ Hr) as [? ?].
  destruct (Hcov pos) as [Hin|Hone]; [lia|tauto|].
  apply filter_length_existsb in Hdone.
  rewrite Hsplit in Hone. unfold coveringRanges in *.
  rewrite List.filter_app, length_app in Hone. cbn [List.filter] in Hone.
  assert (Hc : covers pos range = true) by (apply covers_spec; lia).
  rewrite Hc in Hone. cbn [length] in Hone. lia.
Qed.

(** The outcome of the range pass over a plan that validates: the ranges
    are independent of each other, each one pairs what the trios leave
    free in it, and the first one whose two parities differ in number
    throws. *)
Lemma processRanges_valid (trackCount : Z) (plan : PairingPlan) :
  ok (validatePlan trackCount plan) = true ->
  let free range :=
    availablePositions range (list_to_set (concat (map trioPositions (trios plan)))) in
  let balanced range :=
    length (originalsOf range (free range)) = length (samplesOf range (free range)) in
  forall rest done st,
    ranges plan = done ++ rest ->
    (forall pos, pos ∈ usedPositions st
       <-> pos ∈ concat (map trioPositions (trios plan)) \/ existsb (covers pos) done = true) ->
    (Forall balanced rest ->
     exists st', processRanges tracks (length done) rest st = inr st')
    /\ (forall mid range rest',
          rest = mid ++ range :: rest' -> Forall balanced mid -> ~ balanced range ->
          exists st',
            processRanges tracks (length done) rest st
            = inl (UnmatchedTracks (Z.of_nat (length done + length mid) + 1)
                     (start range) (end_ range)
                     (length (originalsOf range (free range)))
                     (length (samplesOf range (free range))), st')).
Proof.
  intros Hok free balanced rest.
  induction rest as [|r rest IH]; intros done st Hsplit Hused.
  - split; [intros _; by eexists|]. intros [|? ?] ? ? ?; discriminate.
  - assert (Hfree : availablePositions r (usedPositions st) = free r)
      by (eapply availablePositions_valid; eauto).
    assert (Hnext : forall st1, processRange tracks (length done) r st = inr st1 ->
              ranges plan = (done ++ [r]) ++ rest
              /\ forall pos, pos ∈ usedPositions st1
                   <-> pos ∈ concat (map trioPositions (trios plan))
                       \/ existsb (covers pos) (done ++ [r]) = true).
    { intros st1 E1. split; [by rewrite <- app_assoc|]. intros pos.
      apply processRange_spec in E1 as (_ & _ & Hu1 & _).
      rewrite Hu1, Hused, existsb_app. cbn [existsb].
      rewrite orb_false_r, !orb_true_iff, covers_spec. tauto. }
    assert (Hpr : processRange tracks (length done) r st
                  = if decide (balanced r)
                    then inr (pairUp tracks (originalsOf r (free r)) (samplesOf r (free r)) st)
                    else inl (UnmatchedTracks (Z.of_nat (length done) + 1) (start r) (end_ r)
                                (length (originalsOf r (free r)))
                                (length (samplesOf r (free r))))).
    { unfold processRange. rewrite Hfree. reflexivity. }
    cbn [processRanges]. destruct (decide (balanced r)) as [Hb|Hb].
    + set (st1 := pairUp tracks (originalsOf r (free r)) (samplesOf r (free r)) st) in *.
      rename Hpr into E1. rewrite E1.
      destruct (Hnext st1 E1) as [Hsplit1 Hused1].
      destruct (IH (done ++ [r]) st1 Hsplit1 Hused1) as [IHr IHt].
      rewrite length_app, Nat.add_1_r in IHr, IHt.
      split.
      * intros Hall. apply Forall_cons in Hall as [_ Hall]. by apply IHr.
      * intros [|m mid] range rest' Heq Hmid Hnb.
        -- injection Heq as -> ->. contradiction.
        -- injection Heq as -> ->. apply Forall_cons in Hmid as [_ Hmid].
           destruct (IHt mid range rest' eq_refl Hmid Hnb) as (st' & ->).
           exists st'. do 3 f_equal. cbn [length]. lia.
    + rewrite Hpr. split.
      * intros Hall. apply Forall_cons in Hall as [? _]. contradiction.
      * intros [|m mid] range rest' Heq Hmid Hnb.
        -- injection Heq as <- <-. exists st. rewrite Nat.add_0_r. reflexivity.
        -- injection Heq as <- ->. apply Forall_cons in Hmid as [? _]. contradiction.
Qed.

(** X6.  How a plan that validates builds: it returns when in every range, among
    the positions that no trio names, as many have the parity of the
    mapping as have the other parity; otherwise it throws for the first
    range where the two numbers differ, with the number of that range, its
    bounds and the two numbers in the error. *)
Theorem buildPairsFromPlan_outcome (plan : PairingPlan) :
  ok (validatePlan (Z.of_nat (length tracks)) plan) = true ->
  let free range :=
    availablePositions range (list_to_set (concat (map trioPositions (trios plan)))) in
  let balanced range :=
    length (originalsOf range (free range)) = length (samplesOf range (free range)) in
  (Forall balanced (ranges plan) ->
   exists ps leftover, buildPairsFromPlan tracks plan = Returned ps leftover)
  /\ (forall done range rest,
        ranges plan = done ++ range :: rest -> Forall balanced done -> ~ balanced range ->
        exists st,
          buildPairsFromPlan tracks plan
          = Threw (UnmatchedTracks (Z.of_nat (length done) + 1) (start range) (end_ range)
                     (length (originalsOf range (free range)))
                     (length (samplesOf range (free range)))) st).
Proof.
  intros Hok free balanced.
  destruct (processTrios_spec tracks (trios plan) {| pairs := []; usedPositions := ∅ |})
    as [_ Hu0]. cbn [usedPositions] in Hu0.
  destruct (processRanges_valid _ plan Hok (ranges plan) []
              (processTrios tracks (trios plan) {| pairs := []; usedPositions := ∅ |})
              eq_refl) as [Hret Hthrow].
  { intros pos. rewrite Hu0, union_empty_r_L, elem_of_list_to_set. cbn [existsb].
    intuition discriminate. }
  cbn [length] in Hret, Hthrow. unfold buildPairsFromPlan. split.
  - intros Hall. destruct (Hret Hall) as (st' & ->). by eexists _, _.
  - intros done range rest Hsplit Hdone Hnb.
    destruct (Hthrow done range rest Hsplit Hdone Hnb) as (st' & ->).
    exists st'. reflexivity.
Qed.

Lemma size_trioPositions (ts : list TrioOverride) :
  length (concat (map trioPositions ts)) = (3 * length ts)%nat.
Proof.
  induction ts as [|t ts IH]; [reflexivity|].
  cbn [map concat]. rewrite length_app, IH. cbn [trioPositions length]. lia.
Qed.

Lemma length_trioPairs (ts : list TrioOverride) :
  length (flat_map (trioPairs tracks) ts) = (2 * length ts)%nat.
Proof.
  induction ts as [|t ts IH]; [reflexivity|].
  cbn [flat_map]. rewrite length_app, IH. cbn [trioPairs length]. lia.
Qed.

(** A range that pairs adds as many pairs as it has originals and marks
    twice as many positions. *)
Lemma processRange_count (rangeIndex : nat) (range : RangeRule) (st st' : BuildState) :
  processRange tracks rangeIndex range st = inr st' ->
  exists k,
    length (pairs st') = (length (pairs st) + k)%nat
    /\ size (usedPositions st') = (size (usedPositions st) + 2 * k)%nat.
Proof.
  unfold processRange.
  set (available := availablePositions range (usedPositions st)).
  destruct (decide _) as [Hlen|]; [|discriminate]. intros [= <-].
  destruct (pairUp_spec tracks _ _ st Hlen) as [Hp Hu].
  exists (length (originalsOf range available)).
  rewrite Hp, Hu, length_app, length_map, length_zip, <- Hlen, Nat.min_id.
  split; [reflexivity|].
  assert (Hnd : NoDup available) by apply NoDup_availablePositions.
  assert (Hav : forall pos, pos ∈ available -> pos ∉ usedPositions st).
  { intros pos Hpos. by apply elem_of_availablePositions in Hpos as [_ ?]. }
  rewrite !size_union.
  - rewrite !size_list_to_set by (by apply NoDup_List_filter). lia.
  - apply elem_of_disjoint. intros pos. rewrite !elem_of_list_to_set.
    unfold originalsOf, samplesOf.
    rewrite !elem_of_List_filter. intros [_ H1] [_ H2].
    rewrite H1 in H2. discriminate.
  - apply elem_of_disjoint. intros pos. rewrite elem_of_union, !elem_of_list_to_set.
    unfold originalsOf, samplesOf. rewrite !elem_of_List_filter.
    intros [[? _]|[? _]] ?; by eapply Hav.
Qed.

Lemma processRanges_count (rangeIndex : nat) (rs : list RangeRule) (st st' : BuildState) :
  processRanges tracks rangeIndex rs st = inr st' ->
  exists k,
    length (pairs st') = (length (pairs st) + k)%nat
    /\ size (usedPositions st') = (size (usedPositions st) + 2 * k)%nat.
Proof.
  revert rangeIndex st. induction rs as [|range rest IH]; intros rangeIndex st;
    cbn [processRanges].
  - intros [= <-]. exists 0%nat. lia.
  - destruct (processRange tracks rangeIndex range st) as [e|st1] eqn:E1; [discriminate|].
    intros Hrest. apply processRange_count in E1 as (k1 & Hp1 & Hs1).
    apply IH in Hrest as (k2 & Hp2 & Hs2). exists (k1 + k2)%nat. lia.
Qed.

(** X7.  The number of pairs of a plan that validates and builds: every track is
    in one pair, but for the original of a trio, which is in two. *)
Theorem buildPairsFromPlan_length (plan : PairingPlan) (ps : list Pair) (leftover : list Z) :
  ok (validatePlan (Z.of_nat (length tracks)) plan) = true ->
  buildPairsFromPlan tracks plan = Returned ps leftover ->
  (2 * length ps = length tracks + length (trios plan))%nat.
Proof.
  intros Hok. destruct (validatePlan_ok _ _ Hok) as (_ & Hnd & Hin & Hbounds & _ & Hcov).
  unfold buildPairsFromPlan.
  destruct (processTrios_spec tracks (trios plan) {| pairs := []; usedPositions := ∅ |})
    as [Hp0 Hu0]. cbn [pairs usedPositions app] in Hp0, Hu0.
  destruct (processRanges _ _ _ _) as [[e st]|st] eqn:E; [discriminate|].
  intros [= <- _].
  rewrite (Permutation_length (sortBy_Permutation minPos (pairs st))).
  pose proof (processRanges_spec _ _ _ _ _ E) as (_ & _ & Hu & _).
  apply processRanges_count in E as (k & Hp & Hs).
  rewrite Hp, Hp0, length_trioPairs.
  rewrite Hu0, union_empty_r_L, size_list_to_set, size_trioPositions in Hs by exact Hnd.
  assert (Hall : usedPositions st = list_to_set (seqZ 1 (Z.of_nat (length tracks)))).
  { apply set_eq. intros pos. rewrite Hu, Hu0, union_empty_r_L, !elem_of_list_to_set.
    rewrite elem_of_seqZ. split.
    - intros [Ht|Hc]; [apply Hin in Ht; lia|].
      apply existsb_exists in Hc as (r & Hr & Hc). apply list_elem_of_In in Hr.
      apply covers_spec in Hc. destruct (Hbounds r Hr). lia.
    - intros Hpos. destruct (Hcov pos) as [?|Hone]; [lia|by left|]. right.
      apply covering_existsb. intros Hnil. rewrite Hnil in Hone. discriminate. }
  rewrite Hall, size_list_to_set, length_seqZ in Hs by apply NoDup_seqZ. lia.
Qed.
End ValidBuild.

(** ** The shape of a normalised title *)
Section TitleShape.
Import Dedupe.

(** X10.  Whatever [toLowerCase] does, a normalised title holds lower-case
    letters, digits and single spaces only, with no space at either end:
    step 5 keeps nothing else, and steps 6 and 7 see to the spaces. *)
Theorem normalizeTitle_shape (toLowerCase : jsstring -> jsstring) (title : jsstring) :
  NormalForm (normalizeTitle toLowerCase title).
Proof. apply normalizeTitle_NormalForm. Qed.
End TitleShape.

(** ** Collapsing white space and lowering *)
Section Collapse.
Import Dedupe.

Lemma lowerUnit_ws (c : N) : isWhiteSpace (lowerUnit c) = isWhiteSpace c.
Proof.
  destruct (isWhiteSpace c) eqn:E.
  - class_arith.
  - class_arith.
Qed.

Lemma lowerUnit_idem (c : N) : lowerUnit (lowerUnit c) = lowerUnit c.
Proof. class_arith. Qed.

Lemma lowerUnit_basic (c : N) : isBasicUnit c = true -> isBasicUnit (lowerUnit c) = true.
Proof. intros H. class_arith. Qed.

Lemma collapseFrom_lower (inRun : bool) (s : jsstring) :
  collapseFrom inRun (map lowerUnit s) = map lowerUnit (collapseFrom inRun s).
Proof.
  revert inRun. induction s as [|c s IH]; intros inRun; [reflexivity|].
  cbn [map collapseFrom]. rewrite lowerUnit_ws.
  destruct (isWhiteSpace c), inRun; cbn [map]; by rewrite IH.
Qed.

Lemma dropWhile_lower (s : jsstring) :
  dropWhile isWhiteSpace (map lowerUnit s) = map lowerUnit (dropWhile isWhiteSpace s).
Proof.
  induction s as [|c s IH]; [reflexivity|]. cbn [map dropWhile]. rewrite lowerUnit_ws.
  by destruct (isWhiteSpace c).
Qed.

Lemma trim_lower (s : jsstring) : trim (map lowerUnit s) = map lowerUnit (trim s).
Proof.
  unfold trim, trimEnd, trimStart.
  by rewrite dropWhile_lower, <- map_rev, dropWhile_lower, map_rev.
Qed.

Lemma collapseFrom_idem (inRun : bool) (s : jsstring) :
  collapseFrom inRun (collapseFrom inRun s) = collapseFrom inRun s.
Proof.
  revert inRun. induction s as [|c s IH]; intros inRun; [reflexivity|].
  cbn [collapseFrom]. destruct (isWhiteSpace c) eqn:E.
  - destruct inRun; [apply IH|]. cbn [collapseFrom].
    change (isWhiteSpace 32) with true. cbv iota. f_equal. apply IH.
  - cbn [collapseFrom]. rewrite E. f_equal. apply IH.
Qed.

Lemma trimStart_collapseFrom (inRun : bool) (s : jsstring) :
  trimStart (collapseFrom inRun s) = collapseFrom false (trimStart s).
Proof.
  unfold trimStart. revert inRun. induction s as [|c s IH]; intros inRun; [reflexivity|].
  cbn [collapseFrom dropWhile]. destruct (isWhiteSpace c) eqn:E.
  - destruct inRun; [apply IH|]. cbn [dropWhile]. change (isWhiteSpace 32) with true.
    cbv iota. apply IH.
  - cbn [dropWhile collapseFrom]. by rewrite E.
Qed.

Lemma trimEnd_collapseFrom (inRun : bool) (s : jsstring) :
  trimEnd (collapseFrom inRun s) = collapseFrom inRun (trimEnd s).
Proof.
  destruct (trimEnd_prefix s) as (w & Hs & Hw).
  rewrite Hs at 1.
  destruct (collapseFrom_app_ws inRun (trimEnd s) w Hw) as (w' & -> & Hw').
  rewrite trimEnd_app_ws by exact Hw'.
  assert (Hend : trimEnd (trimEnd s) = trimEnd s) by apply trimEnd_idem.
  revert Hend. generalize (trimEnd s) as r. clear. intros r.
  destruct r as [|c r _] using rev_ind; [reflexivity|].
  rewrite trimEnd_snoc. destruct (isWhiteSpace c) eqn:E.
  - intros H. apply (f_equal (@length N)) in H. rewrite length_app in H. cbn [length] in H.
    pose proof (trimEnd_length r). lia.
  - intros _. destruct (collapseFrom_app inRun r [c]) as (b & H). rewrite H.
    cbn [collapseFrom]. rewrite E. by rewrite trimEnd_snoc, E.
Qed.

Lemma trim_collapseSpaces (s : jsstring) :
  trim (collapseSpaces s) = collapseSpaces (trim s).
Proof.
  unfold trim, collapseSpaces. by rewrite trimStart_collapseFrom, trimEnd_collapseFrom.
Qed.

Lemma collapseFrom_basic (inRun : bool) (s : jsstring) :
  forallb isBasicUnit s = true -> forallb isBasicUnit (collapseFrom inRun s) = true.
Proof.
  revert inRun. induction s as [|c s IH]; intros inRun H; [reflexivity|].
  cbn [forallb] in H. apply andb_true_iff in H as [Hc Hs]. cbn [collapseFrom].
  destruct (isWhiteSpace c), inRun; cbn [forallb]; rewrite ?Hc, ?IH; done.
Qed.

Lemma map_lower_basic (s : jsstring) :
  forallb isBasicUnit s = true -> forallb isBasicUnit (map lowerUnit s) = true.
Proof.
  induction s as [|c s IH]; [reflexivity|]. cbn [forallb map].
  intros H. apply andb_true_iff in H as [Hc Hs]. by rewrite lowerUnit_basic, IH.
Qed.

Lemma collapseFrom_spaced (inRun : bool) (s : jsstring) :
  forallb (fun c => negb (isWhiteSpace c) || (c =? 32)%N) (collapseFrom inRun s) = true
  /\ singleSpaced (collapseFrom inRun s) = true
  /\ (inRun = true -> headNotSpace (collapseFrom inRun s) = true).
Proof.
  revert inRun. induction s as [|c s IH]; intros inRun; [by repeat split|].
  cbn [collapseFrom]. destruct (isWhiteSpace c) eqn:Ews.
  - destruct (IH true) as (H1 & H2 & H3). specialize (H3 eq_refl).
    destruct inRun; [by repeat split|].
    cbn [forallb]. split; [by rewrite H1|]. split; [|discriminate].
    destruct (collapseFrom true s) as [|d r]; [reflexivity|].
    rewrite singleSpaced_cons, H2. cbn [headNotSpace] in H3.
    apply negb_true_iff in H3. rewrite H3. reflexivity.
  - destruct (IH false) as (H1 & H2 & _).
    assert (Hne : (c =? 32)%N = false) by class_arith.
    cbn [forallb]. rewrite Ews, H1. split; [reflexivity|]. split.
    + destruct (collapseFrom false s) as [|d r]; [reflexivity|].
      by rewrite singleSpaced_cons, Hne, H2.
    + intros _. cbn [headNotSpace]. by rewrite Hne.
Qed.

Lemma collapseFrom_no_capital (inRun : bool) (s : jsstring) :
  forallb (fun c => negb (isUpper c)) (collapseFrom inRun (map lowerUnit s)) = true.
Proof.
  revert inRun. induction s as [|c s IH]; intros inRun; [reflexivity|].
  cbn [map collapseFrom]. rewrite lowerUnit_ws.
  assert (Hc : negb (isUpper (lowerUnit c)) = true) by (apply negb_true_iff; class_arith).
  destruct (isWhiteSpace c), inRun; cbn [forallb]; rewrite ?Hc, ?IH; reflexivity.
Qed.
End Collapse.

(** ** normalizeArtist *)
Section Artists.
Import Dedupe.
Variable toLowerCase : jsstring -> jsstring.
Hypothesis toLowerCase_spec : LowerCaseSpec toLowerCase.

Lemma normalizeArtist_lower (artist : jsstring) :
  forallb isBasicUnit artist = true ->
  normalizeArtist toLowerCase artist = trim (collapseSpaces (map lowerUnit artist)).
Proof.
  intros H. destruct artist as [|c artist]; [reflexivity|].
  unfold normalizeArtist. by rewrite (toLowerCase_spec _ H).
Qed.

(** X11.  The shape of a normalised artist, whatever [toLowerCase] does: its
    white space is single spaces between other characters. *)
Theorem normalizeArtist_SpacedForm (artist : jsstring) :
  SpacedForm (normalizeArtist toLowerCase artist).
Proof.
  destruct artist as [|c artist]; [by repeat split|]. unfold normalizeArtist, collapseSpaces.
  destruct (collapseFrom_spaced false (toLowerCase (c :: artist))) as (H1 & H2 & _).
  split; [by apply forallb_trim|]. split; [by apply singleSpaced_trim|apply trim_idem].
Qed.

(** X12.  [normalizeArtist] is idempotent on artists of Basic Latin characters
    and dashes. *)
Theorem normalizeArtist_idempotent (artist : jsstring) :
  forallb isBasicUnit artist = true ->
  normalizeArtist toLowerCase (normalizeArtist toLowerCase artist)
  = normalizeArtist toLowerCase artist.
Proof.
  intros H. rewrite (normalizeArtist_lower artist H).
  rewrite normalizeArtist_lower.
  - rewrite <- trim_lower. unfold collapseSpaces at 2.
    rewrite <- collapseFrom_lower, map_map.
    rewrite (map_ext _ lowerUnit) by apply lowerUnit_idem.
    rewrite trim_collapseSpaces, trim_idem, <- trim_collapseSpaces.
    unfold collapseSpaces. by rewrite collapseFrom_idem.
  - apply forallb_trim, collapseFrom_basic. by apply map_lower_basic.
Qed.

(** X14.  The legacy [normalizeText] and [normalizeArtist] agree on strings of
    Basic Latin characters and dashes, though they take their steps in
    opposite order. *)
Theorem normalizeText_normalizeArtist (s : jsstring) :
  forallb isBasicUnit s = true ->
  normalizeText toLowerCase s = normalizeArtist toLowerCase s.
Proof.
  intros H. rewrite (normalizeArtist_lower s H).
  destruct s as [|c s]; [reflexivity|]. unfold normalizeText.
  rewrite toLowerCase_spec by (apply collapseFrom_basic; by apply forallb_trim).
  unfold collapseSpaces. by rewrite <- collapseFrom_lower, <- trim_lower, <- trim_collapseSpaces.
Qed.

(** X13.  What [normalizeArtist] does not tell apart, on artists of Basic Latin
    characters and dashes: letter case, the length and kind of a white-space
    run, and white space at either end. *)
Theorem normalizeArtist_invariant :
  (forall x y, forallb isBasicUnit x = true -> forallb isBasicUnit y = true ->
     map lowerUnit x = map lowerUnit y ->
     normalizeArtist toLowerCase x = normalizeArtist toLowerCase y)
  /\ (forall u v r1 r2,
        forallb isBasicUnit (u ++ v) = true ->
        r1 <> [] -> r2 <> [] ->
        forallb (fun c => isWhiteSpace c && isBasicUnit c) r1 = true ->
        forallb (fun c => isWhiteSpace c && isBasicUnit c) r2 = true ->
        normalizeArtist toLowerCase (u ++ r1 ++ v) = normalizeArtist toLowerCase (u ++ r2 ++ v))
  /\ (forall w1 a w2,
        forallb isBasicUnit a = true ->
        forallb (fun c => isWhiteSpace c && isBasicUnit c) w1 = true ->
        forallb (fun c => isWhiteSpace c && isBasicUnit c) w2 = true ->
        normalizeArtist toLowerCase (w1 ++ a ++ w2) = normalizeArtist toLowerCase a).
Proof.
  assert (Hsplit : forall r, forallb (fun c => isWhiteSpace c && isBasicUnit c) r = true ->
            forallb isWhiteSpace (map lowerUnit r) = true /\ forallb isBasicUnit r = true).
  { intros r Hr. split.
    - rewrite forallb_forall in *. intros c Hc. apply in_map_iff in Hc as (d & <- & Hd).
      rewrite lowerUnit_ws. specialize (Hr d Hd). by apply andb_true_iff in Hr as [? _].
    - eapply forallb_impl; [|exact Hr]. intros c Hc. by apply andb_true_iff in Hc as [_ ?]. }
  split; [|split].
  - intros x y Hx Hy H. by rewrite !normalizeArtist_lower, H.
  - intros u v r1 r2 Huv Hn1 Hn2 Hr1 Hr2.
    rewrite forallb_app in Huv. apply andb_true_iff in Huv as [Hu Hv].
    destruct (Hsplit r1 Hr1) as [Hw1 Hb1]. destruct (Hsplit r2 Hr2) as [Hw2 Hb2].
    rewrite !normalizeArtist_lower by (rewrite !forallb_app, Hu, Hv, ?Hb1, ?Hb2; reflexivity).
    rewrite !map_app. unfold collapseSpaces.
    destruct (collapseFrom_app false (map lowerUnit u) []) as (b & H).
    rewrite !H, !collapseFrom_run; try done; by destruct r1, r2.
  - intros w1 a w2 Ha Hr1 Hr2.
    destruct (Hsplit w1 Hr1) as [Hw1 Hb1]. destruct (Hsplit w2 Hr2) as [Hw2 Hb2].
    rewrite !normalizeArtist_lower by (rewrite ?forallb_app, ?Ha, ?Hb1, ?Hb2; reflexivity).
    rewrite !trim_collapseSpaces. f_equal. rewrite !map_app, app_assoc.
    rewrite trim_app_ws by exact Hw2. unfold trim, trimStart.
    by rewrite dropWhile_all.
Qed.
End Artists.

(** ** The parts of a pair key *)
Section KeyParts.
Import Dedupe.
Variable toLowerCase : jsstring -> jsstring.
Hypothesis toLowerCase_spec : LowerCaseSpec toLowerCase.

Lemma keyForSong_parts (song : option Track) :
  keyForSong toLowerCase song
  = match songParts toLowerCase song with
    | None => []
    | Some (t, a) => t ++ js "|" ++ a
    end.
Proof. by destruct song. Qed.

Lemma songParts_title_clean (song : option Track) (t a : jsstring) :
  songParts toLowerCase song = Some (t, a) -> forallb isClean t = true.
Proof.
  destruct song as [song|]; [|discriminate]. intros [= <- _].
  by destruct (normalizeTitle_NormalForm toLowerCase (default [] (title song))) as [? _].
Qed.

Lemma songParts_inj (song song' : option Track) :
  keyForSong toLowerCase song = keyForSong toLowerCase song' ->
  songParts toLowerCase song = songParts toLowerCase song'.
Proof.
  rewrite !keyForSong_parts.
  destruct (songParts toLowerCase song) as [[t a]|] eqn:E,
           (songParts toLowerCase song') as [[t' a']|] eqn:E'; intros H;
    change (js "|") with [124%N] in H; cbn [app] in H.
  - apply songParts_title_clean in E, E'.
    by destruct (cut_left isClean t t' a a' 124%N 124%N H E E' eq_refl eq_refl)
      as (-> & _ & ->).
  - by destruct t.
  - by destruct t'.
  - reflexivity.
Qed.

Lemma keyForSong_no_capital (song : option Track) :
  basicArtist song = true ->
  forallb (fun c => negb (isUpper c)) (keyForSong toLowerCase song) = true.
Proof.
  destruct song as [song|]; [|reflexivity]. cbn [basicArtist keyForSong]. intros Hb.
  rewrite !forallb_app. apply andb_true_iff. split; [|apply andb_true_iff; split].
  - destruct (normalizeTitle_NormalForm toLowerCase (default [] (title song))) as [Hc _].
    eapply forallb_impl; [|exact Hc]. intros c H. apply negb_true_iff. class_arith.
  - reflexivity.
  - rewrite (normalizeArtist_lower _ toLowerCase_spec _ Hb).
    apply forallb_trim, collapseFrom_no_capital.
Qed.

(** X15.  The key of a pair tells exactly its parts, the normalised title and
    artist of the original and of the sample (or that one is missing): two
    pairs have the same key if and only if they have the same parts.  The
    artist of the original has Basic Latin characters and dashes. *)
Theorem getPairKey_pairParts (p q : Pair) :
  basicArtist (orElse (original p) (originalTrack p)) = true ->
  basicArtist (orElse (original q) (originalTrack q)) = true ->
  getPairKey toLowerCase (Some p) = getPairKey toLowerCase (Some q)
  <-> pairParts toLowerCase p = pairParts toLowerCase q.
Proof.
  intros Hp Hq. unfold getPairKey, pairParts.
  set (o := orElse (original p) (originalTrack p)) in *.
  set (s := orElse (sampled p) (sampledTrack p)).
  set (o' := orElse (original q) (originalTrack q)) in *.
  set (s' := orElse (sampled q) (sampledTrack q)).
  split.
  - intros H. apply app_inv_head in H.
    change (js "||S:") with ([124; 124] ++ 83 :: [58])%N in H.
    rewrite <- !app_assoc, !(app_assoc _ [124; 124]%N) in H. cbn [app] in H.
    apply (cut_left (fun c => negb (isUpper c))) in H as (H1 & _ & H2);
      try reflexivity;
      try (rewrite forallb_app; apply andb_true_iff; split; [|reflexivity];
           by apply keyForSong_no_capital).
    apply app_inv_tail in H1. injection H2 as H2.
    by rewrite (songParts_inj _ _ H1), (songParts_inj _ _ H2).
  - intros [= H1 H2]. by rewrite !keyForSong_parts, H1, H2.
Qed.
End KeyParts.

(** ** detectDuplicates *)
Section DetectDuplicates.
Import Duplicates Server.

Lemma detectFrom_spec (index : nat) (tracks : list Track) (seen : gmap jsstring Z)
      (d : Duplicate) :
  d ∈ detectFrom index tracks seen
  <-> exists j t,
        tracks !! j = Some t /\ track d = t
        /\ ((exists first, seen !! trackKey t = Some first
                           /\ positions d = [first; Z.of_nat (index + j) + 1])
            \/ (seen !! trackKey t = None
                /\ exists i t', (i < j)%nat /\ tracks !! i = Some t'
                     /\ trackKey t' = trackKey t
                     /\ (forall k t'', (k < i)%nat -> tracks !! k = Some t'' ->
                           trackKey t'' <> trackKey t)
                     /\ positions d = [Z.of_nat (index + i) + 1; Z.of_nat (index + j) + 1])).
Proof.
  revert index seen. induction tracks as [|t0 rest IH]; intros index seen.
  - cbn [detectFrom]. split; [intros H; by apply elem_of_nil in H|].
    intros (j & t & H & _). discriminate.
  - cbn [detectFrom]. destruct (seen !! trackKey t0) as [first|] eqn:E.
    + rewrite elem_of_cons, IH. split.
      * intros [->|(j & t & Hj & Ht & H)].
        -- exists 0%nat, t0. split; [reflexivity|]. split; [reflexivity|]. left.
           exists first. rewrite Nat.add_0_r. auto.
        -- exists (S j), t. split; [exact Hj|]. split; [exact Ht|].
           replace (index + S j)%nat with (S index + j)%nat by lia.
           destruct H as [H|(Hn & i & t' & Hij & Hi & Hk & Hfirst & Hp)]; [by left|].
           right. split; [exact Hn|]. exists (S i), t'.
           replace (index + S i)%nat with (S index + i)%nat by lia.
           split; [lia|]. split; [exact Hi|]. split; [exact Hk|]. split; [|exact Hp].
           intros [|k] t'' Hlt Hk'; cbn in Hk'; [injection Hk' as <-; congruence|].
           apply (Hfirst k t''); [lia|exact Hk'].
      * intros ([|j] & t & Hj & Ht & H); cbn in Hj.
        -- injection Hj as <-. left.
           destruct H as [(f & Hf & Hp)|[Hn _]]; [|congruence].
           rewrite Nat.add_0_r in Hp. destruct d as [dt dp]. cbn in *. congruence.
        -- right. exists j, t. split; [exact Hj|]. split; [exact Ht|].
           replace (index + S j)%nat with (S index + j)%nat in H by lia.
           destruct H as [H|(Hn & [|i] & t' & Hij & Hi & Hk & Hfirst & Hp)]; [by left| |];
             cbn in Hi.
           ++ injection Hi as <-. congruence.
           ++ right. split; [exact Hn|]. exists i, t'.
              replace (index + S i)%nat with (S index + i)%nat in Hp by lia.
              split; [lia|]. split; [exact Hi|]. split; [exact Hk|]. split; [|exact Hp].
              intros k t'' Hlt Hk'. apply (Hfirst (S k) t''); [lia|exact Hk'].
    + rewrite IH. split.
      * intros (j & t & Hj & Ht & H). exists (S j), t. split; [exact Hj|].
        split; [exact Ht|].
        replace (index + S j)%nat with (S index + j)%nat by lia.
        destruct (decide (trackKey t0 = trackKey t)) as [Heq|Hne].
        -- rewrite <- Heq, lookup_insert_eq in H.
           destruct H as [(f & [= <-] & Hp)|[Hn _]]; [|discriminate].
           right. split; [by rewrite <- Heq|]. exists 0%nat, t0.
           rewrite Nat.add_0_r. split; [lia|]. split; [reflexivity|].
           split; [exact Heq|]. split; [intros k t'' Hk; lia|exact Hp].
        -- rewrite lookup_insert_ne in H by exact Hne.
           destruct H as [H|(Hn & i & t' & Hij & Hi & Hk & Hfirst & Hp)]; [by left|].
           right. split; [exact Hn|]. exists (S i), t'.
           replace (index + S i)%nat with (S index + i)%nat by lia.
           split; [lia|]. split; [exact Hi|]. split; [exact Hk|]. split; [|exact Hp].
           intros [|k] t'' Hlt Hk'; cbn in Hk'; [injection Hk' as <-; congruence|].
           apply (Hfirst k t''); [lia|exact Hk'].
      * intros ([|j] & t & Hj & Ht & H); cbn in Hj.
        -- injection Hj as <-. destruct H as [(f & Hf & _)|(_ & i & t' & Hij & _)];
             [congruence|lia].
        -- exists j, t. split; [exact Hj|]. split; [exact Ht|].
           replace (index + S j)%nat with (S index + j)%nat in H by lia.
           destruct (decide (trackKey t0 = trackKey t)) as [Heq|Hne].
           ++ rewrite <- Heq, lookup_insert_eq. left. eexists. split; [reflexivity|].
              destruct H as [(f & Hf & _)|(Hn & [|i] & t' & Hij & Hi & Hk & Hfirst & Hp)];
                [congruence| |]; cbn in Hi.
              ** by rewrite Nat.add_0_r in Hp.
              ** exfalso. apply (Hfirst 0%nat t0); [lia|reflexivity|exact Heq].
           ++ rewrite lookup_insert_ne by exact Hne.
              destruct H as [H|(Hn & [|i] & t' & Hij & Hi & Hk & Hfirst & Hp)]; [by left| |];
                cbn in Hi.
              ** injection Hi as <-. congruence.
              ** right. split; [exact Hn|]. exists i, t'.
                 replace (index + S i)%nat with (S index + i)%nat in Hp by lia.
                 split; [lia|]. split; [exact Hi|]. split; [exact Hk|]. split; [|exact Hp].
                 intros k t'' Hlt Hk'. apply (Hfirst (S k) t''); [lia|exact Hk'].
Qed.
End DetectDuplicates.

Section DetectDuplicatesCount.
Import Duplicates Server.

(** X18.  What [detectDuplicates] reports: an entry for each track whose key an
    earlier track has, with the track, its position and the position of the
    first track with that key. *)
Theorem detectDuplicates_spec (tracks : list Track) (d : Duplicate) :
  d ∈ detectDuplicates tracks
  <-> exists i j t t',
        (i < j)%nat /\ tracks !! i = Some t' /\ tracks !! j = Some t
        /\ trackKey t' = trackKey t
        /\ (forall k t'', (k < i)%nat -> tracks !! k = Some t'' -> trackKey t'' <> trackKey t)
        /\ d = mkDuplicate t [Z.of_nat i + 1; Z.of_nat j + 1].
Proof.
  unfold detectDuplicates. rewrite detectFrom_spec. split.
  - intros (j & t & Hj & Ht & [(f & Hf & _)|(_ & i & t' & Hij & Hi & Hk & Hfirst & Hp)]).
    + by rewrite lookup_empty in Hf.
    + exists i, j, t, t'. repeat (split; [assumption|]).
      destruct d as [dt dp]. cbn in *. by subst.
  - intros (i & j & t & t' & Hij & Hi & Hj & Hk & Hfirst & ->).
    exists j, t. split; [exact Hj|]. split; [reflexivity|]. right.
    split; [apply lookup_empty|]. exists i, t'. auto 10.
Qed.

Lemma detectFrom_length (index : nat) (tracks : list Track) (seen : gmap jsstring Z) :
  (length (detectFrom index tracks seen)
   + size (dom seen ∪ list_to_set (map trackKey tracks) : gset jsstring)
   = length tracks + size (dom seen))%nat.
Proof.
  revert index seen. induction tracks as [|t rest IH]; intros index seen.
  - cbn [detectFrom map length list_to_set]. by rewrite union_empty_r_L.
  - cbn [detectFrom map length list_to_set].
    destruct (seen !! trackKey t) as [first|] eqn:E.
    + cbn [length]. specialize (IH (S index) seen).
      assert (Hin : trackKey t ∈ dom seen) by (apply elem_of_dom; eauto).
      replace (dom seen ∪ ({[trackKey t]} ∪ list_to_set (map trackKey rest)))
        with (dom seen ∪ list_to_set (map trackKey rest) : gset jsstring) by set_solver.
      lia.
    + specialize (IH (S index) (<[trackKey t := Z.of_nat index + 1]> seen)).
      rewrite dom_insert_L in IH.
      assert (Hout : trackKey t ∉ dom seen) by (by apply not_elem_of_dom).
      rewrite (size_union {[trackKey t]} (dom seen)), size_singleton in IH by set_solver.
      replace (dom seen ∪ ({[trackKey t]} ∪ list_to_set (map trackKey rest)))
        with ({[trackKey t]} ∪ dom seen ∪ list_to_set (map trackKey rest) : gset jsstring)
        by set_solver.
      lia.
Qed.

Lemma size_list_to_set_le (l : list jsstring) :
  (size (list_to_set l : gset jsstring) <= length l)%nat.
Proof.
  induction l as [|a l IH]; cbn [list_to_set length]; [by rewrite size_empty|].
  pose proof (size_union_alt {[a]} (list_to_set l : gset jsstring)) as H.
  rewrite size_singleton in H.
  assert (Hsub : list_to_set l ∖ {[a]} ⊆ (list_to_set l : gset jsstring)) by set_solver.
  apply subseteq_size in Hsub. lia.
Qed.

Lemma size_list_to_set_NoDup (l : list jsstring) :
  size (list_to_set l : gset jsstring) = length l -> NoDup l.
Proof.
  induction l as [|a l IH]; cbn [list_to_set length]; [constructor|]. intros H.
  pose proof (size_list_to_set_le l) as Hle.
  destruct (decide (a ∈ l)) as [Hin|Hout].
  - replace ({[a]} ∪ list_to_set l) with (list_to_set l : gset jsstring) in H by set_solver.
    lia.
  - rewrite size_union, size_singleton in H by set_solver.
    constructor; [exact Hout|]. apply IH. lia.
Qed.

(** X19.  How many duplicates [detectDuplicates] reports: one for each track
    beyond the first of its key.  It reports none exactly when no two tracks
    have the same key. *)
Theorem detectDuplicates_length (tracks : list Track) :
  (length (detectDuplicates tracks)
   + size (list_to_set (map trackKey tracks) : gset jsstring) = length tracks)%nat
  /\ (detectDuplicates tracks = [] <-> NoDup (map trackKey tracks)).
Proof.
  pose proof (detectFrom_length 0 tracks ∅) as H.
  rewrite dom_empty_L, union_empty_l_L, size_empty, Nat.add_0_r in H.
  fold (detectDuplicates tracks) in H. split; [exact H|].
  pose proof (size_list_to_set (C := gset jsstring) (map trackKey tracks)) as Hnd.
  split.
  - intros Hnil. rewrite Hnil in H. cbn [length] in H.
    apply size_list_to_set_NoDup. rewrite length_map. lia.
  - intros Hn. specialize (Hnd Hn). rewrite length_map in Hnd.
    destruct (detectDuplicates tracks); [reflexivity|]. cbn [length] in H. lia.
Qed.
End DetectDuplicatesCount.

(** ** The duplicate report and the growth of the store *)
Section MergeGrowth.
Import Duplicates Server.
Variable toLowerCase : jsstring -> jsstring.

Local Notation key := (Dedupe.getPairKey toLowerCase).

Lemma keepFirst_key_set (l : list (option Pair)) (seen : list jsstring) (S : gset jsstring) :
  (forall k, k ∈ seen <-> k ∈ S) ->
  let S' := fold_left (fun existingKeys pair =>
                         if bool_decide (key pair = []) then existingKeys
                         else {[key pair]} ∪ existingKeys) l S in
  (length (keepFirst toLowerCase seen l) + size S = size S')%nat
  /\ (forall k, k ∈ S' <-> k ∈ S \/ k ∈ map key (keepFirst toLowerCase seen l)).
Proof.
  revert seen S. induction l as [|p l IH]; intros seen S Hseen; cbn [fold_left keepFirst].
  - split; [reflexivity|]. intros k. cbn [map]. rewrite elem_of_nil. tauto.
  - destruct (bool_decide (key p = [])) eqn:Ek; cbn [orb]; [by apply IH|].
    destruct (bool_decide (key p ∈ seen)) eqn:Es.
    + apply bool_decide_eq_true in Es.
      replace ({[key p]} ∪ S) with S by (apply Hseen in Es; set_solver). by apply IH.
    + apply bool_decide_eq_false in Es.
      assert (Hout : key p ∉ S) by (by rewrite <- Hseen).
      destruct (IH (key p :: seen) ({[key p]} ∪ S)) as [Hlen Hin].
      { intros k. rewrite elem_of_cons, elem_of_union, elem_of_singleton, Hseen. tauto. }
      cbn zeta in *. rewrite size_union, size_singleton in Hlen by set_solver.
      split; [cbn [length]; lia|].
      intros k. rewrite Hin. cbn [map]. rewrite elem_of_cons. set_solver.
Qed.

Lemma detectStep_count (existingKeys : gset jsstring) (scraped : list Pair)
      (seen : list jsstring) (found : list DuplicateFound) (seenInScrape : gset jsstring) :
  (forall k, k ∈ seen <-> k ∈ existingKeys \/ k ∈ seenInScrape) ->
  (length (keepFirst toLowerCase seen (map Some scraped))
   + length (fold_left (detectStep toLowerCase existingKeys) (map Some scraped)
                       (found, seenInScrape)).1
   = length found + length scraped)%nat.
Proof.
  revert seen found seenInScrape.
  induction scraped as [|p l IH]; intros seen found seenInScrape Hseen;
    cbn [map fold_left keepFirst length fst]; [lia|].
  unfold detectStep at 2.
  rewrite (bool_decide_eq_false_2 (key (Some p) = [])) by done. cbn [orb].
  destruct (decide (key (Some p) ∈ seenInScrape)) as [Hin|Hout].
  - rewrite bool_decide_eq_true_2 by (apply Hseen; by right).
    rewrite IH, length_app; [cbn [length]; lia|].
    intros k. rewrite Hseen. set_solver.
  - destruct (decide (key (Some p) ∈ existingKeys)) as [Hex|Hnew].
    + rewrite bool_decide_eq_true_2 by (apply Hseen; by left).
      rewrite IH, length_app; [cbn [length]; lia|].
      intros k. rewrite Hseen. set_solver.
    + rewrite bool_decide_eq_false_2 by (rewrite Hseen; tauto).
      cbn [length]. rewrite <- Nat.add_succ_comm, Nat.add_succ_l, IH; [lia|].
      intros k. rewrite elem_of_cons, Hseen. set_solver.
Qed.

(** X17.  The store and the duplicate report account for every scraped pair: the
    merged store has one pair for each key that was stored, and each scraped
    pair either adds one more or is reported in [duplicatesFound]. *)
Theorem merge_growth (storedPairs : list (option Pair)) (scrapedPairs : list Pair) :
  (length (merge toLowerCase storedPairs (map Some scrapedPairs))
   + length (duplicatesFound toLowerCase storedPairs (map Some scrapedPairs))
   = size (existingKeysOf toLowerCase storedPairs) + length scrapedPairs)%nat
  /\ (countReason already_stored
        (duplicatesFound toLowerCase storedPairs (map Some scrapedPairs))
      + countReason duplicate_in_scrape
          (duplicatesFound toLowerCase storedPairs (map Some scrapedPairs))
      = length (duplicatesFound toLowerCase storedPairs (map Some scrapedPairs)))%nat.
Proof.
  split.
  - rewrite merge_keepFirst, keepFirst_app, length_app, app_nil_r.
    destruct (keepFirst_key_set storedPairs [] ∅) as [Hlen Hin]; [set_solver|].
    cbn zeta in *. fold (existingKeysOf toLowerCase storedPairs) in Hlen, Hin.
    rewrite size_empty, Nat.add_0_r in Hlen. rewrite Hlen, <- Nat.add_assoc. f_equal.
    unfold duplicatesFound. rewrite detectStep_count; [reflexivity|].
    intros k. rewrite Hin.
    assert (k ∈ rev (map key (keepFirst toLowerCase [] storedPairs))
            <-> k ∈ map key (keepFirst toLowerCase [] storedPairs))
      by (rewrite !list_elem_of_In; symmetry; apply in_rev).
    set_solver.
  - unfold countReason. induction (duplicatesFound _ _ _) as [|d l IH]; [reflexivity|].
    cbn [List.filter]. destruct (reason d); cbn [length]; lia.
Qed.
End MergeGrowth.

(** ** The patterns of [parsePairsFromText] *)
Section TextLemmas.
Import Duplicates PairsText Server.

Lemma split_line (l rest : jsstring) :
  forallb notLineTerminator l = true -> split (l ++ 10%N :: rest) = l :: split rest.
Proof.
  induction l as [|c l IH]; intros H; [reflexivity|].
  cbn [forallb] in H. apply andb_true_iff in H as [Hc Hl].
  cbn [app split]. rewrite (IH Hl).
  destruct (N.eqb_spec c 10) as [->|_]; [discriminate|reflexivity].
Qed.

Lemma trim_fixed (s : jsstring) :
  trim s = s
  <-> match s with c :: _ => isWhiteSpace c = false | [] => True end
      /\ match last s with Some d => isWhiteSpace d = false | None => True end.
Proof.
  split.
  - intros H. split.
    + pose proof (headNotSpace_trim s) as Hh. rewrite H in Hh.
      destruct s as [|c s]; [exact I|]. unfold trim, trimStart in H.
      pose proof (dropWhile_head isWhiteSpace (c :: s)) as Hd.
      destruct (isWhiteSpace c) eqn:E; [|reflexivity]. exfalso.
      apply (f_equal (@length N)) in H.
      pose proof (trimEnd_length (dropWhile isWhiteSpace (c :: s))) as H1.
      cbn [dropWhile] in H, H1. rewrite E in H, H1.
      pose proof (dropWhile_length isWhiteSpace s). cbn [length] in H. lia.
    + destruct s as [|d s _] using rev_ind; [exact I|]. rewrite last_snoc.
      destruct (isWhiteSpace d) eqn:E; [|reflexivity]. exfalso.
      assert (Hle : (length (trim (s ++ [d])) <= length s)%nat).
      { unfold trim. pose proof (dropWhile_suffix isWhiteSpace (s ++ [d])) as (u & Hu & _).
        fold (trimStart (s ++ [d])) in Hu.
        destruct (trimStart (s ++ [d])) as [|x r _] using rev_ind; [cbn; lia|].
        rewrite app_assoc in Hu. apply app_inj_tail in Hu as [Hs ->].
        rewrite trimEnd_snoc, E. pose proof (trimEnd_length r).
        rewrite Hs, length_app. lia. }
      rewrite H, length_app in Hle. cbn [length] in Hle. lia.
  - intros [Hh Hl]. unfold trim, trimStart.
    assert (Hs : dropWhile isWhiteSpace s = s).
    { destruct s as [|c s]; [reflexivity|]. by apply dropWhile_stop. }
    rewrite Hs. destruct s as [|d s _] using rev_ind; [reflexivity|].
    rewrite last_snoc in Hl. by rewrite trimEnd_snoc, Hl.
Qed.

Lemma firstSome_None {A B : Type} (try : A -> option B) (l : list A) :
  (forall x, x ∈ l -> try x = None) -> firstSome try l = None.
Proof.
  induction l as [|x l IH]; intros H; [reflexivity|]. cbn [firstSome].
  rewrite (H x) by set_solver. apply IH. intros y Hy. apply H. set_solver.
Qed.

Lemma firstSome_app {A B : Type} (try : A -> option B) (l1 l2 : list A) :
  (forall x, x ∈ l1 -> try x = None) -> firstSome try (l1 ++ l2) = firstSome try l2.
Proof.
  induction l1 as [|x l IH]; intros H; [reflexivity|]. cbn [app firstSome].
  rewrite (H x) by set_solver. apply IH. intros y Hy. apply H. set_solver.
Qed.

Lemma takeWhile_stop {A : Type} (f : A -> bool) (u v : list A) (c : A) :
  forallb f u = true -> f c = false -> Dedupe.takeWhile f (u ++ c :: v) = u.
Proof.
  intros Hu Hc. induction u as [|x u IH]; cbn [app Dedupe.takeWhile forallb] in *.
  - by rewrite Hc.
  - apply andb_true_iff in Hu as [Hx Hu]. by rewrite Hx, IH.
Qed.

Lemma takeWhile_whole {A : Type} (f : A -> bool) (u : list A) :
  forallb f u = true -> Dedupe.takeWhile f u = u.
Proof.
  induction u as [|x u IH]; [reflexivity|]. cbn [forallb Dedupe.takeWhile].
  intros H. apply andb_true_iff in H as [Hx Hu]. by rewrite Hx, IH.
Qed.

Lemma takeWhile_short {A : Type} (f : A -> bool) (u v : list A) (c : A) :
  f c = false -> (length (Dedupe.takeWhile f (u ++ c :: v)) <= length u)%nat.
Proof.
  intros Hc. induction u as [|x u IH]; cbn [app Dedupe.takeWhile length].
  - rewrite Hc. cbn. lia.
  - destruct (f x); cbn [length]; lia.
Qed.

Lemma elem_of_greedyCounts (class : N -> bool) (s : jsstring) (k : nat) :
  k ∈ greedyCounts class s -> (k <= length (Dedupe.takeWhile class s))%nat.
Proof.
  unfold greedyCounts. rewrite list_elem_of_In, <- in_rev, in_seq. lia.
Qed.

Lemma greedyCounts_one (class : N -> bool) (w c : N) (r : jsstring) :
  class w = true -> class c = false -> greedyCounts class (w :: c :: r) = [1; 0]%nat.
Proof. intros Hw Hc. unfold greedyCounts. cbn [Dedupe.takeWhile]. by rewrite Hw, Hc. Qed.

Lemma matchIgnoreCase_app (pattern r : jsstring) :
  matchIgnoreCase pattern (pattern ++ r) = Some r.
Proof.
  induction pattern as [|p pattern IH]; [reflexivity|].
  cbn [app matchIgnoreCase]. by rewrite N.eqb_refl.
Qed.

(** A pattern in which no unit is the space does not match across one. *)
Lemma matchIgnoreCase_before (pattern q rest r : jsstring) :
  forallb (fun p => negb (canonicalize p =? 32)%N) pattern = true ->
  matchIgnoreCase pattern (q ++ 32%N :: rest) = Some r ->
  exists r', matchIgnoreCase pattern q = Some r'.
Proof.
  revert q. induction pattern as [|p pattern IH]; intros q Hp H; [by eexists|].
  cbn [forallb] in Hp. apply andb_true_iff in Hp as [Hp0 Hp].
  destruct q as [|c q]; cbn [app matchIgnoreCase] in *.
  - change (canonicalize 32) with 32%N in H. rewrite N.eqb_sym in H.
    apply negb_true_iff in Hp0. by rewrite Hp0 in H.
  - destruct (canonicalize c =? canonicalize p)%N; [by apply IH|discriminate].
Qed.

Lemma containsSeparator_false (s : jsstring) (k : nat) :
  containsSeparator s = false -> (k < length s)%nat ->
  matchIgnoreCase separator (drop k s) = None.
Proof.
  unfold containsSeparator. intros H Hk.
  destruct (matchIgnoreCase separator (drop k s)) eqn:E; [|reflexivity].
  assert (Hex : existsb (fun k => match matchIgnoreCase separator (drop k s) with
                                  | Some _ => true | None => false end)
                        (seq 0 (length s)) = true).
  { apply existsb_exists. exists k. rewrite E. split; [apply in_seq; lia|reflexivity]. }
  congruence.
Qed.
End TextLemmas.

(** ** The text of the pairs read back *)
Section RoundTrip.
Import Duplicates PairsText Server.

Lemma plainText_spec (s : jsstring) :
  plainText s = true ->
  exists c r, s = c :: r /\ isWhiteSpace c = false
              /\ (exists d u, s = u ++ [d] /\ isWhiteSpace d = false)
              /\ forallb notLineTerminator s = true.
Proof.
  unfold plainText. intros H. apply andb_true_iff in H as [H Hlt].
  apply andb_true_iff in H as [Hne Htrim]. apply bool_decide_eq_true in Htrim.
  apply trim_fixed in Htrim as [Hh Hl].
  destruct s as [|c r]; [discriminate|]. exists c, r. repeat (split; [done|]).
  split; [|exact Hlt].
  assert (Hcons : c :: r <> []) by done. revert Hl Hcons. generalize (c :: r) as s.
  intros s. destruct s as [|d u _] using rev_ind; [done|].
  rewrite last_snoc. intros Hl _. by exists d, u.
Qed.

Lemma matchArtist_plain (a : jsstring) :
  plainText a = true -> matchArtist (32%N :: a) = Some a.
Proof.
  intros Ha. destruct (plainText_spec a Ha) as (c & r & -> & Hc & _ & Hlt).
  unfold matchArtist. rewrite (greedyCounts_one isWhiteSpace 32 c r eq_refl Hc).
  cbn [firstSome drop matchRest]. by rewrite Hlt.
Qed.

Lemma matchSeparator_plain (a : jsstring) :
  plainText a = true -> matchSeparator (32%N :: separator ++ 32%N :: a) = Some a.
Proof.
  intros Ha. unfold matchSeparator.
  change (32%N :: separator ++ 32%N :: a)
    with (32%N :: 8218%N :: ([196; 238]%N ++ 32%N :: a)).
  rewrite (greedyCounts_one isWhiteSpace 32 8218 _ eq_refl eq_refl).
  cbn [firstSome drop].
  change (8218%N :: [196; 238]%N ++ 32%N :: a) with (separator ++ 32%N :: a).
  rewrite matchIgnoreCase_app. by rewrite matchArtist_plain.
Qed.

Lemma matchSeparator_inside (t rest : jsstring) (n : nat) :
  plainText t = true -> containsSeparator t = false -> (n < length t)%nat ->
  matchSeparator (drop n t ++ 32%N :: rest) = None.
Proof.
  intros Ht Hsep Hn.
  destruct (plainText_spec t Ht) as (c0 & r0 & _ & _ & (d & u & Hdu & Hd) & _).
  unfold matchSeparator. apply firstSome_None. intros k Hk.
  apply elem_of_greedyCounts in Hk.
  assert (Hk' : (n + k < length t)%nat).
  { rewrite Hdu in Hk, Hn |- *. rewrite length_app in Hn |- *. cbn [length] in Hn |- *.
    rewrite drop_app_le, <- app_assoc in Hk by lia. cbn [app] in Hk.
    pose proof (takeWhile_short isWhiteSpace (drop n u) (32%N :: rest) d Hd) as Hshort.
    rewrite length_drop in Hshort. lia. }
  rewrite drop_app_le by (rewrite length_drop; lia). rewrite drop_drop.
  destruct (matchIgnoreCase separator _) as [r'|] eqn:E; [|reflexivity].
  apply matchIgnoreCase_before in E as (r'' & E); [|reflexivity].
  by rewrite (containsSeparator_false _ _ Hsep Hk') in E.
Qed.

Lemma forallb_line (t a : jsstring) :
  plainText t = true -> plainText a = true ->
  forallb notLineTerminator (t ++ 32%N :: separator ++ 32%N :: a) = true.
Proof.
  intros Ht Ha.
  destruct (plainText_spec t Ht) as (_ & _ & _ & _ & _ & Hlt).
  destruct (plainText_spec a Ha) as (_ & _ & _ & _ & _ & Hla).
  rewrite forallb_app, Hlt. cbn [forallb separator app]. by rewrite Hla.
Qed.

Lemma matchTitle_plain (t a : jsstring) :
  plainText t = true -> containsSeparator t = false -> plainText a = true ->
  matchTitle (t ++ 32%N :: separator ++ 32%N :: a) = Some (t, a).
Proof.
  intros Ht Hsep Ha. unfold matchTitle, lazyCounts.
  rewrite takeWhile_whole by (by apply forallb_line).
  destruct (plainText_spec t Ht) as (c & r & Hcr & _).
  assert (Hlen : length (t ++ 32%N :: separator ++ 32%N :: a)
                 = (length r + S (5 + length a))%nat).
  { rewrite Hcr, !length_app. cbn [length separator app]. lia. }
  rewrite Hlen, seq_app. rewrite firstSome_app.
  - cbn [seq firstSome]. replace (1 + length r)%nat with (length t) by (by rewrite Hcr).
    rewrite drop_app_length, take_app_length, matchSeparator_plain by exact Ha. reflexivity.
  - intros n Hn. apply list_elem_of_In, in_seq in Hn.
    rewrite drop_app_le by (rewrite Hcr; cbn [length]; lia).
    rewrite matchSeparator_inside; [reflexivity|assumption..|].
    rewrite Hcr. cbn [length]. lia.
Qed.

Lemma matchTrackLine_plain (label t a : jsstring) :
  plainText t = true -> containsSeparator t = false -> plainText a = true ->
  matchTrackLine label (label ++ 32%N :: t ++ 32%N :: separator ++ 32%N :: a) = Some (t, a).
Proof.
  intros Ht Hsep Ha. unfold matchTrackLine. rewrite matchIgnoreCase_app.
  pose proof (matchTitle_plain t a Ht Hsep Ha) as Hm.
  destruct (plainText_spec t Ht) as (c & r & Hcr & Hc & _). subst t. cbn [app] in *.
  rewrite (greedyCounts_one isWhiteSpace 32 c _ eq_refl Hc). cbn [firstSome drop].
  by rewrite Hm.
Qed.

Lemma matchPairLine_number (k : Z) :
  0 <= k -> matchPairLine (js "Pair " ++ numberToString k) = Some (numberToString k).
Proof.
  intros Hk. destruct (numberToString_digits k Hk) as (d & ds & -> & Hds & _).
  pose proof (digits_no_ws _ Hds) as Hws. cbn [existsb] in Hws.
  apply orb_false_iff in Hws as [Hd _].
  unfold matchPairLine. change (js "Pair " ++ d :: ds) with (js "Pair" ++ 32%N :: d :: ds).
  rewrite matchIgnoreCase_app. cbn [Dedupe.takeWhile dropWhile].
  change (isWhiteSpace 32) with true. cbv iota. rewrite Hd.
  by rewrite takeWhile_whole.
Qed.

Lemma trim_between (c : N) (x y : jsstring) :
  isWhiteSpace c = false -> (exists d u, y = u ++ [d] /\ isWhiteSpace d = false) ->
  trim (c :: x ++ y) = c :: x ++ y.
Proof.
  intros Hc (d & u & -> & Hd). apply trim_fixed. split; [exact Hc|].
  rewrite app_comm_cons, app_assoc, last_snoc. exact Hd.
Qed.

Lemma digits_last (ds : jsstring) :
  ds <> [] -> forallb isDigit ds = true ->
  exists d u, ds = u ++ [d] /\ isWhiteSpace d = false.
Proof.
  intros Hne Hds. destruct ds as [|d u _] using rev_ind; [done|]. exists d, u.
  split; [reflexivity|]. apply digits_no_ws in Hds. rewrite existsb_app in Hds.
  apply orb_false_iff in Hds as [_ Hd]. cbn [existsb] in Hd. by rewrite orb_false_r in Hd.
Qed.

Lemma parseLine_nonempty (st : ParseState) (line : jsstring) :
  line <> [] ->
  parseLine st line
  = match matchPairLine line with
    | Some digits =>
        {| pairs := pushCurrent st; currentPair := Some (None, None);
           currentNumber := parseInt digits |}
    | None =>
        match matchTrackLine (js "Original:") line, currentPair st with
        | Some groups, Some (_, sampled) =>
            {| pairs := pairs st;
               currentPair := Some (Some (parsedTrack groups), sampled);
               currentNumber := currentNumber st |}
        | _, _ =>
            match matchTrackLine (js "Sampled:") line, currentPair st with
            | Some groups, Some (original, _) =>
                {| pairs := pairs st;
                   currentPair := Some (original, Some (parsedTrack groups));
                   currentNumber := currentNumber st |}
            | _, _ => st
            end
        end
    end.
Proof. by destruct line. Qed.

Lemma parseLine_pair (st : ParseState) (k : Z) :
  0 <= k ->
  parseLine st (trim (js "Pair " ++ numberToString k))
  = {| pairs := pushCurrent st; currentPair := Some (None, None);
       currentNumber := Some k |}.
Proof.
  intros Hk.
  assert (Htrim : trim (js "Pair " ++ numberToString k) = js "Pair " ++ numberToString k).
  { destruct (numberToString_digits k Hk) as (d & ds & E & Hds & _). rewrite E.
    apply (trim_between 80 (js "air ") (d :: ds) eq_refl). by apply digits_last. }
  rewrite Htrim, parseLine_nonempty by done.
  by rewrite matchPairLine_number, parseInt_numberToString.
Qed.

Lemma parseLine_original (st : ParseState) (t a : jsstring) (o s : option Track) :
  currentPair st = Some (o, s) ->
  plainText t = true -> containsSeparator t = false -> plainText a = true ->
  parseLine st (trim (js "Original: " ++ t ++ [32%N] ++ separator ++ [32%N] ++ a))
  = {| pairs := pairs st;
       currentPair := Some (Some (mkTrack (Some t) (Some a)), s);
       currentNumber := currentNumber st |}.
Proof.
  intros Hcur Ht Hsep Ha.
  change (js "Original: " ++ t ++ [32%N] ++ separator ++ [32%N] ++ a)
    with (js "Original:" ++ 32%N :: t ++ 32%N :: separator ++ 32%N :: a).
  set (line := js "Original:" ++ 32%N :: t ++ 32%N :: separator ++ 32%N :: a).
  assert (Htrim : trim line = line).
  { destruct (plainText_spec a Ha) as (_ & _ & _ & _ & (d & u & -> & Hd) & _).
    apply trim_fixed. split; [reflexivity|]. unfold line.
    repeat first [rewrite last_snoc | rewrite last_app | rewrite last_cons]. exact Hd. }
  assert (Hp : matchPairLine line = None) by reflexivity.
  rewrite Htrim, parseLine_nonempty, Hp by done. unfold line.
  rewrite matchTrackLine_plain, Hcur by assumption. unfold parsedTrack. cbn [fst snd].
  unfold plainText in Ht, Ha.
  apply andb_true_iff in Ht as [Ht _]. apply andb_true_iff in Ht as [_ Ht].
  apply andb_true_iff in Ha as [Ha _]. apply andb_true_iff in Ha as [_ Ha].
  apply bool_decide_eq_true in Ht, Ha. by rewrite Ht, Ha.
Qed.

Lemma parseLine_sampled (st : ParseState) (t a : jsstring) (o s : option Track) :
  currentPair st = Some (o, s) ->
  plainText t = true -> containsSeparator t = false -> plainText a = true ->
  parseLine st (trim (js "Sampled: " ++ t ++ [32%N] ++ separator ++ [32%N] ++ a))
  = {| pairs := pairs st;
       currentPair := Some (o, Some (mkTrack (Some t) (Some a)));
       currentNumber := currentNumber st |}.
Proof.
  intros Hcur Ht Hsep Ha.
  change (js "Sampled: " ++ t ++ [32%N] ++ separator ++ [32%N] ++ a)
    with (js "Sampled:" ++ 32%N :: t ++ 32%N :: separator ++ 32%N :: a).
  set (line := js "Sampled:" ++ 32%N :: t ++ 32%N :: separator ++ 32%N :: a).
  assert (Htrim : trim line = line).
  { destruct (plainText_spec a Ha) as (_ & _ & _ & _ & (d & u & -> & Hd) & _).
    apply trim_fixed. split; [reflexivity|]. unfold line.
    repeat first [rewrite last_snoc | rewrite last_app | rewrite last_cons]. exact Hd. }
  assert (Hp : matchPairLine line = None) by reflexivity.
  assert (Ho : matchTrackLine (js "Original:") line = None) by reflexivity.
  rewrite Htrim, parseLine_nonempty, Hp, Ho by done. unfold line.
  rewrite matchTrackLine_plain, Hcur by assumption. unfold parsedTrack. cbn [fst snd].
  unfold plainText in Ht, Ha.
  apply andb_true_iff in Ht as [Ht _]. apply andb_true_iff in Ht as [_ Ht].
  apply andb_true_iff in Ha as [Ha _]. apply andb_true_iff in Ha as [_ Ha].
  apply bool_decide_eq_true in Ht, Ha. by rewrite Ht, Ha.
Qed.

Lemma plainTrack_spec (track : option Track) :
  plainTrack track = true ->
  exists t a, track = Some (mkTrack (Some t) (Some a))
              /\ plainText t = true /\ containsSeparator t = false /\ plainText a = true.
Proof.
  destruct track as [[[t|] [a|]]|]; try discriminate. cbn [plainTrack]. intros H.
  apply andb_true_iff in H as [H Ha]. apply andb_true_iff in H as [Ht Hs].
  apply negb_true_iff in Hs. by exists t, a.
Qed.

Lemma forallb_numeral (k : Z) :
  0 <= k -> forallb notLineTerminator (js "Pair " ++ numberToString k) = true.
Proof.
  intros Hk. destruct (numberToString_digits k Hk) as (d & ds & -> & Hds & _).
  rewrite forallb_app. apply andb_true_iff. split; [reflexivity|].
  eapply forallb_impl; [|exact Hds]. intros c Hc.
  apply digit_cases in Hc. cbn [In] in Hc.
  repeat (destruct Hc as [<-|Hc]; [reflexivity|]). contradiction.
Qed.

(** The block of a pair with plain tracks, and what the parser makes of its
    four lines. *)
Lemma pairBlock_parsed (k : Z) (o s : option Track) :
  0 <= k -> plainTrack o = true -> plainTrack s = true ->
  exists block,
    pairBlock k o s = Some block
    /\ forall rest st,
         let st' := fold_left parseLine (map trim (split (block ++ rest))) st in
         exists st1,
           st' = fold_left parseLine (map trim (split rest)) st1
           /\ pushCurrent st1 = pushCurrent st ++ [mkParsed (Some k) o s].
Proof.
  intros Hk Ho Hs.
  destruct (plainTrack_spec o Ho) as (t & a & -> & Ht & Hsep & Ha).
  destruct (plainTrack_spec s Hs) as (t' & a' & -> & Ht' & Hsep' & Ha').
  eexists. split; [reflexivity|]. intros rest st. cbn zeta.
  cbn [trackLine templateOf title artist from_option id].
  set (lineP := js "Pair " ++ numberToString k).
  set (lineO := js "Original: " ++ t ++ [32%N] ++ separator ++ [32%N] ++ a).
  set (lineS := js "Sampled: " ++ t' ++ [32%N] ++ separator ++ [32%N] ++ a').
  assert (HlP : forallb notLineTerminator lineP = true) by (by apply forallb_numeral).
  assert (HlO : forallb notLineTerminator lineO = true).
  { unfold lineO. rewrite forallb_app. apply andb_true_iff. split; [reflexivity|].
    by apply forallb_line. }
  assert (HlS : forallb notLineTerminator lineS = true).
  { unfold lineS. rewrite forallb_app. apply andb_true_iff. split; [reflexivity|].
    by apply forallb_line. }
  rewrite <- !app_assoc. cbn [app].
  rewrite (app_assoc (js "Pair ") (numberToString k)). fold lineP.
  rewrite (split_line lineP _ HlP), (split_line lineO _ HlO), (split_line lineS _ HlS).
  change (split (10%N :: rest)) with ([] :: split rest).
  cbn [map fold_left]. unfold lineP, lineO, lineS.
  rewrite (parseLine_pair st k Hk).
  match goal with
  | |- context [parseLine ?s (trim (js "Original: " ++ _))] =>
      rewrite (parseLine_original s t a None None eq_refl Ht Hsep Ha)
  end.
  cbn [pairs currentPair currentNumber].
  match goal with
  | |- context [parseLine ?s (trim (js "Sampled: " ++ _))] =>
      rewrite (parseLine_sampled s t' a' _ None eq_refl Ht' Hsep' Ha')
  end.
  cbn [pairs currentPair currentNumber trim trimStart trimEnd dropWhile rev parseLine].
  eexists. split; [reflexivity|]. reflexivity.
Qed.

Lemma parse_generated (pairs : list Pair) :
  Forall (fun p => plainTrack (originalTrack p) = true
                   /\ plainTrack (sampledTrack p) = true) pairs ->
  forall index,
  exists text,
    (forall acc, generateFrom index pairs acc = Some (acc ++ text))
    /\ forall st,
         pushCurrent (fold_left parseLine (map trim (split text)) st)
         = pushCurrent st ++ imap (fun i => parsedOf (index + i)) pairs.
Proof.
  induction 1 as [|p rest [Ho Hs] Hrest IH]; intros index.
  - exists []. split; [intros acc; by rewrite app_nil_r|].
    intros st. cbn. by rewrite app_nil_r.
  - destruct (pairBlock_parsed (Z.of_nat index) _ _ (Nat2Z.is_nonneg index) Ho Hs)
      as (block & Hblock & Hparse).
    destruct (IH (S index)) as (text & Hgen & Hread).
    exists (block ++ text). split.
    + intros acc. cbn [generateFrom]. by rewrite Hblock, Hgen, app_assoc.
    + intros st. destruct (Hparse text st) as (st1 & -> & Hst1).
      rewrite Hread, Hst1, <- app_assoc. cbn [app imap]. f_equal.
      unfold parsedOf at 2. rewrite Nat.add_0_r. f_equal.
      apply imap_ext. intros i q _. cbn. f_equal. lia.
Qed.

(** X21.  The text that [generatePlaylistPairsTextFromPairs] writes reads back:
    for pairs whose tracks have plain titles and artists, and no separator
    in a title, [parsePairsFromText] returns one parsed pair for each pair,
    in order, numbered from 0, with the same tracks, and [validatePairs]
    accepts them. *)
Theorem parsePairsFromText_generated (pairs : list Pair) :
  Forall (fun p => plainTrack (originalTrack p) = true
                   /\ plainTrack (sampledTrack p) = true) pairs ->
  exists text,
    generatePlaylistPairsTextFromPairs pairs = Some text
    /\ parsePairsFromText text = imap parsedOf pairs
    /\ validatePairs (parsePairsFromText text) = None.
Proof.
  intros Hplain. destruct (parse_generated pairs Hplain 0) as (text & Hgen & Hread).
  exists text. split; [apply (Hgen [])|].
  assert (Hparsed : parsePairsFromText text = imap parsedOf pairs).
  { unfold parsePairsFromText. rewrite Hread. cbn [pushCurrent currentPair PairsText.pairs app].
    apply imap_ext. intros i q _. reflexivity. }
  split; [exact Hparsed|]. rewrite Hparsed. clear - Hplain.
  assert (H : forall n, validatePairs (imap (fun i => parsedOf (n + i)) pairs) = None).
  { induction Hplain as [|p rest [Ho Hs] _ IH]; intros n; [reflexivity|].
    cbn [imap validatePairs parsedOf original sampled].
    destruct (plainTrack_spec _ Ho) as (? & ? & -> & _).
    destruct (plainTrack_spec _ Hs) as (? & ? & -> & _).
    specialize (IH (S n)). etransitivity; [|exact IH]. f_equal.
    apply imap_ext. intros i q _. cbn. unfold parsedOf. do 3 f_equal. lia. }
  exact (H 0%nat).
Qed.
End RoundTrip.

(** ** The text of the default pairing *)
Section DefaultText.
Import Duplicates PairsText Playlist Server.

Lemma defaultLoop_acc (fuel : nat) (tracks : list Track) (i : nat) (acc : list Pair) :
  defaultLoop fuel tracks i acc = acc ++ defaultLoop fuel tracks i [].
Proof.
  revert i acc. induction fuel as [|fuel IH]; intros i acc; cbn [defaultLoop].
  - by rewrite app_nil_r.
  - destruct (i <? length tracks)%nat; [|by rewrite app_nil_r].
    rewrite IH, (IH _ ([] ++ _)). by rewrite <- app_assoc.
Qed.

Lemma textLoop_generateFrom (tracks : list Track) (fuel k : nat) (text : jsstring) :
  textLoop fuel tracks (2 * k) text
  = generateFrom k (defaultLoop fuel tracks (2 * k) []) text.
Proof.
  revert k text. induction fuel as [|fuel IH]; intros k text; [reflexivity|].
  cbn [textLoop defaultLoop]. destruct (2 * k <? length tracks)%nat; [|reflexivity].
  rewrite defaultLoop_acc. cbn [app generateFrom defaultPair originalTrack sampledTrack].
  replace (Z.of_nat (2 * k) / 2) with (Z.of_nat k)
    by (rewrite Nat2Z.inj_mul, Z.mul_comm, Z.div_mul; lia).
  destruct (pairBlock _ _ _) as [block|]; [|reflexivity].
  replace (2 * k + 2)%nat with (2 * S k)%nat by lia. apply IH.
Qed.

Lemma textLoop_odd (tracks : list Track) (fuel i : nat) (text : jsstring) :
  Nat.odd (length tracks - i) = true -> (length tracks - i <= 2 * fuel)%nat ->
  textLoop fuel tracks i text = None.
Proof.
  revert i text. induction fuel as [|fuel IH]; intros i text Hodd Hfuel.
  - replace (length tracks - i)%nat with 0%nat in Hodd by lia. discriminate.
  - cbn [textLoop]. destruct (Nat.ltb_spec i (length tracks)) as [Hlt|Hge].
    + destruct (pairBlock _ _ _) as [block|] eqn:E; [|reflexivity].
      destruct (decide (length tracks - i = 1)%nat) as [Hone|Hmore].
      * rewrite (lookup_ge_None_2 tracks (i + 1)) in E by lia.
        unfold pairBlock in E. cbn [trackLine] in E. by destruct (trackLine _ _).
      * apply IH; [|lia].
        replace (length tracks - i)%nat with (S (S (length tracks - (i + 2)))) in Hodd by lia.
        by rewrite Nat.odd_succ_succ in Hodd.
    + replace (length tracks - i)%nat with 0%nat in Hodd by lia. discriminate.
Qed.

(** X20.  The text of the default pairing: [generatePlaylistPairsText] on the
    tracks writes what [generatePlaylistPairsTextFromPairs] writes on the
    pairs of the default pairing; on an odd number of tracks it throws, the
    last pair having no sampled track. *)
Theorem generatePlaylistPairsText_default (tracks : list Track) :
  generatePlaylistPairsText tracks
  = generatePlaylistPairsTextFromPairs (defaultLoop (length tracks) tracks 0 [])
  /\ (Nat.odd (length tracks) = true -> generatePlaylistPairsText tracks = None).
Proof.
  split.
  - apply (textLoop_generateFrom tracks (length tracks) 0 []).
  - intros Hodd. apply textLoop_odd; [by rewrite Nat.sub_0_r|lia].
Qed.
End DefaultText.

(** ** The header lines of a confirmed text *)
Section Headers.
Import Duplicates PairsText Playlist.



End Headers.

(** ** parsePlaylistId *)
Section PlaylistIds.
Import Duplicates PairsText Playlist.

Lemma matchExact_app (pattern r : jsstring) : matchExact pattern (pattern ++ r) = Some r.
Proof.
  induction pattern as [|p pattern IH]; [reflexivity|].
  cbn [app matchExact]. by rewrite N.eqb_refl.
Qed.

Lemma matchExact_Some (pattern s r : jsstring) :
  matchExact pattern s = Some r -> s = pattern ++ r.
Proof.
  revert s. induction pattern as [|p pattern IH]; intros s; cbn [matchExact].
  - by intros [= ->].
  - destruct s as [|c s]; [discriminate|].
    destruct (N.eqb_spec c p) as [->|]; [|discriminate].
    intros H. cbn [app]. f_equal. by apply IH.
Qed.

Lemma takeWhile_dropWhile {A : Type} (f : A -> bool) (s : list A) :
  s = Dedupe.takeWhile f s ++ dropWhile f s
  /\ forallb f (Dedupe.takeWhile f s) = true.
Proof.
  induction s as [|x s [IH1 IH2]]; [done|]. cbn [Dedupe.takeWhile dropWhile].
  destruct (f x) eqn:E; [|done]. cbn [app forallb]. rewrite E, IH2.
  split; [by f_equal|reflexivity].
Qed.

Lemma matchPlaylist_Some (s id : jsstring) :
  matchPlaylist s = Some id
  <-> exists c rest,
        s = js "playlist" ++ c :: id ++ rest
        /\ (c = 47%N \/ c = 58%N)
        /\ id <> [] /\ forallb isAlnum id = true
        /\ match rest with d :: _ => isAlnum d = false | [] => True end.
Proof.
  unfold matchPlaylist. split.
  - destruct (matchExact (js "playlist") s) as [[|c r]|] eqn:E; try discriminate.
    apply matchExact_Some in E.
    destruct ((c =? 47) || (c =? 58))%N eqn:Ec; [|discriminate].
    destruct (takeWhile_dropWhile isAlnum r) as [Hr Hall].
    pose proof (dropWhile_head isAlnum r) as Hh.
    destruct (Dedupe.takeWhile isAlnum r) as [|x l] eqn:Et; [discriminate|].
    intros [= <-]. exists c, (dropWhile isAlnum r).
    split; [by rewrite E, Hr at 1|].
    split; [apply orb_true_iff in Ec as [?%N.eqb_eq|?%N.eqb_eq]; auto|].
    split; [done|]. split; [exact Hall|]. by destruct (dropWhile isAlnum r).
  - intros (c & rest & -> & Hc & Hne & Hid & Hrest).
    rewrite matchExact_app.
    replace ((c =? 47) || (c =? 58))%N with true
      by (symmetry; apply orb_true_iff; destruct Hc as [->| ->]; auto).
    assert (Ht : Dedupe.takeWhile isAlnum (id ++ rest) = id).
    { destruct rest as [|d rest]; [rewrite app_nil_r; by apply takeWhile_whole|].
      by apply takeWhile_stop. }
    rewrite Ht. by destruct id.
Qed.

(** X23.  What [parsePlaylistId] returns: the identifier after the leftmost
    [playlist/] or [playlist:] that an identifier follows, which is a
    non-empty run of letters and digits, as long as it goes; it returns
    [null] only when nowhere in the input a letter or digit follows
    [playlist/] or [playlist:]. *)
Theorem parsePlaylistId_spec (input : jsstring) :
  (forall id, parsePlaylistId input = Some id ->
     exists pre c rest,
       input = pre ++ js "playlist" ++ c :: id ++ rest
       /\ (c = 47%N \/ c = 58%N)
       /\ id <> [] /\ forallb isAlnum id = true
       /\ match rest with d :: _ => isAlnum d = false | [] => True end
       /\ forall k, (k < length pre)%nat -> matchPlaylist (drop k input) = None)
  /\ (parsePlaylistId input = None ->
      forall pre c d rest,
        input = pre ++ js "playlist" ++ c :: d :: rest -> (c = 47%N \/ c = 58%N) ->
        isAlnum d = false).
Proof.
  split.
  - induction input as [|x input IH]; intros id; cbn [parsePlaylistId].
    + destruct (matchPlaylist []) eqn:E; [|discriminate]. intros [= ->].
      apply matchPlaylist_Some in E as (c & rest & H & _). discriminate.
    + destruct (matchPlaylist (x :: input)) as [id'|] eqn:E.
      * intros [= ->]. apply matchPlaylist_Some in E as (c & rest & H & Hc & Hne & Hid & Hr).
        exists [], c, rest. cbn [app length]. repeat (split; [assumption|]). intros k Hk. lia.
      * intros H. destruct (IH id H) as (pre & c & rest & -> & Hc & Hne & Hid & Hr & Hleft).
        exists (x :: pre), c, rest. cbn [app length]. repeat (split; [done|]).
        intros [|k] Hk; [exact E|]. cbn [drop]. apply Hleft. lia.
  - induction input as [|x input IH]; intros Hnone pre c d rest Heq Hc.
    + destruct pre; discriminate.
    + cbn [parsePlaylistId] in Hnone.
      destruct (matchPlaylist (x :: input)) as [id|] eqn:E; [discriminate|].
      destruct pre as [|y pre].
      * cbn [app] in Heq. unfold matchPlaylist in E. rewrite Heq in E.
        change (js "playlist" ++ c :: d :: rest) with (js "playlist" ++ (c :: d :: rest)) in E.
        rewrite matchExact_app in E.
        replace ((c =? 47) || (c =? 58))%N with true in E
          by (symmetry; apply orb_true_iff; destruct Hc as [->| ->]; auto).
        cbn [Dedupe.takeWhile] in E. by destruct (isAlnum d).
      * injection Heq as -> ->. by eapply IH.
Qed.

Lemma matchPlaylist_head (c : N) (s : jsstring) :
  c <> 112%N -> matchPlaylist (c :: s) = None.
Proof.
  intros Hc. unfold matchPlaylist. cbn [js matchExact].
  change (N_of_ascii "p") with 112%N. by destruct (N.eqb_spec c 112).
Qed.

Lemma matchPlaylist_second (c : N) (s : jsstring) :
  c <> 108%N -> matchPlaylist (112%N :: c :: s) = None.
Proof.
  intros Hc. unfold matchPlaylist. cbn [js matchExact].
  change (N_of_ascii "p") with 112%N. change (N_of_ascii "l") with 108%N.
  cbn [N.eqb Pos.eqb]. by destruct (N.eqb_spec c 108).
Qed.

Lemma parsePlaylistId_skip (c : N) (s : jsstring) :
  matchPlaylist (c :: s) = None -> parsePlaylistId (c :: s) = parsePlaylistId s.
Proof. intros H. cbn [parsePlaylistId]. by rewrite H. Qed.

Lemma parsePlaylistId_here (s id : jsstring) :
  matchPlaylist s = Some id -> parsePlaylistId s = Some id.
Proof. intros H. destruct s; cbn [parsePlaylistId]; by rewrite H. Qed.

(** X24.  The two documented forms of the input: a playlist URL (whatever
    follows the identifier, a query string say) and a playlist URI give the
    identifier. *)
Theorem parsePlaylistId_forms (id rest : jsstring) :
  id <> [] -> forallb isAlnum id = true ->
  match rest with d :: _ => isAlnum d = false | [] => True end ->
  parsePlaylistId (js "https://open.spotify.com/playlist/" ++ id ++ rest) = Some id
  /\ parsePlaylistId (js "spotify:playlist:" ++ id ++ rest) = Some id.
Proof.
  intros Hne Hid Hrest.
  assert (Hslash : matchPlaylist (js "playlist" ++ 47%N :: id ++ rest) = Some id).
  { apply matchPlaylist_Some. exists 47%N, rest. auto 6. }
  assert (Hcolon : matchPlaylist (js "playlist" ++ 58%N :: id ++ rest) = Some id).
  { apply matchPlaylist_Some. exists 58%N, rest. auto 6. }
  split.
  - change (js "https://open.spotify.com/playlist/" ++ id ++ rest)
      with (js "https://open.spotify.com/" ++ (js "playlist" ++ 47%N :: id ++ rest)).
    generalize dependent (js "playlist" ++ 47%N :: id ++ rest). intros s Hs.
    let l := eval vm_compute in (js "https://open.spotify.com/") in
    change (js "https://open.spotify.com/") with l.
    cbn [app].
    repeat (rewrite parsePlaylistId_skip
              by first [by apply matchPlaylist_head | by apply matchPlaylist_second]).
    by apply parsePlaylistId_here.
  - change (js "spotify:playlist:" ++ id ++ rest)
      with (js "spotify:" ++ (js "playlist" ++ 58%N :: id ++ rest)).
    generalize dependent (js "playlist" ++ 58%N :: id ++ rest). intros s Hs.
    let l := eval vm_compute in (js "spotify:") in change (js "spotify:") with l.
    cbn [app].
    repeat (rewrite parsePlaylistId_skip
              by first [by apply matchPlaylist_head | by apply matchPlaylist_second]).
    by apply parsePlaylistId_here.
Qed.
End PlaylistIds.

(** ** The merge over several batches *)
Section MergeBatches.
Import Duplicates PairsText Server.
Variable toLowerCase : jsstring -> jsstring.

Local Notation key := (Dedupe.getPairKey toLowerCase).

Lemma keepFirst_keepFirst (l : list (option Pair)) :
  keepFirst toLowerCase [] (keepFirst toLowerCase [] l) = keepFirst toLowerCase [] l.
Proof.
  destruct (keepFirst_keys toLowerCase [] l) as [Hnd Hin].
  apply keepFirst_id; [exact Hnd|]. intros p Hp. apply Hin in Hp. tauto.
Qed.

(** X16.  Merging batch after batch is merging all the batches at once, and a
    batch that was merged before adds nothing. *)
Theorem merge_batches (storedPairs batchA batchB : list (option Pair)) :
  merge toLowerCase (merge toLowerCase storedPairs batchA) batchB
  = merge toLowerCase storedPairs (batchA ++ batchB)
  /\ merge toLowerCase (merge toLowerCase storedPairs batchA) batchA
     = merge toLowerCase storedPairs batchA.
Proof.
  assert (Hall : forall B, merge toLowerCase (merge toLowerCase storedPairs batchA) B
                           = merge toLowerCase storedPairs (batchA ++ B)).
  { intros B. rewrite !merge_keepFirst, app_assoc.
    by rewrite !(keepFirst_app _ [] _ B), keepFirst_keepFirst. }
  split; [apply Hall|]. rewrite Hall, !merge_keepFirst, app_assoc, keepFirst_app.
  rewrite (keepFirst_all_seen _ _ batchA); [by rewrite app_nil_r|].
  intros p Hp. apply keepFirst_covers. set_solver.
Qed.
End MergeBatches.

(** ** The default pairing as a plan *)
Section SequentialPlan.
Import Duplicates PairsText PairingPlan Server.
Variable tracks : list Track.

Lemma isEven_double (k : nat) :
  isEven (1 + 2 * Z.of_nat k) = false /\ isEven (2 + 2 * Z.of_nat k) = true.
Proof.
  unfold isEven. rewrite !Z.rem_mod_nonneg by lia. split.
  - apply Z.eqb_neq. replace (1 + 2 * Z.of_nat k) with (1 + Z.of_nat k * 2) by lia.
    rewrite Z_mod_plus_full. discriminate.
  - apply Z.eqb_eq. replace (2 + 2 * Z.of_nat k) with (0 + (Z.of_nat k + 1) * 2) by lia.
    by rewrite Z_mod_plus_full.
Qed.

Lemma seqZ_double (off m : nat) :
  seqZ (1 + 2 * Z.of_nat off) (2 * Z.of_nat m)
  = flat_map (fun k => [1 + 2 * Z.of_nat k; 2 + 2 * Z.of_nat k]) (seq off m).
Proof.
  revert off. induction m as [|m IH]; intros off; [reflexivity|].
  rewrite seqZ_cons by lia. rewrite seqZ_cons by lia. cbn [seq flat_map app].
  replace (Z.pred (Z.pred (2 * Z.of_nat (S m)))) with (2 * Z.of_nat m) by lia.
  replace (Z.succ (Z.succ (1 + 2 * Z.of_nat off))) with (1 + 2 * Z.of_nat (S off)) by lia.
  replace (Z.succ (1 + 2 * Z.of_nat off)) with (2 + 2 * Z.of_nat off) by lia.
  by rewrite IH.
Qed.

Lemma filter_double (b : bool) (l : list nat) :
  List.filter (fun pos => if b then isEven pos else negb (isEven pos))
              (flat_map (fun k => [1 + 2 * Z.of_nat k; 2 + 2 * Z.of_nat k]) l)
  = map (fun k => (if b then 2 else 1) + 2 * Z.of_nat k) l.
Proof.
  induction l as [|k l IH]; [reflexivity|]. cbn [flat_map app List.filter map].
  destruct (isEven_double k) as [-> ->]. rewrite IH. by destruct b.
Qed.

Lemma positionPair_default (k : nat) :
  positionPair tracks (1 + 2 * Z.of_nat k) (2 + 2 * Z.of_nat k)
  = defaultPair tracks (0 + 2 * k).
Proof.
  unfold positionPair, defaultPair, trackAt.
  destruct (Z.ltb_spec (1 + 2 * Z.of_nat k) 1); [lia|].
  destruct (Z.ltb_spec (2 + 2 * Z.of_nat k) 1); [lia|].
  f_equal; try (f_equal; lia); lia.
Qed.

Lemma Sorted_map_seq {A : Type} (key : A -> Z) (f : nat -> A) (a m : nat) :
  (forall k, key (f k) <= key (f (S k))) -> Sorted (keyLe key) (map f (seq a m)).
Proof.
  intros H. revert a. induction m as [|m IH]; intros a; [constructor|].
  cbn [seq map]. constructor; [apply IH|].
  destruct m; cbn [seq map]; constructor. apply H.
Qed.

Lemma zip_map_seq (f g : nat -> Z) (l : list nat) :
  zip (map f l) (map g l) = map (fun k => (f k, g k)) l.
Proof. induction l as [|k l IH]; [reflexivity|]. cbn. by rewrite IH. Qed.

(** X9.  The default pairing is the plan with one [ODD_ORIGINAL] range over all
    the tracks: on an even number of tracks [buildPairsFromPlan] returns
    the pairs of the default pairing for that plan, with nothing left
    over; on an odd number, where the default pairing answers with the
    [odd] error, it throws for the range. *)
Theorem defaultPairing_sequentialPlan (totalTracks : Z) :
  match defaultPairing tracks totalTracks with
  | inr ps =>
      buildPairsFromPlan tracks (sequentialPlan (Z.of_nat (length tracks))) = Returned ps []
  | inl _ =>
      exists st,
        buildPairsFromPlan tracks (sequentialPlan (Z.of_nat (length tracks)))
        = Threw (UnmatchedTracks 1 1 (Z.of_nat (length tracks))
                   (S (length tracks / 2)) (length tracks / 2)) st
  end.
Proof.
  set (n := length tracks). set (range := mkRange 1 (Z.of_nat n) ODD_ORIGINAL).
  set (st0 := {| pairs := []; usedPositions := ∅ |}).
  assert (Hav : availablePositions range ∅ = seqZ 1 (Z.of_nat n)).
  { unfold availablePositions. cbn [start end_ range].
    replace (Z.of_nat n - 1 + 1) with (Z.of_nat n) by lia.
    induction (seqZ 1 (Z.of_nat n)) as [|x l IH]; [reflexivity|].
    cbn [List.filter]. rewrite bool_decide_eq_true_2 by set_solver. by rewrite IH. }
  assert (Hparts : forall m : nat,
            originalsOf range (seqZ 1 (2 * Z.of_nat m))
            = map (fun k => 1 + 2 * Z.of_nat k) (seq 0 m)
            /\ samplesOf range (seqZ 1 (2 * Z.of_nat m))
               = map (fun k => 2 + 2 * Z.of_nat k) (seq 0 m)).
  { intros m. pose proof (seqZ_double 0 m) as Hs.
    change (1 + 2 * Z.of_nat 0) with 1 in Hs. unfold originalsOf, samplesOf. cbn [mapping range isOriginal].
    rewrite Hs. split.
    - apply (filter_double false).
    - rewrite <- (filter_double true). apply filter_ext. intros pos.
      by rewrite negb_involutive. }
  unfold defaultPairing, buildPairsFromPlan, sequentialPlan.
  cbn [trios ranges processTrios fold_left processRanges]. fold n range st0.
  unfold processRange. cbn [usedPositions st0]. rewrite Hav.
  destruct (Nat.Even_or_Odd n) as [[m Hm]|[m Hm]].
  - assert (Hrem : Z.rem (Z.of_nat n) 2 =? 0 = true).
    { rewrite Z.rem_mod_nonneg by lia. apply Z.eqb_eq. rewrite Hm, Nat2Z.inj_mul.
      change (Z.of_nat 2) with 2. by rewrite Z.mul_comm, Z_mod_mult. }
    rewrite Hrem. cbn [negb].
    replace (Z.of_nat n) with (2 * Z.of_nat m) by lia.
    destruct (Hparts m) as [-> ->]. rewrite decide_True by (by rewrite !length_map).
    destruct (pairUp_spec tracks (map (fun k => 1 + 2 * Z.of_nat k) (seq 0 m))
                (map (fun k => 2 + 2 * Z.of_nat k) (seq 0 m)) st0) as [Hp Hu];
      [by rewrite !length_map|].
    cbn [processRanges]. rewrite Hp. cbn [pairs st0 app].
    rewrite zip_map_seq, map_map. cbn [fst snd].
    rewrite (map_ext _ (fun k => defaultPair tracks (0 + 2 * k)))
      by (intros k; apply positionPair_default).
    rewrite sortBy_Sorted_id.
    2:{ apply Sorted_map_seq. intros k. unfold minPos, defaultPair.
        cbn [originalPos sampledPos]. lia. }
    rewrite (defaultLoop_spec tracks n 0 []) by lia. cbn [app]. fold n.
    replace ((n - 0 + 1) / 2)%nat with m.
    2:{ rewrite Hm, Nat.sub_0_r. replace (2 * m + 1)%nat with (1 + m * 2)%nat by lia.
        rewrite Nat.div_add by lia. reflexivity. }
    f_equal. unfold leftoverPositions. apply List_filter_nil. intros pos Hpos.
    apply bool_decide_eq_false. intros Hout. apply Hout. rewrite Hu.
    fold n in Hpos. rewrite Hm, Nat2Z.inj_mul in Hpos. change (Z.of_nat 2) with 2 in Hpos.
    destruct (Hparts m) as [Ho Hs].
    assert (Hin : pos ∈ availablePositions range ∅).
    { rewrite Hav. by replace (Z.of_nat n) with (2 * Z.of_nat m) by lia. }
    rewrite Hav in Hin. replace (Z.of_nat n) with (2 * Z.of_nat m) in Hin by lia.
    rewrite <- Ho, <- Hs. unfold originalsOf, samplesOf.
    rewrite !elem_of_union, !elem_of_list_to_set, !elem_of_List_filter.
    destruct (isOriginal (mapping range) pos); cbn [negb]; tauto.
  - assert (Hrem : Z.rem (Z.of_nat n) 2 =? 0 = false).
    { rewrite Z.rem_mod_nonneg by lia. apply Z.eqb_neq. rewrite Hm.
      replace (Z.of_nat (2 * m + 1)) with (1 + Z.of_nat m * 2) by lia.
      rewrite Z_mod_plus_full. discriminate. }
    rewrite Hrem. cbn [negb].
    assert (Hodd : originalsOf range (seqZ 1 (Z.of_nat n))
                   = map (fun k => 1 + 2 * Z.of_nat k) (seq 0 m) ++ [1 + 2 * Z.of_nat m]
                   /\ samplesOf range (seqZ 1 (Z.of_nat n))
                      = map (fun k => 2 + 2 * Z.of_nat k) (seq 0 m)).
    { destruct (Hparts m) as [Ho Hs]. unfold originalsOf, samplesOf in *.
      replace n with (S (2 * m)) by lia. rewrite seqZ_S, !List.filter_app.
      rewrite Nat2Z.inj_mul. change (Z.of_nat 2) with 2. rewrite Ho, Hs.
      cbn [List.filter mapping range isOriginal]. destruct (isEven_double m) as [-> _].
      cbn [negb]. by rewrite app_nil_r. }
    destruct Hodd as [-> ->].
    rewrite !length_app, !length_map, !length_seq. cbn [length].
    rewrite decide_False by lia. exists st0. cbn [processRanges start end_ range].
    replace (n / 2)%nat with m.
    2:{ rewrite Hm. replace (2 * m + 1)%nat with (1 + m * 2)%nat by lia.
        rewrite Nat.div_add by lia. reflexivity. }
    change (Z.of_nat 0 + 1) with 1. by rewrite Nat.add_1_r.
Qed.
End SequentialPlan.

(** ** The tracks of the built pairs *)
Section BuiltPairs.
Import Duplicates PairsText PairingPlan Server.
Variable tracks : list Track.

Lemma trackAt_inside (pos : Z) :
  1 <= pos <= Z.of_nat (length tracks) ->
  exists track, trackAt tracks pos = Some track /\ tracks !! Z.to_nat (pos - 1) = Some track.
Proof.
  intros Hpos. unfold trackAt. destruct (Z.ltb_spec pos 1); [lia|].
  destruct (lookup_lt_is_Some_2 tracks (Z.to_nat (pos - 1))) as [track Ht]; [lia|].
  by exists track.
Qed.

Lemma pairUp_pairs (os ss : list Z) (st : BuildState) :
  exists new,
    pairs (pairUp tracks os ss st) = pairs st ++ new
    /\ Forall (fun p => exists o s, o ∈ os /\ s ∈ ss /\ p = positionPair tracks o s) new.
Proof.
  revert ss st. induction os as [|o os IH]; intros ss st.
  - exists []. by rewrite app_nil_r.
  - destruct ss as [|s ss]; [exists []; by rewrite app_nil_r|]. cbn [pairUp].
    match goal with |- context [pairUp tracks os ss ?s0] =>
      destruct (IH ss s0) as (new & -> & Hnew) end.
    cbn [pairs]. exists (positionPair tracks o s :: new). rewrite <- app_assoc.
    split; [reflexivity|]. constructor.
    + exists o, s. set_solver.
    + eapply Forall_impl; [exact Hnew|]. intros p (o' & s' & ? & ? & ->).
      exists o', s'. set_solver.
Qed.

Lemma processRanges_pairs (rangeIndex : nat) (rs : list RangeRule) (st st' : BuildState) :
  processRanges tracks rangeIndex rs st = inr st' ->
  exists new,
    pairs st' = pairs st ++ new
    /\ Forall (fun p => exists range o s,
                 range ∈ rs /\ start range <= o <= end_ range
                 /\ start range <= s <= end_ range /\ p = positionPair tracks o s) new.
Proof.
  revert rangeIndex st. induction rs as [|range rest IH]; intros rangeIndex st;
    cbn [processRanges].
  - intros [= <-]. exists []. by rewrite app_nil_r.
  - destruct (processRange tracks rangeIndex range st) as [e|st1] eqn:E1; [discriminate|].
    intros Hrest. apply IH in Hrest as (new2 & Hp2 & Hn2).
    unfold processRange in E1. destruct (decide _); [|discriminate]. injection E1 as <-.
    match type of Hp2 with context [pairUp tracks ?os ?ss st] =>
      destruct (pairUp_pairs os ss st) as (new1 & Hp1 & Hn1) end.
    exists (new1 ++ new2). rewrite Hp2, Hp1, <- app_assoc. split; [reflexivity|].
    apply Forall_app. split.
    + eapply Forall_impl; [exact Hn1|]. intros p (o & s & Ho & Hs & ->).
      unfold originalsOf in Ho. unfold samplesOf in Hs.
      apply elem_of_List_filter in Ho as [Ho _]. apply elem_of_List_filter in Hs as [Hs _].
      apply elem_of_availablePositions in Ho as [Ho _].
      apply elem_of_availablePositions in Hs as [Hs _].
      exists range, o, s. split; [set_solver|auto].
    + eapply Forall_impl; [exact Hn2|]. intros p (r & o & s & Hr & H).
      exists r, o, s. split; [set_solver|exact H].
Qed.

Lemma generateFrom_Some (pairs : list Pair) (index : nat) (text : jsstring) :
  Forall (fun p => is_Some (originalTrack p) /\ is_Some (sampledTrack p)) pairs ->
  is_Some (generateFrom index pairs text).
Proof.
  intros H. revert index text. induction H as [|p rest [[o Ho] [s Hs]] _ IH];
    intros index text; cbn [generateFrom]; [by eexists|].
  rewrite Ho, Hs. cbn [pairBlock trackLine]. apply IH.
Qed.

(** X8.  The pairs of a plan that validates and builds carry the tracks at their
    two positions, both of them present, so that the text of the pairs can
    always be written. *)
Theorem buildPairsFromPlan_tracks (plan : PairingPlan) (ps : list Pair) (leftover : list Z) :
  ok (validatePlan (Z.of_nat (length tracks)) plan) = true ->
  buildPairsFromPlan tracks plan = Returned ps leftover ->
  Forall (fun p =>
            (exists track, originalTrack p = Some track
                           /\ tracks !! Z.to_nat (originalPos p - 1) = Some track)
            /\ (exists track, sampledTrack p = Some track
                              /\ tracks !! Z.to_nat (sampledPos p - 1) = Some track)) ps
  /\ is_Some (generatePlaylistPairsTextFromPairs ps).
Proof.
  intros Hok Hbuild.
  assert (Hall : Forall (fun p =>
            (exists track, originalTrack p = Some track
                           /\ tracks !! Z.to_nat (originalPos p - 1) = Some track)
            /\ (exists track, sampledTrack p = Some track
                              /\ tracks !! Z.to_nat (sampledPos p - 1) = Some track)) ps).
  { destruct (validatePlan_ok _ _ Hok) as (_ & _ & Hin & Hbounds & _).
    unfold buildPairsFromPlan in Hbuild.
    destruct (processTrios_spec tracks (trios plan) {| pairs := []; usedPositions := ∅ |})
      as [Hp0 _]. cbn [pairs app] in Hp0.
    destruct (processRanges _ _ _ _) as [[e st]|st] eqn:E; [discriminate|].
    injection Hbuild as <- _.
    apply processRanges_pairs in E as (new & Hp & Hnew). rewrite Hp0 in Hp.
    assert (Hpos : forall o s, 1 <= o <= Z.of_nat (length tracks) ->
                     1 <= s <= Z.of_nat (length tracks) ->
                     (exists track, originalTrack (positionPair tracks o s) = Some track
                        /\ tracks !! Z.to_nat (originalPos (positionPair tracks o s) - 1)
                           = Some track)
                     /\ (exists track, sampledTrack (positionPair tracks o s) = Some track
                           /\ tracks !! Z.to_nat (sampledPos (positionPair tracks o s) - 1)
                              = Some track)).
    { intros o s Ho Hs. cbn [positionPair originalTrack sampledTrack originalPos sampledPos].
      split; by apply trackAt_inside. }
    apply Forall_forall. intros p Hin'.
    rewrite (sortBy_Permutation minPos (pairs st)), Hp in Hin'.
    apply elem_of_app in Hin' as [Ht|Hr].
    - apply list_elem_of_In, in_flat_map in Ht as (trio & Htrio & Hp').
      apply list_elem_of_In in Htrio.
      assert (Hb : forall x, x ∈ trioPositions trio -> 1 <= x <= Z.of_nat (length tracks)).
      { intros x Hx. apply Hin. by eapply trio_elem_positions. }
      unfold trioPositions in Hb. unfold trioPairs in Hp'. cbn [In] in Hp'.
      destruct Hp' as [<-|[<-|[]]]; apply Hpos; apply Hb; set_solver.
    - rewrite Forall_forall in Hnew.
      destruct (Hnew p Hr) as (range & o & s & Hrange & Ho & Hs & ->).
      destruct (Hbounds range Hrange). apply Hpos; lia. }
  split; [exact Hall|]. apply generateFrom_Some.
  eapply Forall_impl; [exact Hall|]. intros p [(t & -> & _) (t' & -> & _)]. by split.
Qed.
End BuiltPairs.

(** ** Examples of the further properties *)
Section PlanExamples.
Import Duplicates PairsText PairingPlan Server.

Lemma validatePlan_no_tracks_witness :
  0 < 1 /\ ok (validatePlan 0 plan9) = false.
Proof. split; [lia|]. apply (validatePlan_no_tracks 0 plan9). lia. Defined.

Lemma validatePlan_normalizePlan_witness :
  1 <= 10
  /\ Forall (fun error => isBoundError error = false)
            (errors (validatePlan 10 (normalizePlan rawPlan8 10))).
Proof. split; [lia|]. apply (validatePlan_normalizePlan 10 rawPlan8). lia. Defined.

Lemma buildPairsFromPlan_leftover_witness :
  exists ps,
    buildPairsFromPlan mockTracks {| trios := []; ranges := [mkRange 1 4 EVEN_ORIGINAL] |}
    = Returned ps [5; 6; 7; 8; 9; 10]
    /\ forall pos,
         pos ∈ [5; 6; 7; 8; 9; 10]
         <-> 1 <= pos <= Z.of_nat (length mockTracks) /\ occurrences pos ps = 0%nat.
Proof.
  eexists. split; [vm_compute; reflexivity|].
  apply (buildPairsFromPlan_leftover mockTracks
           {| trios := []; ranges := [mkRange 1 4 EVEN_ORIGINAL] |}).
  vm_compute. reflexivity.
Defined.

Lemma buildPairsFromPlan_outcome_witness :
  ok (validatePlan (Z.of_nat (length mockTracks)) plan8) = true
  /\ exists st,
       buildPairsFromPlan mockTracks plan8 = Threw (UnmatchedTracks 2 8 10 1 2) st.
Proof.
  split; [vm_compute; reflexivity|].
  apply (proj2 (buildPairsFromPlan_outcome mockTracks plan8 eq_refl)
               [mkRange 1 4 EVEN_ORIGINAL] (mkRange 8 10 ODD_ORIGINAL) []).
  - reflexivity.
  - repeat constructor.
  - vm_compute. discriminate.
Defined.

Lemma buildPairsFromPlan_length_witness :
  ok (validatePlan (Z.of_nat (length (take 9 mockTracks))) plan9) = true
  /\ exists ps leftover,
       buildPairsFromPlan (take 9 mockTracks) plan9 = Returned ps leftover
       /\ (2 * length ps = length (take 9 mockTracks) + length (trios plan9))%nat.
Proof.
  split; [vm_compute; reflexivity|].
  eexists. eexists. split; [vm_compute; reflexivity|].
  apply (buildPairsFromPlan_length (take 9 mockTracks) plan9 _ []);
    vm_compute; reflexivity.
Defined.

Lemma buildPairsFromPlan_tracks_witness :
  ok (validatePlan (Z.of_nat (length (take 9 mockTracks))) plan9) = true
  /\ exists ps leftover,
       buildPairsFromPlan (take 9 mockTracks) plan9 = Returned ps leftover
       /\ Forall (fun p =>
                    (exists track, originalTrack p = Some track
                       /\ take 9 mockTracks !! Z.to_nat (originalPos p - 1) = Some track)
                    /\ exists track, sampledTrack p = Some track
                         /\ take 9 mockTracks !! Z.to_nat (sampledPos p - 1) = Some track)
                 ps
       /\ is_Some (generatePlaylistPairsTextFromPairs ps).
Proof.
  split; [vm_compute; reflexivity|].
  eexists. eexists. split; [vm_compute; reflexivity|].
  apply (buildPairsFromPlan_tracks (take 9 mockTracks) plan9 _ []);
    vm_compute; reflexivity.
Defined.
End PlanExamples.

Section KeyExamples.
Import Dedupe Server Duplicates.

Lemma normalizeArtist_idempotent_witness :
  forallb isBasicUnit (js "  The   BEATLES ") = true
  /\ normalizeArtist toLowerCaseBasic
       (normalizeArtist toLowerCaseBasic (js "  The   BEATLES "))
     = normalizeArtist toLowerCaseBasic (js "  The   BEATLES ").
Proof.
  split; [vm_compute; reflexivity|].
  apply (normalizeArtist_idempotent toLowerCaseBasic toLowerCaseBasic_spec
           (js "  The   BEATLES ")).
  vm_compute. reflexivity.
Defined.

Lemma normalizeText_normalizeArtist_witness :
  forallb isBasicUnit (js " Daft  Punk") = true
  /\ normalizeText toLowerCaseBasic (js " Daft  Punk")
     = normalizeArtist toLowerCaseBasic (js " Daft  Punk").
Proof.
  split; [vm_compute; reflexivity|].
  apply (normalizeText_normalizeArtist toLowerCaseBasic toLowerCaseBasic_spec
           (js " Daft  Punk")).
  vm_compute. reflexivity.
Defined.

Lemma normalizeArtist_invariant_witness :
  normalizeArtist toLowerCaseBasic (js "Daft Punk")
  = normalizeArtist toLowerCaseBasic (js "DAFT PUNK")
  /\ normalizeArtist toLowerCaseBasic (js "Daft" ++ [32; 9]%N ++ js "Punk")
     = normalizeArtist toLowerCaseBasic (js "Daft" ++ [32]%N ++ js "Punk")
  /\ normalizeArtist toLowerCaseBasic ([32; 10]%N ++ js "Daft Punk" ++ [32]%N)
     = normalizeArtist toLowerCaseBasic (js "Daft Punk").
Proof.
  destruct (normalizeArtist_invariant toLowerCaseBasic toLowerCaseBasic_spec)
    as (Hcase & Hrun & Hends).
  split; [|split].
  - apply Hcase; vm_compute; reflexivity.
  - apply Hrun; try (vm_compute; reflexivity); discriminate.
  - apply Hends; vm_compute; reflexivity.
Defined.

Lemma getPairKey_pairParts_witness :
  basicArtist (orElse (original mockPair) (originalTrack mockPair)) = true
  /\ basicArtist (orElse (original storedMockPair) (originalTrack storedMockPair)) = true
  /\ (getPairKey toLowerCaseBasic (Some mockPair)
      = getPairKey toLowerCaseBasic (Some storedMockPair)
      <-> pairParts toLowerCaseBasic mockPair = pairParts toLowerCaseBasic storedMockPair).
Proof.
  split; [vm_compute; reflexivity|]. split; [vm_compute; reflexivity|].
  apply (getPairKey_pairParts toLowerCaseBasic toLowerCaseBasic_spec
           mockPair storedMockPair);
    vm_compute; reflexivity.
Defined.
End KeyExamples.

Section TextExamples.
Import Duplicates PairsText Playlist PairingPlan Server.

Lemma parsePairsFromText_generated_witness :
  Forall (fun p => plainTrack (originalTrack p) = true
                   /\ plainTrack (sampledTrack p) = true)
         (defaultLoop 4 (take 4 mockTracks) 0 [])
  /\ exists text,
       generatePlaylistPairsTextFromPairs (defaultLoop 4 (take 4 mockTracks) 0 [])
       = Some text
       /\ parsePairsFromText text
          = imap parsedOf (defaultLoop 4 (take 4 mockTracks) 0 [])
       /\ validatePairs (parsePairsFromText text) = None.
Proof.
  assert (H : Forall (fun p => plainTrack (originalTrack p) = true
                               /\ plainTrack (sampledTrack p) = true)
                     (defaultLoop 4 (take 4 mockTracks) 0 [])).
  { vm_compute. repeat constructor. }
  split; [exact H|].
  apply (parsePairsFromText_generated (defaultLoop 4 (take 4 mockTracks) 0 []) H).
Defined.

Lemma parsePlaylistId_forms_witness :
  js "37i9dQZF1DXcBWIGoYBM5M" <> []
  /\ forallb isAlnum (js "37i9dQZF1DXcBWIGoYBM5M") = true
  /\ parsePlaylistId (js "https://open.spotify.com/playlist/"
                      ++ js "37i9dQZF1DXcBWIGoYBM5M" ++ js "?si=abc")
     = Some (js "37i9dQZF1DXcBWIGoYBM5M")
  /\ parsePlaylistId (js "spotify:playlist:" ++ js "37i9dQZF1DXcBWIGoYBM5M" ++ js "?si=abc")
     = Some (js "37i9dQZF1DXcBWIGoYBM5M").
Proof.
  split; [discriminate|]. split; [vm_compute; reflexivity|].
  apply (parsePlaylistId_forms (js "37i9dQZF1DXcBWIGoYBM5M") (js "?si=abc")).
  - discriminate.
  - vm_compute. reflexivity.
  - vm_compute. reflexivity.
Defined.
End TextExamples.
